(** * Defaults-list composition of hydra, embedded in Rocq

    The development follows [hydra/_internal/defaults_list.py] and the
    [DefaultElement] data class of [hydra/core/__init__.py].

    Python objects are mutable and shared: the very same [DefaultElement]
    is referenced from the caller's list, from the flattened result and from
    the queue of deferred overrides.  The embedding therefore keeps an object
    store ([heap]) and lets every list hold references into it.  Exceptions
    are an explicit outcome, and the two mutually recursive functions take a
    fuel argument since a repository may describe a cyclic defaults tree. *)

From stdpp Require Import gmap strings list.

Open Scope string_scope.
Open Scope list_scope.
Open Scope nat_scope.

(** ** Strings produced by Python formatting *)

Definition nl : string := String (Ascii.ascii_of_nat 10) EmptyString.
Definition tab : string := String (Ascii.ascii_of_nat 9) EmptyString.

(** [f"{x}"] for an [Optional[str]]: [None] prints as the word None. *)
Definition py_str (o : option string) : string :=
  match o with
  | Some s => s
  | None => "None"
  end.

(** [sep.join(parts)] *)
Fixpoint join (sep : string) (parts : list string) : string :=
  match parts with
  | [] => ""
  | [p] => p
  | p :: rest => p +:+ sep +:+ join sep rest
  end.

(** ** hydra.core.DefaultElement *)

Record DefaultElement := mkDefaultElement {
  config_name : option string;
  config_group : option string;
  optional : bool;
  package : option string;
  package2 : option string;
  from_override : bool;
  is_add_only : bool;
  is_delete : bool;
  is_deleted : bool;
  primary : bool;
  skip_load : bool;
  skip_load_reason : string;
}.

(** Modelled from the spec: [defaults_list.py] reads [element.primary] and
    [dd.skip_load] and calls [set_skip_load(reason)], none of which the class
    body in [hydra/core/__init__.py] declares.  They are kept as three more
    fields of the data class ([primary], [skip_load], [skip_load_reason], all
    off by default), and [set_skip_load] does what the spec says of it:
    the entry is marked skip-load and the reason is recorded. *)
Definition set_skip_load (reason : string) (e : DefaultElement) : DefaultElement :=
  {| config_name := config_name e; config_group := config_group e;
     optional := optional e; package := package e; package2 := package2 e;
     from_override := from_override e; is_add_only := is_add_only e;
     is_delete := is_delete e; is_deleted := is_deleted e;
     primary := primary e;
     skip_load := true; skip_load_reason := reason |}.

(** [DefaultElement(config_name=n, config_group=g, package=p)] with every
    other field at its default. *)
Definition default_element (n g p : option string) : DefaultElement :=
  {| config_name := n; config_group := g; optional := false; package := p;
     package2 := None; from_override := false; is_add_only := false;
     is_delete := false; is_deleted := false; primary := false;
     skip_load := false; skip_load_reason := "" |}.

#[global] Instance DefaultElement_eq_dec : EqDecision DefaultElement.
Proof. solve_decision. Defined.

#[global] Instance DefaultElement_inhabited : Inhabited DefaultElement :=
  populate (default_element None None None).

(** Field assignments [d.f = v]. *)
Definition set_config_name (v : option string) (e : DefaultElement) : DefaultElement :=
  {| config_name := v; config_group := config_group e;
     optional := optional e; package := package e; package2 := package2 e;
     from_override := from_override e; is_add_only := is_add_only e;
     is_delete := is_delete e; is_deleted := is_deleted e;
     primary := primary e;
     skip_load := skip_load e; skip_load_reason := skip_load_reason e |}.

Definition set_config_group (v : option string) (e : DefaultElement) : DefaultElement :=
  {| config_name := config_name e; config_group := v;
     optional := optional e; package := package e; package2 := package2 e;
     from_override := from_override e; is_add_only := is_add_only e;
     is_delete := is_delete e; is_deleted := is_deleted e;
     primary := primary e;
     skip_load := skip_load e; skip_load_reason := skip_load_reason e |}.

Definition set_package (v : option string) (e : DefaultElement) : DefaultElement :=
  {| config_name := config_name e; config_group := config_group e;
     optional := optional e; package := v; package2 := package2 e;
     from_override := from_override e; is_add_only := is_add_only e;
     is_delete := is_delete e; is_deleted := is_deleted e;
     primary := primary e;
     skip_load := skip_load e; skip_load_reason := skip_load_reason e |}.

Definition set_from_override (v : bool) (e : DefaultElement) : DefaultElement :=
  {| config_name := config_name e; config_group := config_group e;
     optional := optional e; package := package e; package2 := package2 e;
     from_override := v; is_add_only := is_add_only e;
     is_delete := is_delete e; is_deleted := is_deleted e;
     primary := primary e;
     skip_load := skip_load e; skip_load_reason := skip_load_reason e |}.

Definition set_is_deleted (v : bool) (e : DefaultElement) : DefaultElement :=
  {| config_name := config_name e; config_group := config_group e;
     optional := optional e; package := package e; package2 := package2 e;
     from_override := from_override e; is_add_only := is_add_only e;
     is_delete := is_delete e; is_deleted := v;
     primary := primary e;
     skip_load := skip_load e; skip_load_reason := skip_load_reason e |}.

(** [config_path()]: [None] stands for the failed
    [assert self.config_name is not None]. *)
Definition config_path (e : DefaultElement) : option string :=
  match config_name e with
  | None => None
  | Some n =>
      match config_group e with
      | Some g => Some (g +:+ "/" +:+ n)
      | None => Some n
      end
  end.

Definition fully_qualified_group_name (e : DefaultElement) : string :=
  match package e with
  | Some p => py_str (config_group e) +:+ "@" +:+ p
  | None => py_str (config_group e)
  end.

Definition is_package_rename (e : DefaultElement) : bool :=
  bool_decide (package2 e ≠ None).

Definition get_subject_package (e : DefaultElement) : option string :=
  match package2 e with
  | None => package e
  | Some p2 => Some p2
  end.

(** ** DeleteKey: a frozen data class, compared field by field *)

Record DeleteKey := mkDeleteKey {
  fqgn : string;
  dk_config_name : option string;
  must_delete : bool;
}.

#[global] Instance DeleteKey_eq_dec : EqDecision DeleteKey.
Proof. solve_decision. Defined.

(** [DeleteKey.__repr__] *)
Definition DeleteKey_repr (k : DeleteKey) : string :=
  match dk_config_name k with
  | None => fqgn k
  | Some n => fqgn k +:+ "=" +:+ n
  end.

(** ** Exceptions and outcomes *)

Inductive exn :=
| ConfigCompositionException (msg : string)
| MissingConfigException (missing_cfg_file : option string) (message : string)
| AssertionError
| ValueError
| InterpolationError.

Inductive outcome (A : Type) :=
| Ok (a : A)
| Raise (e : exn)
| OutOfFuel.
Arguments Ok {A} a.
Arguments Raise {A} e.
Arguments OutOfFuel {A}.

(** ** The object store *)

Abbreviation ref := nat (only parsing).
Abbreviation heap := (list DefaultElement) (only parsing).

(** Reading through a reference.  Python never holds a dangling reference;
    outside the store the read gives the all-default element. *)
Definition deref (h : heap) (r : ref) : DefaultElement := h !!! r.

(** In-place update of the object behind [r]. *)
Definition mutate (f : DefaultElement → DefaultElement) (r : ref) (h : heap) : heap :=
  alter f r h.

(** A new object; its reference is the old size of the store. *)
Definition alloc (e : DefaultElement) (h : heap) : ref * heap :=
  (List.length h, h ++ [e]).

(** A list of new objects, in order. *)
Definition alloc_list (es : list DefaultElement) (h : heap) : list ref * heap :=
  (seq (List.length h) (List.length es), h ++ es).

(** The delete-group table: a Python dict, which keeps insertion order. *)
Abbreviation delete_table := (list (DeleteKey * nat)) (only parsing).

Definition dt_contains (k : DeleteKey) (dg : delete_table) : bool :=
  bool_decide (k ∈ dg.*1).

(** [delete_groups[k] = 0]: overwrite in place, or append a new key. *)
Fixpoint dt_set_zero (k : DeleteKey) (dg : delete_table) : delete_table :=
  match dg with
  | [] => [(k, 0)]
  | (k', c) :: rest =>
      if decide (k' = k) then (k', 0) :: rest else (k', c) :: dt_set_zero k rest
  end.

(** ** The repository, an external collaborator

    [load_config(config_path, is_primary_config)] gives the fragment's own
    defaults list or nothing; every load parses the fragment anew, so the
    entries it returns are new objects.  [get_sources()] is only used for the
    text of the missing-configuration error. *)

Record ConfigSource := mkConfigSource {
  provider : string;
  source_repr : string;
}.

Record ConfigRepository := mkConfigRepository {
  load_config : string → bool → option (list DefaultElement);
  get_sources : list ConfigSource;
}.

(** ** Passes over the flattened list *)

(** [is_matching(rename, other)] *)
Definition is_matching (rename other : DefaultElement) : bool :=
  if bool_decide (config_group rename ≠ config_group other) then false
  else if bool_decide (package rename = package other) then true
  else false.

(** The [is_deleted = True; set_skip_load("deleted_from_list")] pair of
    [delete_if_matching]. *)
Definition mark_deleted (e : DefaultElement) : DefaultElement :=
  set_skip_load "deleted_from_list" (set_is_deleted true e).

(** Does the delete key select the element? *)
Definition delete_key_hits (k : DeleteKey) (e : DefaultElement) : bool :=
  bool_decide (fqgn k = fully_qualified_group_name e) &&
  match dk_config_name k with
  | None => true
  | Some n => bool_decide (Some n = config_name e)
  end.

(** [delete_if_matching(delete_groups, d)]: walks the table in insertion
    order, counts every hit and marks the object behind [d]. *)
Fixpoint delete_if_matching (dg : delete_table) (d : ref) (h : heap)
  : bool * delete_table * heap :=
  match dg with
  | [] => (false, [], h)
  | (k, c) :: rest =>
      let hit := delete_key_hits k (deref h d) in
      let h1 := if hit then mutate mark_deleted d h else h in
      let '(matched, rest', h2) := delete_if_matching rest d h1 in
      (hit || matched, (k, if hit then S c else c) :: rest', h2)
  end.

Definition could_not_delete_msg (k : DeleteKey) : string :=
  "Could not delete. No match for '" +:+ DeleteKey_repr k +:+
  "' in the defaults list.".

(** The first loop of [_post_process_deletes]. *)
Fixpoint verify_deletions (dg : delete_table) : outcome unit :=
  match dg with
  | [] => Ok tt
  | (g, c) :: rest =>
      if bool_decide (c = 0) && must_delete g
      then Raise (ConfigCompositionException (could_not_delete_msg g))
      else verify_deletions rest
  end.

(** [_post_process_deletes(ret, delete_groups)]; the new contents of [ret]
    are returned. *)
Definition _post_process_deletes (h : heap) (ret : list ref) (dg : delete_table)
  : outcome (list ref) :=
  match verify_deletions dg with
  | Ok _ => Ok (filter (λ x, is_delete (deref h x) = false) ret)
  | Raise e => Raise e
  | OutOfFuel => OutOfFuel
  end.

(** [_find_match_before(defaults, like)]; [d2 == like] is the field-wise
    equality of the data class. *)
Fixpoint _find_match_before (h : heap) (defaults : list ref) (like : ref)
  : option ref :=
  match defaults with
  | [] => None
  | d2 :: rest =>
      if bool_decide (deref h d2 = deref h like) then None
      else if bool_decide (fully_qualified_group_name (deref h d2)
                           = fully_qualified_group_name (deref h like))
           then Some d2
           else _find_match_before h rest like
  end.

Definition could_not_add_msg (e : DefaultElement) : string :=
  let f := fully_qualified_group_name e in
  "Could not add '" +:+ f +:+ "=" +:+ py_str (config_name e) +:+ "'. '" +:+
  f +:+ "' is already in the defaults list.".

Definition could_not_override_msg (e : DefaultElement) : string :=
  let f := fully_qualified_group_name e in
  "Could not override '" +:+ f +:+ "'. No match in the defaults list." +:+
  nl +:+ "To append to your default list use +" +:+ f +:+ "=" +:+
  py_str (config_name e).

(** The body of the loop of [_verify_no_add_conflicts] for one entry. *)
Definition verify_entry (h : heap) (defaults : list ref) (d : ref) : outcome unit :=
  let e := deref h d in
  if from_override e && negb (is_delete e) then
    let mtch := _find_match_before h defaults d in
    if is_add_only e && bool_decide (mtch ≠ None)
    then Raise (ConfigCompositionException (could_not_add_msg e))
    else if negb (is_add_only e) && bool_decide (mtch = None)
    then Raise (ConfigCompositionException (could_not_override_msg e))
    else Ok tt
  else Ok tt.

Fixpoint verify_entries (h : heap) (defaults : list ref) (todo : list ref)
  : outcome unit :=
  match todo with
  | [] => Ok tt
  | d :: rest =>
      match verify_entry h defaults d with
      | Ok _ => verify_entries h defaults rest
      | other => other
      end
  end.

(** [_verify_no_add_conflicts(defaults)]: [for d in reversed(defaults)]. *)
Definition _verify_no_add_conflicts (h : heap) (defaults : list ref) : outcome unit :=
  verify_entries h defaults (reverse defaults).

(** The index of the rightmost rename directive, if any. *)
Fixpoint last_rename_index (h : heap) (defaults : list ref) : option nat :=
  match defaults with
  | [] => None
  | d :: rest =>
      match last_rename_index h rest with
      | Some i => Some (S i)
      | None => if is_package_rename (deref h d) then Some 0 else None
      end
  end.

(** [for d in defaults: if is_matching(rename, d): d.package = ...]; the
    rename is read again at every step, as it is an object of the store. *)
Fixpoint apply_rename (rename : ref) (defaults : list ref) (h : heap) (renamed : bool)
  : bool * heap :=
  match defaults with
  | [] => (renamed, h)
  | d :: rest =>
      if is_matching (deref h rename) (deref h d)
      then apply_rename rename rest
             (mutate (set_package (get_subject_package (deref h rename))) d h) true
      else apply_rename rename rest h renamed
  end.

Definition could_not_rename_msg (e : DefaultElement) : string :=
  "Could not rename package. " +:+
  "No match for '" +:+ py_str (config_group e) +:+ "@" +:+ py_str (package e) +:+
  "' in the defaults list".

(** The [while True] loop of [_process_renames]; every round pops one
    entry, so [fuel] rounds more than the length of the list are never
    needed. *)
Fixpoint process_renames_loop (fuel : nat) (defaults : list ref) (h : heap)
  : outcome (list ref * heap) :=
  match fuel with
  | 0 => OutOfFuel
  | S fuel' =>
      match last_rename_index h defaults with
      | Some idx =>
          let rename := defaults !!! idx in
          let defaults' := delete idx defaults in
          let '(renamed, h') := apply_rename rename defaults' h false in
          if renamed then process_renames_loop fuel' defaults' h'
          else Raise (ConfigCompositionException
                        (could_not_rename_msg (deref h' rename)))
      | None => Ok (defaults, h)
      end
  end.

Definition _process_renames (defaults : list ref) (h : heap)
  : outcome (list ref * heap) :=
  process_renames_loop (S (List.length defaults)) defaults h.

(** The deduplication pass at the end of [_expand_defaults_list_impl]. *)
Fixpoint dedup_loop (h : heap) (result : list ref) (seen_groups : gset string)
  : list ref :=
  match result with
  | [] => []
  | d :: rest =>
      let e := deref h d in
      match config_group e with
      | Some _ =>
          let f := fully_qualified_group_name e in
          if decide (f ∈ seen_groups) then dedup_loop h rest seen_groups
          else d :: dedup_loop h rest
                      (if is_deleted e then seen_groups else {[f]} ∪ seen_groups)
      | None => d :: dedup_loop h rest seen_groups
      end
  end.

Definition dedup (h : heap) (result : list ref) : list ref :=
  dedup_loop h result ∅.

(** [missing_config_error]: always raises. *)
Definition search_path_lines (repo : ConfigRepository) : string :=
  join nl (map (λ src, tab +:+ source_repr src)
               (filter (λ src, provider src ≠ "schema") (get_sources repo))).

Definition missing_config_error {A} (repo : ConfigRepository)
    (config_name : option string) (msg : string) (with_search_path : bool)
  : outcome A :=
  Raise (MissingConfigException config_name
           (if with_search_path
            then msg +:+ (nl +:+ "Search path:") +:+ (nl +:+ search_path_lines repo)
            else msg)).

(** [_validate_self]: the loop, then the implicit leading self. *)
Fixpoint validate_self_loop (element : ref) (effective : list ref)
    (has_self : bool) (h : heap) : outcome (bool * heap) :=
  match effective with
  | [] => Ok (has_self, h)
  | d :: rest =>
      if bool_decide (config_name (deref h d) = Some "_self_") then
        if has_self then
          match config_path (deref h element) with
          | Some p => Raise (ConfigCompositionException
                               ("Duplicate _self_ defined in " +:+ p))
          | None => Raise AssertionError
          end
        else
          match config_group (deref h d) with
          | Some _ => Raise AssertionError
          | None =>
              let h1 := mutate (set_config_group (config_group (deref h element))) d h in
              let h2 := mutate (set_package (package (deref h1 element))) d h1 in
              validate_self_loop element rest true h2
          end
      else validate_self_loop element rest has_self h
  end.

Definition _validate_self (element : ref) (effective : list ref) (h : heap)
  : outcome (list ref * heap) :=
  match validate_self_loop element effective false h with
  | Ok (true, h') => Ok (effective, h')
  | Ok (false, h') =>
      let '(me, h1) := alloc (deref h' element) h' in
      let h2 := mutate (set_config_name (Some "_self_")) me h1 in
      let h3 := mutate (set_from_override false) me h2 in
      Ok (me :: effective, h3)
  | Raise e => Raise e
  | OutOfFuel => OutOfFuel
  end.

(** ** State threaded through one top-level call

    The store, the group-to-choice map and the delete-group table are
    shared by reference by every recursive call.  [group_to_choice] is an
    OmegaConf [DictConfig] from fully-qualified group names to chosen
    names.  The field holds what was assigned under each key; the test
    [key in group_to_choice] and the read [group_to_choice[key]] go through
    [dict_read] below, since a [DictConfig] does not contain a key that
    holds the missing marker [???] and resolves a stored interpolation
    whenever it is tested or read. *)

Record state := mkState {
  st_heap : list DefaultElement;
  group_to_choice : gmap string (option string);
  delete_groups : list (DeleteKey * nat);
}.

Definition M (A : Type) : Type := state → outcome (A * state).

#[global] Instance M_ret : MRet M := λ A a s, Ok (a, s).

#[global] Instance M_bind : MBind M := λ A B f m s,
  match m s with
  | Ok (a, s') => f a s'
  | Raise e => Raise e
  | OutOfFuel => OutOfFuel
  end.

Definition raise {A} (e : exn) : M A := λ _, Raise e.
Definition out_of_fuel {A} : M A := λ _, OutOfFuel.

Definition get_heap : M (list DefaultElement) := λ s, Ok (st_heap s, s).
Definition get_choices : M (gmap string (option string)) :=
  λ s, Ok (group_to_choice s, s).

Definition with_heap (h : heap) (s : state) : state :=
  {| st_heap := h; group_to_choice := group_to_choice s;
     delete_groups := delete_groups s |}.

Definition get_obj (r : ref) : M DefaultElement :=
  λ s, Ok (deref (st_heap s) r, s).

Definition update_obj (f : DefaultElement → DefaultElement) (r : ref) : M unit :=
  λ s, Ok (tt, with_heap (mutate f r (st_heap s)) s).

(** [copy.deepcopy(d)] of an element, and the objects of a loaded list. *)
Definition new_obj (e : DefaultElement) : M ref :=
  λ s, let '(r, h) := alloc e (st_heap s) in Ok (r, with_heap h s).

Definition new_objs (es : list DefaultElement) : M (list ref) :=
  λ s, let '(rs, h) := alloc_list es (st_heap s) in Ok (rs, with_heap h s).

(** A pass that works on the store alone. *)
Definition on_heap {A} (f : heap → outcome (A * heap)) : M A :=
  λ s, match f (st_heap s) with
       | Ok (a, h) => Ok (a, with_heap h s)
       | Raise e => Raise e
       | OutOfFuel => OutOfFuel
       end.

Definition check_heap (f : heap → outcome unit) : M unit :=
  on_heap (λ h, match f h with
                | Ok _ => Ok (tt, h)
                | Raise e => Raise e
                | OutOfFuel => OutOfFuel
                end).

(** [group_to_choice[f] = v] *)
Definition set_choice (f : string) (v : option string) : M unit :=
  λ s, Ok (tt, {| st_heap := st_heap s;
                  group_to_choice := <[f := v]> (group_to_choice s);
                  delete_groups := delete_groups s |}).

(** [if delete_key not in delete_groups: delete_groups[delete_key] = 0] *)
Definition register_delete (k : DeleteKey) : M unit :=
  λ s, Ok (tt, {| st_heap := st_heap s;
                  group_to_choice := group_to_choice s;
                  delete_groups :=
                    if dt_contains k (delete_groups s) then delete_groups s
                    else delete_groups s ++ [(k, 0)] |}).

Definition delete_matching (d : ref) : M bool :=
  λ s, let '(matched, dg, h) := delete_if_matching (delete_groups s) d (st_heap s) in
       Ok (matched, {| st_heap := h; group_to_choice := group_to_choice s;
                       delete_groups := dg |}).

(** The key a delete directive stands for. *)
Definition make_delete_key (e : DefaultElement) : DeleteKey :=
  {| fqgn := fully_qualified_group_name e;
     dk_config_name :=
       if bool_decide (config_name e ≠ Some "_delete_") then config_name e else None;
     must_delete := from_override e |}.

(** [result.index(d)]: the first position holding an equal element. *)
Fixpoint list_index (h : heap) (result : list ref) (d : ref) : option nat :=
  match result with
  | [] => None
  | x :: rest =>
      if bool_decide (deref h x = deref h d) then Some 0
      else S <$> list_index h rest d
  end.

Definition self_name_missing_msg : string :=
  "self_name is not specified and defaults list contains a _self_ item".

(** What testing and reading a key of the [DictConfig] [group_to_choice]
    comes to: the key is not [in] the dictionary; it is, and reading gives
    a value; or it is, and reading raises. *)
Inductive reading :=
| Absent
| Value (v : option string)
| Unreadable.

#[global] Instance reading_eq_dec : EqDecision reading.
Proof. solve_decision. Defined.

Section Expansion.

(** OmegaConf, an external library: whether a string is an interpolation,
    and the value an interpolation resolves to against the copied choice
    map and the legacy [defaults] view (no value when resolution fails). *)
Variable node_is_interpolation : string → bool.
Variable resolve_node :
  gmap string (option string) → list (option string * option string) →
  string → string → option (option string).

(** [resolve_choice choices key v]: what OmegaConf makes of the
    interpolation [v] stored under [key] of [group_to_choice] when the key
    is tested or read. *)
Variable resolve_choice : gmap string (option string) → string → string → reading.

Variable repo : ConfigRepository.

Definition is_interpolation (e : DefaultElement) : bool :=
  match config_name e with
  | Some n => node_is_interpolation n
  | None => false
  end.

(** [key in group_to_choice] and [group_to_choice[key]] in one.  The
    dictionary keeps what was assigned; a key that holds the missing
    marker [???] is not [in] it, a stored [None] is, and a stored
    interpolation is resolved against the dictionary at every test and
    read. *)
Definition dict_read (choices : gmap string (option string)) (key : string)
  : reading :=
  match choices !! key with
  | None => Absent
  | Some None => Value None
  | Some (Some v) =>
      if bool_decide (v = "???") then Absent
      else if node_is_interpolation v then resolve_choice choices key v
      else Value (Some v)
  end.

Definition dict_contains (choices : gmap string (option string)) (key : string)
  : bool :=
  match dict_read choices key with
  | Absent => false
  | _ => true
  end.

(** [d.resolve_interpolation(group_to_choice2)] *)
Definition resolve_interpolation
    (choices : gmap string (option string))
    (legacy : list (option string * option string)) (d : ref) : M unit :=
  e ← get_obj d;
  match config_group e with
  | None => raise AssertionError
  | Some g =>
      match resolve_node choices legacy g (default "" (config_name e)) with
      | Some v => update_obj (set_config_name v) d
      | None => raise InterpolationError
      end
  end.

(** The body of the [for dd in reversed(added_sublist)] loop. *)
Definition register_choice (d dd : ref) : M unit :=
  edd ← get_obj dd;
  if bool_decide (config_group edd ≠ None)
     && bool_decide (config_name edd ≠ Some "_keep_")
     && negb (is_delete edd) && negb (skip_load edd)
  then
    let f := fully_qualified_group_name edd in
    choices ← get_choices;
    ed ← get_obj d;
    if negb (dict_contains choices f) && negb (is_interpolation ed)
    then set_choice f (config_name edd)
    else mret tt
  else mret tt.

(** The loop itself; [dds] is already reversed. *)
Fixpoint register_choices (d : ref) (dds : list ref) : M unit :=
  match dds with
  | [] => mret tt
  | dd :: rest => register_choice d dd;; register_choices d rest
  end.

(** One round of the main loop of [_expand_defaults_list_impl]: the
    sublist the entry contributes and what it adds to the deferred queue.
    [rec] is [_compute_element_defaults_list_impl]. *)
Definition expand_entry (rec : ref → M (list ref)) (self_name : option string)
    (d : ref) : M (list ref * list ref) :=
  e ← get_obj d;
  let f := fully_qualified_group_name e in
  '(d, added_sublist, deferred) ←
    (if bool_decide (config_name e = Some "_self_") then
       match self_name with
       | None => raise (ConfigCompositionException self_name_missing_msg)
       | Some sn =>
           d' ← new_obj e;
           choices ← get_choices;
           match dict_read choices f with
           | Value v => update_obj (set_config_name v) d'
           | Unreadable => raise InterpolationError
           | Absent => update_obj (set_config_name (Some sn)) d'
           end;;
           mret (d', [d'], [])
       end
     else if is_package_rename e then mret (d, [d], [])
     else if is_delete e then
       register_delete (make_delete_key e);;
       mret (d, [d], [])
     else if from_override e then mret (d, [d], [d])
     else if is_interpolation e then mret (d, [d], [d])
     else
       matched ← delete_matching d;
       if (matched : bool) then mret (d, [d], [])
       else
         choices ← get_choices;
         match dict_read choices f with
         | Value v => update_obj (set_config_name v) d
         | Unreadable => raise InterpolationError
         | Absent => mret tt
         end;;
         added ← rec d;
         mret (d, added, []));
  register_choices d (reverse added_sublist);;
  mret (added_sublist, deferred).

(** [for d in reversed(defaults)]: [todo] is the reversed list, [ret]
    and [deferred_overrides] grow by appending. *)
Fixpoint expand_loop (rec : ref → M (list ref)) (self_name : option string)
    (todo : list ref) (ret : list (list ref)) (deferred_overrides : list ref)
  : M (list (list ref) * list ref) :=
  match todo with
  | [] => mret (ret, deferred_overrides)
  | d :: rest =>
      '(added_sublist, deferred) ← expand_entry rec self_name d;
      expand_loop rec self_name rest (ret ++ [added_sublist])
        (deferred_overrides ++ deferred)
  end.

(** The [for d in deferred_overrides] loop; [result[index:index] = items]
    inserts the items in front of position [index]. *)
Fixpoint expand_deferred (rec : ref → M (list ref))
    (choices2 : gmap string (option string))
    (legacy : list (option string * option string))
    (deferred_overrides : list ref) (result : list ref) : M (list ref) :=
  match deferred_overrides with
  | [] => mret result
  | d :: rest =>
      e ← get_obj d;
      (if is_interpolation e then resolve_interpolation choices2 legacy d
       else mret tt);;
      item_defaults ← rec d;
      h ← get_heap;
      match list_index h result d with
      | None => raise ValueError
      | Some index =>
          expand_deferred rec choices2 legacy rest
            (take index result ++ item_defaults ++ drop index result)
      end
  end.

(** [_expand_defaults_list_impl], given the function it recurses into.
    [original] is a deep copy nobody else refers to, so its values are
    enough. *)
Definition expand_with (rec : ref → M (list ref)) (self_name : option string)
    (original : list DefaultElement) (effective : list ref) : M (list ref) :=
  '(ret, deferred_overrides) ←
    expand_loop rec self_name (reverse effective) [] [];
  let result := concat (reverse ret) in
  result ← on_heap (_process_renames result);
  check_heap (λ h, _verify_no_add_conflicts h result);;
  choices2 ← get_choices;
  let legacy := map (λ d, (config_group d, config_name d)) original in
  result ← expand_deferred rec choices2 legacy deferred_overrides result;
  h ← get_heap;
  mret (dedup h result).

Definition cannot_find_msg (path : string) : string :=
  "Cannot find config : " +:+ path +:+
  ", check that it's in your config search path".

Fixpoint _compute_element_defaults_list_impl (fuel : nat) (element : ref)
  : M (list ref) :=
  match fuel with
  | 0 => out_of_fuel
  | S fuel' =>
      deleted ← delete_matching element;
      if (deleted : bool) then mret []
      else
        e ← get_obj element;
        match config_path e with
        | None => raise AssertionError
        | Some path =>
            match load_config repo path (primary e) with
            | None =>
                if optional e then
                  update_obj (set_skip_load "missing_optional_config") element;;
                  mret [element]
                else
                  λ _, missing_config_error repo (Some path)
                         (cannot_find_msg path) true
            | Some loaded =>
                effective ← new_objs loaded;
                effective ← on_heap (_validate_self element effective);
                e ← get_obj element;
                expand_with (_compute_element_defaults_list_impl fuel')
                  (config_name e) loaded effective
            end
        end
  end.

Definition _expand_defaults_list_impl (fuel : nat) (self_name : option string)
    (original : list DefaultElement) (effective : list ref) : M (list ref) :=
  expand_with (_compute_element_defaults_list_impl fuel) self_name
    original effective.

(** The two steps every top-level call ends with. *)
Definition finish (r : outcome (list ref * state)) : outcome (list ref * state) :=
  match r with
  | Ok (ret, s) =>
      match _post_process_deletes (st_heap s) ret (delete_groups s) with
      | Ok ret' => Ok (ret', s)
      | Raise e => Raise e
      | OutOfFuel => OutOfFuel
      end
  | other => other
  end.

Definition empty_state (h : heap) : state :=
  {| st_heap := h; group_to_choice := ∅; delete_groups := [] |}.

(** [compute_element_defaults_list(element, repo)]; the final state is
    returned with the list, since the caller sees the mutated objects. *)
Definition compute_element_defaults_list (fuel : nat) (element : ref) (h : heap)
  : outcome (list ref * state) :=
  finish (_compute_element_defaults_list_impl fuel element (empty_state h)).

(** The first loop of [_expand_defaults_list]; [todo] is reversed. *)
Fixpoint seed_tables (h : heap) (todo : list ref)
    (choices : gmap string (option string)) (dg : delete_table)
  : gmap string (option string) * delete_table :=
  match todo with
  | [] => (choices, dg)
  | d :: rest =>
      let e := deref h d in
      if is_delete e then
        seed_tables h rest choices (dt_set_zero (make_delete_key e) dg)
      else
        match config_group e with
        | Some _ =>
            let f := fully_qualified_group_name e in
            if dict_contains choices f then seed_tables h rest choices dg
            else seed_tables h rest (<[f := config_name e]> choices) dg
        | None => seed_tables h rest choices dg
        end
  end.

Definition _expand_defaults_list (fuel : nat) (self_name : option string)
    (defaults : list ref) (h : heap) : outcome (list ref * state) :=
  let '(choices, dg) := seed_tables h (reverse defaults) ∅ [] in
  finish (_expand_defaults_list_impl fuel self_name
            (map (deref h) defaults) defaults
            {| st_heap := h; group_to_choice := choices; delete_groups := dg |}).

Definition expand_defaults_list (fuel : nat) (defaults : list ref) (h : heap)
  : outcome (list ref * state) :=
  _expand_defaults_list fuel None defaults h.

End Expansion.

(** ** Inputs for examples

    The override-derived entries are built the way
    [convert_overrides_to_defaults] builds them: constructed with
    [from_override=True], then flagged.  The repository is a small stand-in
    in the style of the fragments the tests name. *)

Definition set_is_add_only (v : bool) (e : DefaultElement) : DefaultElement :=
  {| config_name := config_name e; config_group := config_group e;
     optional := optional e; package := package e; package2 := package2 e;
     from_override := from_override e; is_add_only := v;
     is_delete := is_delete e; is_deleted := is_deleted e;
     primary := primary e;
     skip_load := skip_load e; skip_load_reason := skip_load_reason e |}.

Definition set_is_delete (v : bool) (e : DefaultElement) : DefaultElement :=
  {| config_name := config_name e; config_group := config_group e;
     optional := optional e; package := package e; package2 := package2 e;
     from_override := from_override e; is_add_only := is_add_only e;
     is_delete := v; is_deleted := is_deleted e;
     primary := primary e;
     skip_load := skip_load e; skip_load_reason := skip_load_reason e |}.

Definition set_optional (v : bool) (e : DefaultElement) : DefaultElement :=
  {| config_name := config_name e; config_group := config_group e;
     optional := v; package := package e; package2 := package2 e;
     from_override := from_override e; is_add_only := is_add_only e;
     is_delete := is_delete e; is_deleted := is_deleted e;
     primary := primary e;
     skip_load := skip_load e; skip_load_reason := skip_load_reason e |}.

Definition set_package2 (v : option string) (e : DefaultElement) : DefaultElement :=
  {| config_name := config_name e; config_group := config_group e;
     optional := optional e; package := package e; package2 := v;
     from_override := from_override e; is_add_only := is_add_only e;
     is_delete := is_delete e; is_deleted := is_deleted e;
     primary := primary e;
     skip_load := skip_load e; skip_load_reason := skip_load_reason e |}.

(** [DefaultElement(config_group=g, config_name=n)] and
    [DefaultElement(config_name=n)]. *)
Definition in_group (g n : string) : DefaultElement :=
  default_element (Some n) (Some g) None.
Definition top_level (n : string) : DefaultElement :=
  default_element (Some n) None None.

(** The overrides [g=n], [+g=n] and [~g]. *)
Definition override_of (g n : string) : DefaultElement :=
  set_from_override true (in_group g n).
Definition add_override_of (g n : string) : DefaultElement :=
  set_is_add_only true (override_of g n).
Definition delete_override_of (g : string) : DefaultElement :=
  set_is_delete true (override_of g "_delete_").

Definition demo_fragments : list (string * list DefaultElement) :=
  [ ("no_defaults", []);
    ("a/a1", []);
    ("a/a6", []);
    ("a/a2", [in_group "b" "b1"]);
    ("b/b1", []);
    ("b/b2", [in_group "c" "c2"]);
    ("c/c1", []);
    ("c/c2", []);
    ("with_c1", [in_group "c" "c1"]);
    ("trailing_self", [top_level "no_defaults"; top_level "_self_"]);
    ("duplicate_self", [top_level "_self_"; top_level "_self_"]);
    ("grouped_self", [in_group "x" "_self_"]);
    ("grouped_then_plain_self", [in_group "x" "_self_"; top_level "_self_"]);
    ("optional_last", [in_group "b" "b1"; set_optional true (in_group "b" "bx")]);
    ("c2_then_with_c1", [in_group "c" "c2"; top_level "with_c1"]) ].

Definition demo_repo : ConfigRepository :=
  {| load_config := λ path _,
       (λ found, found.2.2) <$> list_find (λ p, p.1 = path) demo_fragments;
     get_sources :=
       [ {| provider := "test"; source_repr := "provider=test, path=file://demo" |};
         {| provider := "schema"; source_repr := "provider=schema, path=structured://" |} ] |}.

(** No string is an interpolation, nothing resolves. *)
Definition no_interpolation : string → bool := λ _, false.
Definition no_resolution :
  gmap string (option string) → list (option string * option string) →
  string → string → option (option string) := λ _ _ _ _, None.
Definition no_choice_resolution :
  gmap string (option string) → string → string → reading := λ _ _ _, Absent.

(** ** Overrides turned into entries of a defaults list *)

(** What [override.value()] can be, as far as [convert_overrides_to_defaults]
    looks at it: a string, [None], or something else. *)
Inductive py_value :=
| PyStr (s : string)
| PyNone
| PyOther.

Module Override.

(** Modelled from the spec: the class [Override] of
    [hydra.core.override_parser.types] is not among the sources.  The spec
    gives an override as its [(isAdd, isDelete, isPackageRename, keyOrGroup,
    value, pkg1, pkg2)]; here it is what [convert_overrides_to_defaults]
    reads of it, the results of the methods [is_add()], [is_delete()],
    [is_package_rename()], [value()] and [get_subject_package()] and the
    attributes [key_or_group], [pkg1] and [pkg2]. *)
Record t := mk {
  is_add : bool;
  is_delete : bool;
  is_package_rename : bool;
  value : py_value;
  get_subject_package : option string;
  key_or_group : string;
  pkg1 : option string;
  pkg2 : option string;
}.

End Override.

Definition add_rename_msg : string :=
  "Add syntax does not support package rename, remove + prefix".

Definition delete_syntax_msg : string :=
  "Defaults list supported delete syntax is in the form" +:+
  " ~group and ~group=value, where value is a group name (string)".

(** The body of the loop of [convert_overrides_to_defaults]. *)
Definition convert_override (override : Override.t) : outcome DefaultElement :=
  if Override.is_add override && Override.is_package_rename override then
    Raise (ConfigCompositionException add_rename_msg)
  else
    let value :=
      match Override.value override with
      | PyNone => if Override.is_delete override then PyStr "_delete_" else PyNone
      | v => v
      end in
    match value with
    | PyStr v =>
        let default :=
          if Override.is_package_rename override then
            set_from_override true
              (set_package2 (Override.pkg2 override)
                 (default_element (Some v) (Some (Override.key_or_group override))
                    (Override.pkg1 override)))
          else
            set_from_override true
              (default_element (Some v) (Some (Override.key_or_group override))
                 (Override.get_subject_package override)) in
        let default :=
          if Override.is_delete override then set_is_delete true default
          else default in
        let default :=
          if Override.is_add override then set_is_add_only true default
          else default in
        Ok default
    | _ => Raise (ConfigCompositionException delete_syntax_msg)
    end.

(** [convert_overrides_to_defaults(parsed_overrides)]: the entries are new
    objects, given here by their values. *)
Fixpoint convert_overrides_to_defaults (parsed_overrides : list Override.t)
  : outcome (list DefaultElement) :=
  match parsed_overrides with
  | [] => Ok []
  | override :: rest =>
      match convert_override override with
      | Ok default =>
          match convert_overrides_to_defaults rest with
          | Ok ret => Ok (default :: ret)
          | other => other
          end
      | Raise e => Raise e
      | OutOfFuel => OutOfFuel
      end
  end.

(** The overrides [key=name], [+key=name] and [~key] as the parser hands
    them over, without packages. *)
Definition parsed_override (key name : string) : Override.t :=
  {| Override.is_add := false; Override.is_delete := false;
     Override.is_package_rename := false; Override.value := PyStr name;
     Override.get_subject_package := None; Override.key_or_group := key;
     Override.pkg1 := None; Override.pkg2 := None |}.

Definition parsed_add (key name : string) : Override.t :=
  {| Override.is_add := true; Override.is_delete := false;
     Override.is_package_rename := false; Override.value := PyStr name;
     Override.get_subject_package := None; Override.key_or_group := key;
     Override.pkg1 := None; Override.pkg2 := None |}.

Definition parsed_delete (key : string) : Override.t :=
  {| Override.is_add := false; Override.is_delete := true;
     Override.is_package_rename := false; Override.value := PyNone;
     Override.get_subject_package := None; Override.key_or_group := key;
     Override.pkg1 := None; Override.pkg2 := None |}.

(** ** Predicates used in the statements *)

(** An entry that has a group, belongs to the fully-qualified group [f] and
    is not marked deleted. *)
Definition survivor (h : heap) (f : string) (r : ref) : Prop :=
  config_group (deref h r) ≠ None ∧
  fully_qualified_group_name (deref h r) = f ∧
  is_deleted (deref h r) = false.

#[global] Instance survivor_dec h f r : Decision (survivor h f r).
Proof. unfold survivor. apply _. Defined.

Definition ungrouped (h : heap) (r : ref) : Prop :=
  config_group (deref h r) = None.

#[global] Instance ungrouped_dec h r : Decision (ungrouped h r).
Proof. unfold ungrouped. apply _. Defined.

(** What decides the fate of an entry: it is kept when it has no group, or
    when no entry in front of it is a live entry of its group. *)
Definition kept (h : heap) (seen : gset string) (front : list ref) (d : ref) : Prop :=
  ungrouped h d ∨
  ((fully_qualified_group_name (deref h d) ∉ seen) ∧
   Forall (λ x, ¬ survivor h (fully_qualified_group_name (deref h d)) x) front).

#[global] Instance kept_dec h seen front d : Decision (kept h seen front d).
Proof. unfold kept. apply _. Defined.

(** A registered delete key that had to match and matched nothing. *)
Definition unmatched_required (kc : DeleteKey * nat) : Prop :=
  kc.2 = 0 ∧ must_delete kc.1 = true.

#[global] Instance unmatched_required_dec kc : Decision (unmatched_required kc).
Proof. unfold unmatched_required. apply _. Defined.

(** A [_self_] entry, by its name. *)
Definition is_self (h : heap) (r : ref) : Prop :=
  config_name (deref h r) = Some "_self_".

#[global] Instance is_self_dec h r : Decision (is_self h r).
Proof. unfold is_self. apply _. Defined.

Definition duplicate_self_msg (path : string) : string :=
  "Duplicate _self_ defined in " +:+ path.

(** The store after the first [_self_] entry took over the group and the
    package of the enclosing element. *)
Definition adopt (element d : ref) (h : heap) : heap :=
  mutate (set_package (package (deref h element))) d
    (mutate (set_config_group (config_group (deref h element))) d h).

(** An entry that is not a rename directive. *)
Definition plain_package (h : heap) (r : ref) : Prop :=
  is_package_rename (deref h r) = false.

#[global] Instance plain_package_dec h r : Decision (plain_package h r).
Proof. unfold plain_package. apply _. Defined.

(** The entries a rename directive applies to. *)
Definition rename_target (h : heap) (rename : ref) (defaults : list ref) (x : ref) : Prop :=
  x ∈ defaults ∧ is_matching (deref h rename) (deref h x) = true.

#[global] Instance rename_target_dec h rename defaults x :
  Decision (rename_target h rename defaults x).
Proof. unfold rename_target. apply _. Defined.

(** The implicit self that [_validate_self] puts in front. *)
Definition implicit_self (e : DefaultElement) : DefaultElement :=
  set_from_override false (set_config_name (Some "_self_") e).

(** A stored value that every test finds and every read gives back as it
    is: [None], or a name that is neither the missing marker nor an
    interpolation. *)
Definition ordinary (nii : string → bool) (v : option string) : Prop :=
  match v with
  | None => True
  | Some n => n ≠ "???" ∧ nii n = false
  end.

#[global] Instance ordinary_dec nii v : Decision (ordinary nii v).
Proof. unfold ordinary. destruct v; apply _. Defined.

(** Every ordinary recorded choice of [s] is still the choice in [s'], and
    no key of the dictionary is lost. *)
Definition choices_preserved (nii : string → bool) (s s' : state) : Prop :=
  (∀ f v, group_to_choice s !! f = Some v → ordinary nii v →
          group_to_choice s' !! f = Some v) ∧
  (∀ f, group_to_choice s' !! f = None → group_to_choice s !! f = None).

(** A computation whose successful runs relate the states by [R]. *)
Definition preserves (R : state → state → Prop) {A} (m : M A) : Prop :=
  ∀ s a s', m s = Ok (a, s') → R s s'.


(** A relation between states that is reflexive, transitive and kept by
    every elementary step of the expansion. *)
Class Maintained (nii : string → bool)
    (rc : gmap string (option string) → string → string → reading)
    (R : state → state → Prop) : Prop := {
  maintained_reflexive :: Reflexive R;
  maintained_transitive :: Transitive R;
  maintained_update_name : ∀ v r, preserves R (update_obj (set_config_name v) r);
  maintained_update_skip : ∀ reason r, preserves R (update_obj (set_skip_load reason) r);
  maintained_new_obj : ∀ e, preserves R (new_obj e);
  maintained_new_objs : ∀ es, preserves R (new_objs es);
  maintained_register_choice : ∀ d dd, preserves R (register_choice nii rc d dd);
  maintained_register_delete : ∀ k, preserves R (register_delete k);
  maintained_delete_matching : ∀ d, preserves R (delete_matching d);
  maintained_process_renames : ∀ l, preserves R (on_heap (_process_renames l));
  maintained_validate_self : ∀ e l, preserves R (on_heap (_validate_self e l));
}.

(** An entry that is expanded through the loader right away: not [_self_],
    not a rename or delete directive, not from an override and not an
    interpolation. *)
Definition plain_entry (nii : string → bool) (e : DefaultElement) : Prop :=
  config_name e ≠ Some "_self_" ∧
  is_package_rename e = false ∧
  is_delete e = false ∧
  from_override e = false ∧
  is_interpolation nii e = false.

(** An entry the first loop of [_expand_defaults_list] records a choice
    from, for the group [f]. *)
Definition seeds_choice (h : heap) (f : string) (r : ref) : Prop :=
  is_delete (deref h r) = false ∧
  config_group (deref h r) ≠ None ∧
  fully_qualified_group_name (deref h r) = f.

#[global] Instance seeds_choice_dec h f r : Decision (seeds_choice h f r).
Proof. unfold seeds_choice. apply _. Defined.

(** An entry the loop over an added sublist records a choice from, for
    the group [f]: it has a group, is not named [_keep_], is no delete
    directive and is not marked skip-load. *)
Definition registers_choice (h : heap) (f : string) (r : ref) : Prop :=
  config_group (deref h r) ≠ None ∧
  config_name (deref h r) ≠ Some "_keep_" ∧
  is_delete (deref h r) = false ∧
  skip_load (deref h r) = false ∧
  fully_qualified_group_name (deref h r) = f.

#[global] Instance registers_choice_dec h f r : Decision (registers_choice h f r).
Proof. unfold registers_choice. apply _. Defined.

(** The dictionary has nothing to read under [f]: no key, or the value
    [???]. *)
Definition unset (choices : gmap string (option string)) (f : string) : Prop :=
  choices !! f = None ∨ choices !! f = Some (Some "???").

#[global] Instance unset_dec choices f : Decision (unset choices f).
Proof. unfold unset. apply _. Defined.

(** What a call may write to: the objects it was handed ([owned]) and
    the objects made since the store had [n] of them. *)
Definition writable (n : nat) (owned : list ref) (r : ref) : Prop :=
  r ∈ owned ∨ n ≤ r.

(** The store only grows, and of its first [n] objects only the owned ones
    may differ. *)
Definition frame (n : nat) (owned : list ref) (s s' : state) : Prop :=
  List.length (st_heap s) ≤ List.length (st_heap s') ∧
  ∀ r, r < n → r ∉ owned → deref (st_heap s') r = deref (st_heap s) r.

(** A computation that respects the frame and whose result satisfies [Q]. *)
Definition framed {A} (n : nat) (owned : list ref) (m : M A) (Q : A → Prop) : Prop :=
  ∀ s a s', n ≤ List.length (st_heap s) → m s = Ok (a, s') →
            frame n owned s s' ∧ Q a.

(** A function to recurse into that respects every frame it is used in. *)
Definition rec_framed (rec : nat → M (list nat)) : Prop :=
  ∀ n owned d, writable n owned d →
               framed n owned (rec d) (Forall (writable n owned)).

(** Marks are never taken back: an object flagged deleted or skip-load
    stays flagged, and a registered delete key stays registered. *)
Definition flags_kept (s s' : state) : Prop :=
  ∀ r, (is_deleted (deref (st_heap s) r) = true →
        is_deleted (deref (st_heap s') r) = true) ∧
       (skip_load (deref (st_heap s) r) = true →
        skip_load (deref (st_heap s') r) = true).

Definition keys_kept (s s' : state) : Prop :=
  ∀ k, k ∈ (delete_groups s).*1 → k ∈ (delete_groups s').*1.

Definition marks_kept (s s' : state) : Prop :=
  flags_kept s s' ∧ keys_kept s s'.

(** The choice of the group [f] as a seed entry finds it: an ordinary
    value [v] that the seed list recorded, or nothing, when the dictionary
    has no key [f] even at the end. *)
Definition settled_choice (nii : string → bool)
    (seeded final : gmap string (option string))
    (f : string) (c : option (option string)) : Prop :=
  match c with
  | Some v => seeded !! f = Some v ∧ ordinary nii v
  | None => final !! f = None
  end.

(** What a test and read of the dictionary comes to for a choice [c]. *)
Definition read_as (c : option (option string)) : reading :=
  match c with
  | Some v => Value v
  | None => Absent
  end.

(** The entry after the substitution of the choice. *)
Definition with_choice (c : option (option string)) (e : DefaultElement) : DefaultElement :=
  match c with
  | Some v => set_config_name v e
  | None => e
  end.

(** An override the conversion accepts: not an addition that is also a
    package rename, and with a string for a value, or with no value when it
    is a deletion. *)
Definition convertible (o : Override.t) : Prop :=
  Override.is_add o && Override.is_package_rename o = false ∧
  match Override.value o with
  | PyStr _ => True
  | PyNone => Override.is_delete o = true
  | PyOther => False
  end.

#[global] Instance convertible_dec o : Decision (convertible o).
Proof. unfold convertible. destruct (Override.value o); apply _. Defined.

(** What the conversion raises for an override it does not accept. *)
Definition conversion_error (o : Override.t) : exn :=
  ConfigCompositionException
    (if Override.is_add o && Override.is_package_rename o
     then add_rename_msg else delete_syntax_msg).

(** The name the converted entry gets. *)
Definition converted_name (o : Override.t) : string :=
  match Override.value o with
  | PyStr v => v
  | _ => "_delete_"
  end.

(** A delete directive of the store, and the key it stands for. *)
Definition delete_directive (h : heap) (k : DeleteKey) (d : ref) : Prop :=
  is_delete (deref h d) = true ∧ k = make_delete_key (deref h d).

(** What an entry was declared as: the fields that say which kind of entry
    it is and how it is to be loaded. *)
Definition declared (e : DefaultElement)
  : bool * option string * bool * bool * bool * bool :=
  (optional e, package2 e, from_override e, is_add_only e, is_delete e, primary e).

(** The store only grows and no object changes what it was declared as. *)
Definition declared_kept (s s' : state) : Prop :=
  List.length (st_heap s) ≤ List.length (st_heap s') ∧
  ∀ r, r < List.length (st_heap s) →
       declared (deref (st_heap s') r) = declared (deref (st_heap s) r).

(** An object of the store that is not a rename directive. *)
Definition settled (s : state) (r : ref) : Prop :=
  r < List.length (st_heap s) ∧ plain_package (st_heap s) r.

(** A run that, when it returns, satisfies [Q], and that never stops with a
    [ValueError]. *)
Definition sound {A} (Q : A → state → Prop) (m : M A) (s : state) : Prop :=
  match m s with
  | Ok (a, s') => Q a s'
  | Raise e => e ≠ ValueError
  | OutOfFuel => True
  end.

(** A function to recurse into that keeps what objects were declared as
    and, given an object that is no rename directive, is sound and returns
    such objects only. *)
Definition rec_sound (rec : ref → M (list ref)) : Prop :=
  (∀ d, preserves declared_kept (rec d)) ∧
  ∀ d s, settled s d → sound (λ ret s', Forall (settled s') ret) (rec d) s.

(** * Properties *)

(** ** Reasoning about the state monad *)

Lemma bind_Ok {A B} (m : M A) (k : A → M B) s b s' :
  (m ≫= k) s = Ok (b, s') → ∃ a s1, m s = Ok (a, s1) ∧ k a s1 = Ok (b, s').
Proof.
  unfold mbind, M_bind. destruct (m s) as [[a s1]| |]; [eauto|done|done].
Qed.

Lemma bind_run {A B} (m : M A) (k : A → M B) s a s1 :
  m s = Ok (a, s1) → (m ≫= k) s = k a s1.
Proof. unfold mbind, M_bind. by intros ->. Qed.

Lemma bind_Raise {A B} (m : M A) (k : A → M B) s e :
  m s = Raise e → (m ≫= k) s = Raise e.
Proof. unfold mbind, M_bind. by intros ->. Qed.

Lemma ret_Ok {A} (a b : A) s s' : (mret a : M A) s = Ok (b, s') → a = b ∧ s = s'.
Proof. unfold mret, M_ret. by intros [= -> ->]. Qed.

(** Splits a successful run of a sequence of binds into its steps. *)
Ltac inv_run H :=
  repeat match type of H with
  | (_ ≫= _) _ = Ok _ =>
      let a := fresh "a" in let s1 := fresh "s" in
      let H1 := fresh "Hstep" in
      apply bind_Ok in H as (a & s1 & H1 & H);
      repeat (lazymatch type of a with
              | prod _ _ => destruct a as [a ?]
              end);
      cbv beta iota in H
  | @mret M _ _ _ _ = Ok _ => apply ret_Ok in H as [? ?]; subst
  end.

(** ** The object store *)

Lemma deref_mutate_eq f r (h : heap) :
  r < List.length h → deref (mutate f r h) r = f (deref h r).
Proof.
  intros Hr. unfold deref, mutate.
  destruct (lookup_lt_is_Some_2 h r Hr) as [x Hx].
  rewrite (list_lookup_total_correct _ _ _ Hx).
  apply list_lookup_total_correct. by rewrite list_lookup_alter_eq, Hx.
Qed.

Lemma deref_mutate_ne f r r' (h : heap) :
  r ≠ r' → deref (mutate f r h) r' = deref h r'.
Proof.
  intros Hne. unfold deref, mutate.
  by rewrite !list_lookup_total_alt, list_lookup_alter_ne.
Qed.

Lemma length_mutate f r (h : heap) : List.length (mutate f r h) = List.length h.
Proof. apply length_alter. Qed.

(** A mutation that keeps a field keeps it for every object. *)
Lemma deref_mutate_field {B} (proj : DefaultElement → B) f r r' (h : heap) :
  (∀ e, proj (f e) = proj e) →
  proj (deref (mutate f r h) r') = proj (deref h r').
Proof.
  intros Hf. unfold deref, mutate.
  rewrite !list_lookup_total_alt, list_lookup_alter.
  case_decide; subst; [|done]. destruct (h !! r'); simpl; auto.
Qed.

(** ** Deduplication *)

(** Of the live entries of a group the pass keeps the first one and nothing
    else, unless the group was seen before. *)
Lemma filter_survivor_dedup_loop h f result seen :
  filter (survivor h f) (dedup_loop h result seen) =
  if decide (f ∈ seen) then [] else take 1 (filter (survivor h f) result).
Proof.
  revert seen. induction result as [|d rest IH]; intros seen; simpl.
  { by case_decide. }
  destruct (config_group (deref h d)) as [g|] eqn:Hg.
  - destruct (decide (fully_qualified_group_name (deref h d) ∈ seen)) as [Hin|Hnin].
    + rewrite IH. case_decide; [done|].
      rewrite filter_cons_False; [done|].
      intros (_ & <- & _). done.
    + rewrite !filter_cons, IH.
      destruct (decide (survivor h f d)) as [(_ & Hf & Hdel)|Hns].
      * rewrite Hdel. subst f.
        repeat destruct (decide _); try done; set_solver.
      * destruct (is_deleted (deref h d)) eqn:Hdel; [done|].
        assert (fully_qualified_group_name (deref h d) ≠ f) as Hne.
        { intros Hf. apply Hns. split_and!; [by rewrite Hg|done|done]. }
        repeat destruct (decide _); try done; set_solver.
  - rewrite filter_cons_False by (intros (Hc & _); by rewrite Hg in Hc).
    rewrite filter_cons_False by (intros (Hc & _); by rewrite Hg in Hc).
    apply IH.
Qed.

Lemma filter_survivor_dedup h f result :
  filter (survivor h f) (dedup h result) = take 1 (filter (survivor h f) result).
Proof. unfold dedup. rewrite filter_survivor_dedup_loop. by rewrite decide_False by set_solver. Qed.

Lemma dedup_at_most_one h f result :
  (List.length (filter (survivor h f) (dedup h result)) ≤ 1)%nat.
Proof. rewrite filter_survivor_dedup, length_take. lia. Qed.

Lemma filter_ungrouped_dedup_loop h result seen :
  filter (ungrouped h) (dedup_loop h result seen) = filter (ungrouped h) result.
Proof.
  revert seen. induction result as [|d rest IH]; intros seen; simpl; [done|].
  destruct (config_group (deref h d)) as [g|] eqn:Hg.
  - rewrite (filter_cons_False _ d rest) by (unfold ungrouped; by rewrite Hg).
    case_decide; [apply IH|].
    rewrite filter_cons_False by (unfold ungrouped; by rewrite Hg). apply IH.
  - rewrite !filter_cons_True by done. by rewrite IH.
Qed.

Lemma dedup_loop_snoc h front d seen :
  dedup_loop h (front ++ [d]) seen =
  dedup_loop h front seen ++ (if decide (kept h seen front d) then [d] else []).
Proof.
  revert seen. induction front as [|x front IH]; intros seen; simpl.
  - destruct (config_group (deref h d)) as [g|] eqn:Hg.
    + destruct (decide (_ ∈ seen)).
      * rewrite decide_False; [done|].
        intros [Hu|[? _]]; [|done]. unfold ungrouped in Hu. congruence.
      * rewrite decide_True; [done|]. right. split; [done|constructor].
    + rewrite decide_True; [done|]. by left.
  - assert (∀ seen', (kept h seen' front d ↔ kept h seen (x :: front) d) →
              (if decide (kept h seen' front d) then [d] else []) =
              (if decide (kept h seen (x :: front) d) then [d] else [])) as Hif.
    { intros seen' Hiff.
      destruct (decide (kept h seen' front d)), (decide (kept h seen (x :: front) d)); tauto. }
    destruct (config_group (deref h x)) as [g|] eqn:Hg.
    + destruct (decide (fully_qualified_group_name (deref h x) ∈ seen)) as [Hin|Hnin].
      * rewrite IH. f_equal. apply Hif. unfold kept.
        rewrite Forall_cons.
        split; [|tauto].
        intros [?|[? ?]]; [by left|right]. split_and!; [done| |done].
        intros (_ & Heq & _). congruence.
      * rewrite IH. simpl. f_equal. f_equal. apply Hif. unfold kept.
        rewrite Forall_cons.
        destruct (is_deleted (deref h x)) eqn:Hdel.
        -- split; [|tauto]. intros [?|[? ?]]; [by left|right].
           split_and!; [done| |done]. intros (_ & _ & ?). congruence.
        -- split.
           ++ intros [?|[Hs ?]]; [by left|right].
              split_and!; [set_solver| |done]. intros (_ & Heq & _). set_solver.
           ++ intros [?|(Hs & Hx & ?)]; [by left|right].
              split; [|done]. apply not_elem_of_union. split; [|done].
              rewrite not_elem_of_singleton. intros Heq. apply Hx.
              split_and!; [congruence|done|done].
    + rewrite IH. simpl. f_equal. f_equal. apply Hif. unfold kept.
      rewrite Forall_cons.
      split; [|tauto]. intros [?|[? ?]]; [by left|right].
      split_and!; [done| |done]. intros (? & _). done.
Qed.

Lemma dedup_snoc h front d :
  dedup h (front ++ [d]) =
  dedup h front ++ (if decide (kept h ∅ front d) then [d] else []).
Proof. apply dedup_loop_snoc. Qed.

(** Filtering once more keeps a list that short. *)
Lemma length_filter_filter {A} (P Q : A → Prop)
    `{∀ x, Decision (P x)} `{∀ x, Decision (Q x)} (l : list A) :
  (List.length (filter P (filter Q l)) ≤ List.length (filter P l))%nat.
Proof.
  induction l as [|x l IH]; [done|].
  rewrite (filter_cons Q). destruct (decide (Q x)).
  - rewrite !(filter_cons P). destruct (decide (P x)); simpl; lia.
  - rewrite (filter_cons P). destruct (decide (P x)); simpl; lia.
Qed.

(** ** The shape of what the expansion returns *)

Section Shape.

Variable node_is_interpolation : string → bool.
Variable resolve_node :
  gmap string (option string) → list (option string * option string) →
  string → string → option (option string).
Variable resolve_choice : gmap string (option string) → string → string → reading.
Variable repo : ConfigRepository.

Lemma expand_with_dedup rec self_name original effective s ret s' :
  expand_with node_is_interpolation resolve_node resolve_choice rec self_name original
    effective s = Ok (ret, s') →
  ∃ result, ret = dedup (st_heap s') result.
Proof.
  unfold expand_with. intros H. inv_run H.
  unfold get_heap in *. simplify_eq. eauto.
Qed.

Lemma compute_impl_shape fuel element s ret s' :
  _compute_element_defaults_list_impl node_is_interpolation resolve_node resolve_choice repo
    fuel element s = Ok (ret, s') →
  List.length ret ≤ 1 ∨ ∃ result, ret = dedup (st_heap s') result.
Proof.
  destruct fuel as [|fuel]; [done|]. simpl. intros H.
  apply bind_Ok in H as (deleted & s1 & _ & H). destruct deleted.
  { apply ret_Ok in H as [<- _]. left. simpl. lia. }
  apply bind_Ok in H as (e & s2 & _ & H).
  destruct (config_path e) as [path|]; [|done].
  destruct (load_config repo path (primary e)) as [loaded|].
  - inv_run H. right. by eapply expand_with_dedup.
  - destruct (optional e); [|done]. inv_run H. left. simpl. lia.
Qed.

Lemma finish_Ok r ret s :
  finish r = Ok (ret, s) →
  ∃ ret0, r = Ok (ret0, s) ∧
          verify_deletions (delete_groups s) = Ok tt ∧
          ret = filter (λ x, is_delete (deref (st_heap s) x) = false) ret0.
Proof.
  unfold finish, _post_process_deletes.
  destruct r as [[ret0 s0]| |]; [|done|done].
  destruct (verify_deletions (delete_groups s0)) as [[]| |] eqn:Hv; [|done|done].
  intros [= <- <-]. eauto.
Qed.

Lemma finish_at_most_one r ret s f :
  finish r = Ok (ret, s) →
  (∀ ret0, r = Ok (ret0, s) →
     List.length ret0 ≤ 1 ∨ ∃ result, ret0 = dedup (st_heap s) result) →
  List.length (filter (survivor (st_heap s) f) ret) ≤ 1.
Proof.
  intros (ret0 & -> & _ & ->)%finish_Ok Hshape.
  etrans; [apply length_filter_filter|].
  destruct (Hshape _ eq_refl) as [Hlen|[result ->]].
  - etrans; [apply length_filter|done].
  - apply dedup_at_most_one.
Qed.

(** C1. Whenever [compute_element_defaults_list] or [expand_defaults_list]
    (through [_expand_defaults_list], for any self name) returns normally,
    the returned list holds at most one non-deleted entry per
    fully-qualified group name.  In the deduplication pass an entry is
    kept exactly when it has no group or no non-deleted entry of its group
    stands in front of it: a deleted placeholder never blocks a later
    entry, and ungrouped entries always pass through. *)
Theorem dedup_invariant :
  (∀ fuel element h ret s f,
     compute_element_defaults_list node_is_interpolation resolve_node resolve_choice repo
       fuel element h = Ok (ret, s) →
     List.length (filter (survivor (st_heap s) f) ret) ≤ 1) ∧
  (∀ fuel self_name defaults h ret s f,
     _expand_defaults_list node_is_interpolation resolve_node resolve_choice repo
       fuel self_name defaults h = Ok (ret, s) →
     List.length (filter (survivor (st_heap s) f) ret) ≤ 1) ∧
  (∀ fuel defaults h ret s f,
     expand_defaults_list node_is_interpolation resolve_node resolve_choice repo
       fuel defaults h = Ok (ret, s) →
     List.length (filter (survivor (st_heap s) f) ret) ≤ 1) ∧
  (∀ h front d,
     dedup h (front ++ [d]) =
     dedup h front ++ (if decide (kept h ∅ front d) then [d] else [])) ∧
  (∀ h result f,
     filter (survivor h f) (dedup h result) =
     take 1 (filter (survivor h f) result)) ∧
  (∀ h result,
     filter (ungrouped h) (dedup h result) = filter (ungrouped h) result).
Proof.
  assert (∀ fuel self_name defaults h ret s f,
     _expand_defaults_list node_is_interpolation resolve_node resolve_choice repo
       fuel self_name defaults h = Ok (ret, s) →
     List.length (filter (survivor (st_heap s) f) ret) ≤ 1) as Hexpand.
  { intros fuel self_name defaults h ret s f. unfold _expand_defaults_list.
    destruct (seed_tables node_is_interpolation resolve_choice h (reverse defaults) ∅ []) as [choices dg].
    intros H. eapply finish_at_most_one; [exact H|].
    intros ret0 Hr. right. by eapply expand_with_dedup. }
  split_and!.
  - intros fuel element h ret s f H. eapply finish_at_most_one; [exact H|].
    intros ret0 Hr. by eapply compute_impl_shape.
  - exact Hexpand.
  - intros fuel defaults. apply Hexpand.
  - apply dedup_snoc.
  - intros h result f. apply filter_survivor_dedup.
  - intros h result. apply filter_ungrouped_dedup_loop.
Qed.

End Shape.

Lemma dedup_invariant_witness :
  ∃ ret s,
    compute_element_defaults_list no_interpolation no_resolution no_choice_resolution demo_repo
      5 0 [in_group "a" "a2"] = Ok (ret, s) ∧
    List.length (filter (survivor (st_heap s) "b") ret) ≤ 1.
Proof.
  eexists _, _. split.
  - vm_compute. reflexivity.
  - eapply (proj1 (dedup_invariant no_interpolation no_resolution no_choice_resolution demo_repo)
              5 0 [in_group "a" "a2"]).
    vm_compute. reflexivity.
Defined.

(** ** Deletion bookkeeping *)




(** [delete_if_matching] keeps the keys, counts one more for every key that
    selects the element, and reports whether any did. *)
Lemma delete_if_matching_spec dg d h matched dg' h' :
  delete_if_matching dg d h = (matched, dg', h') →
  dg' = map (λ kc, (kc.1, if delete_key_hits kc.1 (deref h d) then S kc.2 else kc.2)) dg ∧
  matched = bool_decide (Exists (λ kc, delete_key_hits kc.1 (deref h d) = true) dg).
Proof.
  revert h matched dg' h'. induction dg as [|[k c] dg IH]; intros h matched dg' h'; simpl.
  { by intros [= <- <- <-]. }
  destruct (delete_if_matching dg d _) as [[m rest'] h2] eqn:Hrec.
  intros [= <- <- <-].
  apply IH in Hrec as [-> ->].
  assert (∀ k', delete_key_hits k'
            (deref (if delete_key_hits k (deref h d) then mutate mark_deleted d h else h) d)
          = delete_key_hits k' (deref h d)) as Hsame.
  { intros k'. destruct (delete_key_hits k (deref h d)); [|done].
    unfold delete_key_hits, fully_qualified_group_name.
    rewrite !(deref_mutate_field config_name), !(deref_mutate_field config_group),
      !(deref_mutate_field package) by done. done. }
  split.
  - f_equal. apply map_ext. intros [k' c']. simpl. by rewrite Hsame.
  - destruct (delete_key_hits k (deref h d)) eqn:Hhit; simpl.
    + symmetry. apply bool_decide_eq_true. by left.
    + apply bool_decide_ext. rewrite Exists_cons. simpl.
      rewrite Hhit. naive_solver.
Qed.




(** ** Missing fragments *)

Lemma delete_if_matching_no_hit dg d h :
  Forall (λ kc, delete_key_hits kc.1 (deref h d) = false) dg →
  delete_if_matching dg d h = (false, dg, h).
Proof.
  induction 1 as [|[k c] dg Hk _ IH]; simpl; [done|].
  simpl in Hk. by rewrite Hk, IH.
Qed.

Lemma delete_matching_no_hit d s :
  Forall (λ kc, delete_key_hits kc.1 (deref (st_heap s) d) = false) (delete_groups s) →
  delete_matching d s = Ok (false, s).
Proof.
  intros H. unfold delete_matching. rewrite delete_if_matching_no_hit by done.
  by destruct s.
Qed.

Section Missing.

Variable node_is_interpolation : string → bool.
Variable resolve_node :
  gmap string (option string) → list (option string * option string) →
  string → string → option (option string).
Variable resolve_choice : gmap string (option string) → string → string → reading.
Variable repo : ConfigRepository.

Lemma compute_impl_not_found fuel element s path :
  config_path (deref (st_heap s) element) = Some path →
  load_config repo path (primary (deref (st_heap s) element)) = None →
  delete_matching element s = Ok (false, s) →
  _compute_element_defaults_list_impl node_is_interpolation resolve_node resolve_choice repo
    (S fuel) element s =
  if optional (deref (st_heap s) element)
  then Ok ([element],
           with_heap (mutate (set_skip_load "missing_optional_config")
                        element (st_heap s)) s)
  else missing_config_error repo (Some path) (cannot_find_msg path) true.
Proof.
  intros Hpath Hload Hdm. simpl.
  rewrite (bind_run _ _ _ _ _ Hdm).
  rewrite (bind_run (get_obj element) _ s _ s eq_refl).
  rewrite Hpath, Hload. by destruct (optional _).
Qed.

(** C7. An entry whose fragment the repository does not find: when it is
    optional the expansion returns normally, and (no delete key having
    taken the entry before the load) returns the entry alone, marked
    skip-load with the reason "missing_optional_config", the tables being
    left as they were; when it is not optional, a missing-configuration
    error is raised that carries the searched path and, after the words
    "Search path:", the sources of the repository other than the schema
    ones. *)
Theorem missing_fragment_spec fuel element s path :
  let e := deref (st_heap s) element in
  config_path e = Some path →
  load_config repo path (primary e) = None →
  (optional e = true →
   ∃ ret s', _compute_element_defaults_list_impl node_is_interpolation
               resolve_node resolve_choice repo (S fuel) element s = Ok (ret, s')) ∧
  (Forall (λ kc, delete_key_hits kc.1 e = false) (delete_groups s) →
   (optional e = true →
    ∃ s', _compute_element_defaults_list_impl node_is_interpolation
            resolve_node resolve_choice repo (S fuel) element s = Ok ([element], s') ∧
          st_heap s' = mutate (set_skip_load "missing_optional_config")
                         element (st_heap s) ∧
          group_to_choice s' = group_to_choice s ∧
          delete_groups s' = delete_groups s ∧
          (element < List.length (st_heap s) →
           deref (st_heap s') element = set_skip_load "missing_optional_config" e ∧
           skip_load (deref (st_heap s') element) = true ∧
           skip_load_reason (deref (st_heap s') element) = "missing_optional_config")) ∧
   (optional e = false →
    _compute_element_defaults_list_impl node_is_interpolation
      resolve_node resolve_choice repo (S fuel) element s =
    Raise (MissingConfigException (Some path)
             (cannot_find_msg path +:+ (nl +:+ "Search path:") +:+
              (nl +:+ join nl (map (λ src, tab +:+ source_repr src)
                                 (filter (λ src, provider src ≠ "schema")
                                    (get_sources repo)))))))).
Proof.
  intros e Hpath Hload. split.
  - intros Hopt.
    destruct (delete_if_matching (delete_groups s) element (st_heap s))
      as [[matched dg'] h'] eqn:Hdel.
    destruct matched.
    + simpl. unfold mbind, M_bind, delete_matching. rewrite Hdel. by eexists _, _.
    + assert (Forall (λ kc, delete_key_hits kc.1 (deref (st_heap s) element) = false)
                (delete_groups s)) as Hno.
      { apply delete_if_matching_spec in Hdel as [_ Hm].
        symmetry in Hm. apply bool_decide_eq_false in Hm.
        apply Forall_forall. intros kc Hin.
        destruct (delete_key_hits kc.1 _) eqn:Hhit; [|done].
        exfalso. apply Hm, Exists_exists. eauto. }
      rewrite (compute_impl_not_found _ _ _ path) by auto using delete_matching_no_hit.
      fold e. rewrite Hopt. by eexists _, _.
  - intros Hno.
    rewrite (compute_impl_not_found _ _ _ path) by auto using delete_matching_no_hit.
    fold e. split; intros Hopt; rewrite Hopt.
    + eexists. split; [reflexivity|]. simpl. split_and!; try done.
      intros Hvalid. rewrite deref_mutate_eq by done. done.
    + done.
Qed.

End Missing.

Lemma missing_fragment_spec_witness :
  ∃ s', _compute_element_defaults_list_impl no_interpolation no_resolution no_choice_resolution
          demo_repo 1 0 (empty_state [set_optional true (in_group "db" "mysql")])
        = Ok ([0], s') ∧
        skip_load (deref (st_heap s') 0) = true.
Proof.
  destruct (missing_fragment_spec no_interpolation no_resolution no_choice_resolution demo_repo 0 0
              (empty_state [set_optional true (in_group "db" "mysql")])
              "db/mysql" eq_refl eq_refl) as [_ H].
  destruct (H (Forall_nil_2 _)) as [Hopt _].
  destruct (Hopt eq_refl) as (s' & Hrun & _ & _ & _ & Hflag).
  exists s'. split; [exact Hrun|].
  apply Hflag. simpl. lia.
Defined.

(** ** Validation of [_self_] *)

(** What the loop writes into the first [_self_] entry. *)
Lemma validate_self_loop_names element effective has_self h has_self' h' :
  validate_self_loop element effective has_self h = Ok (has_self', h') →
  List.length h' = List.length h ∧
  ∀ r, config_name (deref h' r) = config_name (deref h r).
Proof.
  revert has_self h. induction effective as [|d rest IH]; intros has_self h; simpl.
  { by intros [= <- <-]. }
  case_bool_decide as Hself.
  - destruct has_self.
    { by destruct (config_path _). }
    destruct (config_group (deref h d)); [done|].
    intros [Hlen Hnames]%IH. split.
    + by rewrite Hlen, !length_mutate.
    + intros r. rewrite Hnames. by rewrite !(deref_mutate_field config_name).
  - apply IH.
Qed.

Lemma validate_self_loop_no_self element effective has_self h :
  Forall (λ r, ¬ is_self h r) effective →
  validate_self_loop element effective has_self h = Ok (has_self, h).
Proof.
  induction 1 as [|d rest Hd _ IH]; simpl; [done|].
  by rewrite bool_decide_eq_false_2.
Qed.

Lemma validate_self_loop_duplicate element effective h path :
  Exists (is_self h) effective →
  config_path (deref h element) = Some path →
  validate_self_loop element effective true h =
  Raise (ConfigCompositionException (duplicate_self_msg path)).
Proof.
  intros Hex Hpath. induction Hex as [d rest Hd|d rest _ IH]; simpl.
  - rewrite bool_decide_eq_true_2 by done. by rewrite Hpath.
  - case_bool_decide; [by rewrite Hpath|done].
Qed.

Lemma adopt_element element d h :
  deref (adopt element d h) element = deref h element.
Proof.
  unfold adopt. destruct (decide (d = element)) as [->|Hne].
  - destruct (decide (element < List.length h)) as [Hv|Hv].
    + rewrite !deref_mutate_eq by (by rewrite ?length_mutate).
      by destruct (deref h element).
    + unfold deref, mutate. rewrite !list_lookup_total_alt, !list_lookup_alter_eq.
      by rewrite (lookup_ge_None_2 h element) by lia.
  - by rewrite !deref_mutate_ne.
Qed.

Lemma adopt_names element d h r :
  config_name (deref (adopt element d h) r) = config_name (deref h r).
Proof. unfold adopt. by rewrite !(deref_mutate_field config_name). Qed.

Lemma adopt_entry element d h :
  d < List.length h →
  deref (adopt element d h) d =
  set_package (package (deref h element))
    (set_config_group (config_group (deref h element)) (deref h d)).
Proof.
  intros Hd. unfold adopt. by rewrite !deref_mutate_eq by (by rewrite ?length_mutate).
Qed.

(** The loop up to and including the first [_self_] entry. *)
Lemma validate_self_loop_first element front d back h :
  Forall (λ r, ¬ is_self h r) front →
  is_self h d →
  validate_self_loop element (front ++ d :: back) false h =
  match config_group (deref h d) with
  | Some _ => Raise AssertionError
  | None => validate_self_loop element back true (adopt element d h)
  end.
Proof.
  intros Hfront Hd. induction Hfront as [|x front Hx _ IH]; simpl.
  - rewrite bool_decide_eq_true_2 by done.
    destruct (config_group (deref h d)) eqn:Hg; [done|].
    unfold adopt. do 3 f_equal.
    by rewrite (deref_mutate_field package).
  - by rewrite bool_decide_eq_false_2.
Qed.

Lemma filter_none {A} (P : A → Prop) `{∀ x, Decision (P x)} (l : list A) :
  Forall (λ x, ¬ P x) l → filter P l = [].
Proof.
  induction 1 as [|x l Hx _ IH]; [done|]. by rewrite filter_cons_False.
Qed.

Lemma filter_is_self_ext h h' (l : list nat) :
  (∀ r, config_name (deref h' r) = config_name (deref h r)) →
  filter (is_self h') l = filter (is_self h) l.
Proof.
  intros Hnames. apply list_filter_iff. intros r. unfold is_self. by rewrite Hnames.
Qed.

(** How many [_self_] entries a list has when the loop lets it pass. *)
Lemma validate_self_loop_count element effective has_self h has_self' h' :
  validate_self_loop element effective has_self h = Ok (has_self', h') →
  List.length (filter (is_self h) effective) + (if has_self then 1 else 0) =
  (if has_self' then 1 else 0).
Proof.
  revert has_self h. induction effective as [|d rest IH]; intros has_self h; simpl.
  { by intros [= <- <-]. }
  case_bool_decide as Hself.
  - rewrite filter_cons_True by done.
    destruct has_self.
    { by destruct (config_path _). }
    destruct (config_group (deref h d)) eqn:Hg; [done|].
    intros Hrun. apply IH in Hrun.
    rewrite (filter_is_self_ext h) in Hrun.
    + simpl in *. lia.
    + intros r. by rewrite !(deref_mutate_field config_name).
  - rewrite filter_cons_False by done. apply IH.
Qed.

Lemma validate_self_loop_false element effective h h' :
  validate_self_loop element effective false h = Ok (false, h') → h' = h.
Proof.
  intros Hrun.
  assert (Forall (λ r, ¬ is_self h r) effective) as Hno.
  { apply validate_self_loop_count in Hrun. simpl in Hrun.
    apply Forall_forall. intros r Hin Hr.
    assert (r ∈ filter (is_self h) effective) as Hf by (by apply list_elem_of_filter).
    destruct (filter (is_self h) effective); [by apply not_elem_of_nil in Hf|].
    simpl in Hrun. lia. }
  rewrite validate_self_loop_no_self in Hrun by done. by injection Hrun.
Qed.

Lemma deref_app_l (h es : list DefaultElement) r :
  r < List.length h → deref (h ++ es) r = deref h r.
Proof.
  intros Hr. unfold deref. by rewrite !list_lookup_total_alt, lookup_app_l.
Qed.

Lemma deref_app_r (h es : list DefaultElement) i :
  deref (h ++ es) (List.length h + i) = es !!! i.
Proof.
  unfold deref. rewrite !list_lookup_total_alt, lookup_app_r by lia.
  do 2 f_equal. lia.
Qed.

Lemma validate_self_no_self element effective h :
  Forall (λ r, ¬ is_self h r) effective →
  _validate_self element effective h =
  Ok (List.length h :: effective, h ++ [implicit_self (deref h element)]).
Proof.
  intros Hno. unfold _validate_self. rewrite validate_self_loop_no_self by done.
  simpl. do 2 f_equal. unfold mutate.
  assert (∀ f e, alter f (List.length h) (h ++ [e]) = h ++ [f e]) as Halter.
  { intros f e. rewrite <-(Nat.add_0_r (List.length h)). by rewrite alter_app_r. }
  by rewrite !Halter.
Qed.

Lemma validate_self_duplicate element front d back h path :
  Forall (λ r, ¬ is_self h r) front →
  is_self h d →
  config_group (deref h d) = None →
  Exists (is_self h) back →
  config_path (deref h element) = Some path →
  _validate_self element (front ++ d :: back) h =
  Raise (ConfigCompositionException (duplicate_self_msg path)).
Proof.
  intros Hfront Hd Hg Hback Hpath. unfold _validate_self.
  rewrite validate_self_loop_first, Hg by done.
  rewrite (validate_self_loop_duplicate _ _ _ path); [done| |].
  - eapply Exists_impl; [exact Hback|]. intros r Hr.
    unfold is_self. by rewrite adopt_names.
  - by rewrite adopt_element.
Qed.

Lemma validate_self_exactly_one element effective h effective' h' :
  Forall (λ r, r < List.length h) effective →
  _validate_self element effective h = Ok (effective', h') →
  List.length (filter (is_self h') effective') = 1.
Proof.
  intros Hvalid Hrun.
  destruct (validate_self_loop element effective false h)
    as [[[] h1]| |] eqn:Hloop.
  - unfold _validate_self in Hrun. rewrite Hloop in Hrun. injection Hrun as <- <-.
    pose proof (validate_self_loop_count _ _ _ _ _ _ Hloop) as Hcount.
    apply validate_self_loop_names in Hloop as [_ Hnames].
    rewrite (filter_is_self_ext h) by done. simpl in Hcount. lia.
  - apply validate_self_loop_false in Hloop as Heq. subst h1.
    apply validate_self_loop_count in Hloop. simpl in Hloop.
    assert (Forall (λ r, ¬ is_self h r) effective) as Hno.
    { apply Forall_forall. intros r Hin Hr.
      assert (r ∈ filter (is_self h) effective) as Hf by (by apply list_elem_of_filter).
      destruct (filter (is_self h) effective); [by apply not_elem_of_nil in Hf|].
      simpl in Hloop. lia. }
    rewrite validate_self_no_self in Hrun by done.
    injection Hrun as <- <-.
    rewrite filter_cons_True.
    + simpl. f_equal. apply length_zero_iff_nil.
      apply filter_none. apply Forall_forall. intros r Hin.
      rewrite Forall_forall in Hvalid, Hno.
      unfold is_self. rewrite deref_app_l by auto. by apply Hno.
    + unfold is_self. rewrite <-(Nat.add_0_r (List.length h)), deref_app_r. done.
  - unfold _validate_self in Hrun. by rewrite Hloop in Hrun.
  - unfold _validate_self in Hrun. by rewrite Hloop in Hrun.
Qed.

(** Objects read back through the references a load has just made. *)
Lemma Forall_fresh (P : DefaultElement → Prop) (h0 es : list DefaultElement) start :
  (∀ i, i < List.length es → deref h0 (start + i) = es !!! i) →
  Forall P es → Forall (λ r, P (deref h0 r)) (seq start (List.length es)).
Proof.
  intros Hread Hes. apply Forall_seq. intros r Hr.
  replace r with (start + (r - start)) by lia.
  rewrite Hread by lia.
  rewrite Forall_lookup in Hes.
  destruct (lookup_lt_is_Some_2 es (r - start)) as [x Hx]; [lia|].
  rewrite (list_lookup_total_correct _ _ _ Hx). eauto.
Qed.

Lemma Exists_fresh (P : DefaultElement → Prop) (h0 es : list DefaultElement) start :
  (∀ i, i < List.length es → deref h0 (start + i) = es !!! i) →
  Exists P es → Exists (λ r, P (deref h0 r)) (seq start (List.length es)).
Proof.
  intros Hread (x & Hin & Hx)%Exists_exists.
  apply list_elem_of_lookup in Hin as [i Hi].
  apply Exists_exists. exists (start + i). split.
  - apply elem_of_seq. apply lookup_lt_Some in Hi. lia.
  - rewrite Hread by (by eapply lookup_lt_Some).
    by rewrite (list_lookup_total_correct _ _ _ Hi).
Qed.

Lemma deref_fresh_part (h front es back : list DefaultElement) i :
  i < List.length es →
  deref (h ++ front ++ es ++ back) (List.length h + List.length front + i) = es !!! i.
Proof.
  intros Hi. rewrite <-Nat.add_assoc, deref_app_r.
  rewrite !list_lookup_total_alt, lookup_app_r by lia.
  rewrite lookup_app_l by lia. do 2 f_equal. lia.
Qed.

Section Loaded.

Variable node_is_interpolation : string → bool.
Variable resolve_node :
  gmap string (option string) → list (option string * option string) →
  string → string → option (option string).
Variable resolve_choice : gmap string (option string) → string → string → reading.
Variable repo : ConfigRepository.

(** The path taken when the fragment is found. *)
Lemma compute_impl_found fuel element s path loaded :
  config_path (deref (st_heap s) element) = Some path →
  load_config repo path (primary (deref (st_heap s) element)) = Some loaded →
  delete_matching element s = Ok (false, s) →
  _compute_element_defaults_list_impl node_is_interpolation resolve_node resolve_choice repo
    (S fuel) element s =
  (effective ← on_heap (_validate_self element
                          (seq (List.length (st_heap s)) (List.length loaded)));
   e ← get_obj element;
   expand_with node_is_interpolation resolve_node resolve_choice
     (_compute_element_defaults_list_impl node_is_interpolation resolve_node resolve_choice
        repo fuel)
     (config_name e) loaded effective)
    (with_heap (st_heap s ++ loaded) s).
Proof.
  intros Hpath Hload Hdm. simpl.
  rewrite (bind_run _ _ _ _ _ Hdm).
  rewrite (bind_run (get_obj element) _ s _ s eq_refl).
  rewrite Hpath, Hload. done.
Qed.

Lemma compute_impl_validation_fails fuel element s path loaded err :
  config_path (deref (st_heap s) element) = Some path →
  load_config repo path (primary (deref (st_heap s) element)) = Some loaded →
  Forall (λ kc, delete_key_hits kc.1 (deref (st_heap s) element) = false)
    (delete_groups s) →
  _validate_self element (seq (List.length (st_heap s)) (List.length loaded))
    (st_heap s ++ loaded) = Raise err →
  _compute_element_defaults_list_impl node_is_interpolation resolve_node resolve_choice repo
    (S fuel) element s = Raise err.
Proof.
  intros Hpath Hload Hno Hval.
  rewrite (compute_impl_found _ _ _ path loaded) by auto using delete_matching_no_hit.
  apply bind_Raise. unfold on_heap. simpl. by rewrite Hval.
Qed.

(** The references of a loaded list, split at one of its entries. *)
Lemma fresh_refs_split (h front back : list DefaultElement) d :
  seq (List.length h) (List.length (front ++ d :: back)) =
  seq (List.length h) (List.length front) ++
  (List.length h + List.length front) ::
  seq (List.length h + List.length front + 1) (List.length back).
Proof.
  rewrite length_app. simpl. rewrite seq_app. simpl. do 3 f_equal. lia.
Qed.

Lemma compute_impl_duplicate_self fuel element s path front d back :
  element < List.length (st_heap s) →
  config_path (deref (st_heap s) element) = Some path →
  load_config repo path (primary (deref (st_heap s) element)) =
    Some (front ++ d :: back) →
  Forall (λ kc, delete_key_hits kc.1 (deref (st_heap s) element) = false)
    (delete_groups s) →
  Forall (λ x, config_name x ≠ Some "_self_") front →
  config_name d = Some "_self_" →
  config_group d = None →
  Exists (λ x, config_name x = Some "_self_") back →
  _compute_element_defaults_list_impl node_is_interpolation resolve_node resolve_choice repo
    (S fuel) element s =
  Raise (ConfigCompositionException ("Duplicate _self_ defined in " +:+ path)).
Proof.
  intros Hvalid Hpath Hload Hno Hfront Hd Hg Hback.
  eapply compute_impl_validation_fails; [done..|].
  rewrite fresh_refs_split.
  assert (deref (st_heap s ++ front ++ d :: back)
            (List.length (st_heap s) + List.length front) = d) as Hrd.
  { rewrite <-(Nat.add_0_r (_ + _)).
    by rewrite (deref_fresh_part _ front [d] back) by (simpl; lia). }
  apply validate_self_duplicate.
  - apply (Forall_fresh (λ e, config_name e ≠ Some "_self_")); [|done].
    intros i Hi. rewrite deref_app_r.
    by rewrite !list_lookup_total_alt, lookup_app_l.
  - unfold is_self. by rewrite Hrd.
  - by rewrite Hrd.
  - apply (Exists_fresh (λ e, config_name e = Some "_self_")); [|done].
    intros i Hi.
    rewrite <-(deref_fresh_part (st_heap s) (front ++ [d]) back []) by done.
    rewrite app_nil_r, <-(assoc_L (++) front). simpl.
    f_equal. rewrite length_app. simpl. lia.
  - by rewrite deref_app_l.
Qed.

Lemma compute_impl_grouped_self fuel element s path front d back g :
  config_path (deref (st_heap s) element) = Some path →
  load_config repo path (primary (deref (st_heap s) element)) =
    Some (front ++ d :: back) →
  Forall (λ kc, delete_key_hits kc.1 (deref (st_heap s) element) = false)
    (delete_groups s) →
  Forall (λ x, config_name x ≠ Some "_self_") front →
  config_name d = Some "_self_" →
  config_group d = Some g →
  _compute_element_defaults_list_impl node_is_interpolation resolve_node resolve_choice repo
    (S fuel) element s = Raise AssertionError.
Proof.
  intros Hpath Hload Hno Hfront Hd Hg.
  eapply compute_impl_validation_fails; [done..|].
  rewrite fresh_refs_split.
  assert (deref (st_heap s ++ front ++ d :: back)
            (List.length (st_heap s) + List.length front) = d) as Hrd.
  { rewrite <-(Nat.add_0_r (_ + _)).
    by rewrite (deref_fresh_part _ front [d] back) by (simpl; lia). }
  unfold _validate_self. rewrite validate_self_loop_first.
  - by rewrite Hrd, Hg.
  - apply (Forall_fresh (λ e, config_name e ≠ Some "_self_")); [|done].
    intros i Hi. rewrite deref_app_r.
    by rewrite !list_lookup_total_alt, lookup_app_l.
  - unfold is_self. by rewrite Hrd.
Qed.

End Loaded.

(** A fragment whose loaded defaults hold two or more [_self_] entries,
    the first of them declared without a group, is rejected with the
    composition conflict "Duplicate _self_ defined in <config path>"; a list
    without any [_self_] entry gets a new one in front, copied from the
    enclosing element with the name [_self_] and [from_override] off; and
    whenever validation returns, exactly one entry of the resulting list is
    a [_self_] entry.  The conflict surfaces from the expansion of the
    element that loads the fragment. *)
Theorem validate_self_spec :
  (∀ element front d back h path,
     Forall (λ r, ¬ is_self h r) front →
     is_self h d →
     config_group (deref h d) = None →
     Exists (is_self h) back →
     config_path (deref h element) = Some path →
     _validate_self element (front ++ d :: back) h =
     Raise (ConfigCompositionException ("Duplicate _self_ defined in " +:+ path))) ∧
  (∀ element effective h,
     Forall (λ r, ¬ is_self h r) effective →
     _validate_self element effective h =
     Ok (List.length h :: effective, h ++ [implicit_self (deref h element)])) ∧
  (∀ element effective h effective' h',
     Forall (λ r, r < List.length h) effective →
     _validate_self element effective h = Ok (effective', h') →
     List.length (filter (is_self h') effective') = 1) ∧
  (∀ nii rn rc repo fuel element s path front d back,
     element < List.length (st_heap s) →
     config_path (deref (st_heap s) element) = Some path →
     load_config repo path (primary (deref (st_heap s) element)) =
       Some (front ++ d :: back) →
     Forall (λ kc, delete_key_hits kc.1 (deref (st_heap s) element) = false)
       (delete_groups s) →
     Forall (λ x, config_name x ≠ Some "_self_") front →
     config_name d = Some "_self_" →
     config_group d = None →
     Exists (λ x, config_name x = Some "_self_") back →
     _compute_element_defaults_list_impl nii rn rc repo (S fuel) element s =
     Raise (ConfigCompositionException ("Duplicate _self_ defined in " +:+ path))).
Proof.
  split_and!.
  - apply validate_self_duplicate.
  - apply validate_self_no_self.
  - apply validate_self_exactly_one.
  - apply compute_impl_duplicate_self.
Qed.

Lemma validate_self_spec_witness :
  _validate_self 0 [1; 2]
    [top_level "duplicate_self"; top_level "_self_"; top_level "_self_"] =
  Raise (ConfigCompositionException "Duplicate _self_ defined in duplicate_self").
Proof.
  apply (proj1 validate_self_spec 0 [] 1 [2]
           [top_level "duplicate_self"; top_level "_self_"; top_level "_self_"]
           "duplicate_self").
  - constructor.
  - reflexivity.
  - reflexivity.
  - apply Exists_cons_hd. reflexivity.
  - reflexivity.
Defined.

(** C8. The fragment [grouped_then_plain_self] declares [_self_] twice,
    first under the group [x] and then without a group.  Validation does
    not raise the composition conflict "Duplicate _self_ defined in
    grouped_then_plain_self": the assertion on the group of the first
    [_self_] entry is checked before the second entry is looked at, and
    validation, and with it the expansion of the element that loads the
    fragment, stops with an [AssertionError].  With the two entries in the
    other order the conflict is raised. *)
Lemma duplicate_self_grouped_first :
  load_config demo_repo "grouped_then_plain_self" false =
    Some [in_group "x" "_self_"; top_level "_self_"] ∧
  _validate_self 0 [1; 2]
    [top_level "grouped_then_plain_self"; in_group "x" "_self_"; top_level "_self_"] =
  Raise AssertionError ∧
  compute_element_defaults_list no_interpolation no_resolution no_choice_resolution demo_repo 3 0
    [top_level "grouped_then_plain_self"] = Raise AssertionError ∧
  _validate_self 0 [1; 2]
    [top_level "grouped_then_plain_self"; top_level "_self_"; in_group "x" "_self_"] =
  Raise (ConfigCompositionException
           "Duplicate _self_ defined in grouped_then_plain_self").
Proof. split_and!; vm_compute; reflexivity. Qed.

(** A list has no [_self_] entry or splits at its first one. *)
Lemma first_self_split h (effective : list nat) :
  Forall (λ r, ¬ is_self h r) effective ∨
  ∃ front d back, effective = front ++ d :: back ∧
                  Forall (λ r, ¬ is_self h r) front ∧ is_self h d.
Proof.
  induction effective as [|x rest IH]; [by left|].
  destruct (decide (is_self h x)) as [Hx|Hx].
  - right. by exists [], x, rest.
  - destruct IH as [IH|(front & d & back & -> & Hfront & Hd)].
    + left. by constructor.
    + right. exists (x :: front), d, back. split_and!; [done| |done].
      by constructor.
Qed.

Lemma validate_self_single element front d back h :
  Forall (λ r, ¬ is_self h r) front →
  is_self h d →
  config_group (deref h d) = None →
  Forall (λ r, ¬ is_self h r) back →
  _validate_self element (front ++ d :: back) h =
  Ok (front ++ d :: back, adopt element d h).
Proof.
  intros Hfront Hd Hg Hback. unfold _validate_self.
  rewrite validate_self_loop_first, Hg by done.
  rewrite validate_self_loop_no_self; [done|].
  eapply Forall_impl; [exact Hback|]. intros r Hr.
  unfold is_self. by rewrite adopt_names.
Qed.

Lemma validate_self_grouped element front d back h g :
  Forall (λ r, ¬ is_self h r) front →
  is_self h d →
  config_group (deref h d) = Some g →
  _validate_self element (front ++ d :: back) h = Raise AssertionError.
Proof.
  intros Hfront Hd Hg. unfold _validate_self.
  by rewrite validate_self_loop_first, Hg.
Qed.

Lemma validate_self_assertion element effective h :
  _validate_self element effective h = Raise AssertionError →
  (∃ front d back g,
     effective = front ++ d :: back ∧
     Forall (λ r, ¬ is_self h r) front ∧ is_self h d ∧
     config_group (deref h d) = Some g) ∨
  config_name (deref h element) = None.
Proof.
  intros Hrun.
  destruct (first_self_split h effective) as [Hno|(front & d & back & -> & Hfront & Hd)].
  { by rewrite validate_self_no_self in Hrun. }
  destruct (config_group (deref h d)) as [g|] eqn:Hg.
  { left. by exists front, d, back, g. }
  right.
  destruct (decide (Exists (is_self h) back)) as [Hex|Hnex].
  - destruct (config_path (deref h element)) as [path|] eqn:Hpath.
    + by rewrite (validate_self_duplicate _ _ _ _ _ path) in Hrun.
    + unfold config_path in Hpath.
      destruct (config_name (deref h element)); [|done].
      by destruct (config_group (deref h element)).
  - apply not_Exists_Forall in Hnex; [|apply _].
    by rewrite validate_self_single in Hrun.
Qed.

(** The assertion of [_validate_self] is checked on the first [_self_]
    entry of the fragment's loaded defaults and on no other.  It holds
    when that entry has no group, and then the entry takes over the group
    and the package of the enclosing element; an entry declared with a
    group makes validation, and with it the expansion of the element that
    loads the fragment, stop with an [AssertionError] instead of a
    composition error.  An [AssertionError] of validation has no other
    cause, apart from an enclosing element without a name. *)
Theorem self_assertion_spec :
  (∀ element front d back h g,
     Forall (λ r, ¬ is_self h r) front →
     is_self h d →
     config_group (deref h d) = Some g →
     _validate_self element (front ++ d :: back) h = Raise AssertionError) ∧
  (∀ element front d back h,
     Forall (λ r, ¬ is_self h r) front →
     is_self h d →
     config_group (deref h d) = None →
     Forall (λ r, ¬ is_self h r) back →
     d < List.length h →
     _validate_self element (front ++ d :: back) h =
       Ok (front ++ d :: back, adopt element d h) ∧
     deref (adopt element d h) d =
       set_package (package (deref h element))
         (set_config_group (config_group (deref h element)) (deref h d))) ∧
  (∀ element effective h,
     _validate_self element effective h = Raise AssertionError →
     (∃ front d back g,
        effective = front ++ d :: back ∧
        Forall (λ r, ¬ is_self h r) front ∧ is_self h d ∧
        config_group (deref h d) = Some g) ∨
     config_name (deref h element) = None) ∧
  (∀ nii rn rc repo fuel element s path front d back g,
     config_path (deref (st_heap s) element) = Some path →
     load_config repo path (primary (deref (st_heap s) element)) =
       Some (front ++ d :: back) →
     Forall (λ kc, delete_key_hits kc.1 (deref (st_heap s) element) = false)
       (delete_groups s) →
     Forall (λ x, config_name x ≠ Some "_self_") front →
     config_name d = Some "_self_" →
     config_group d = Some g →
     _compute_element_defaults_list_impl nii rn rc repo (S fuel) element s =
     Raise AssertionError).
Proof.
  split_and!.
  - apply validate_self_grouped.
  - intros element front d back h Hfront Hd Hg Hback Hvalid. split.
    + by apply validate_self_single.
    + by apply adopt_entry.
  - apply validate_self_assertion.
  - apply compute_impl_grouped_self.
Qed.

Lemma self_assertion_spec_witness :
  _validate_self 0 [1; 2]
    [in_group "a" "a2"; top_level "_self_"; in_group "b" "b1"] =
  Ok ([1; 2], adopt 0 1 [in_group "a" "a2"; top_level "_self_"; in_group "b" "b1"]) ∧
  deref (adopt 0 1 [in_group "a" "a2"; top_level "_self_"; in_group "b" "b1"]) 1 =
  in_group "a" "_self_".
Proof.
  apply (proj1 (proj2 self_assertion_spec) 0 [] 1 [2]
           [in_group "a" "a2"; top_level "_self_"; in_group "b" "b1"]).
  - constructor.
  - reflexivity.
  - reflexivity.
  - repeat constructor. discriminate.
  - simpl. lia.
Defined.

(** C9. The assertion of [_validate_self] does not hold for every input
    that reaches it: the fragment [grouped_self] declares [_self_] under the
    group [x], nothing rejects the entry on the way, and validation, and
    with it the expansion of the element that loads the fragment, stops
    with an [AssertionError]. *)
Lemma grouped_self_fails_assertion :
  load_config demo_repo "grouped_self" false = Some [in_group "x" "_self_"] ∧
  _validate_self 0 [1] [top_level "grouped_self"; in_group "x" "_self_"] =
  Raise AssertionError ∧
  compute_element_defaults_list no_interpolation no_resolution no_choice_resolution demo_repo 3 0
    [top_level "grouped_self"] = Raise AssertionError.
Proof. split_and!; vm_compute; reflexivity. Qed.

(** ** Override conflicts *)

Lemma find_match_before_Some h defaults like d2 :
  _find_match_before h defaults like = Some d2 ↔
  ∃ front back,
    defaults = front ++ d2 :: back ∧
    Forall (λ x, deref h x ≠ deref h like ∧
                 fully_qualified_group_name (deref h x) ≠
                 fully_qualified_group_name (deref h like)) front ∧
    deref h d2 ≠ deref h like ∧
    fully_qualified_group_name (deref h d2) =
    fully_qualified_group_name (deref h like).
Proof.
  induction defaults as [|x rest IH]; simpl.
  { split; [done|]. intros (front & back & Heq & _). by destruct front. }
  case_bool_decide as Heqv.
  { split; [done|]. intros ([|y front] & back & Heq & Hfront & Hne & _).
    - by simplify_eq/=.
    - simplify_eq/=. apply Forall_cons in Hfront as [[? _] _]. done. }
  case_bool_decide as Hfq.
  - split.
    + intros [= ->]. exists [], rest. by split_and!.
    + intros ([|y front] & back & Heq & Hfront & _ & _).
      * by simplify_eq/=.
      * simplify_eq/=. apply Forall_cons in Hfront as [[_ ?] _]. done.
  - rewrite IH. split.
    + intros (front & back & -> & Hfront & Hne & Heq).
      exists (x :: front), back. split_and!; try done. by constructor.
    + intros ([|y front] & back & Heq & Hfront & Hne & Hfq').
      * by simplify_eq/=.
      * simplify_eq/=. apply Forall_cons in Hfront as [_ Hfront].
        by exists front, back.
Qed.

Lemma verify_entries_Ok h defaults todo :
  verify_entries h defaults todo = Ok tt ↔
  Forall (λ d, verify_entry h defaults d = Ok tt) todo.
Proof.
  induction todo as [|d rest IH]; simpl; [done|].
  rewrite Forall_cons, <-IH.
  destruct (verify_entry h defaults d) as [[]| |]; naive_solver.
Qed.

Lemma verify_entries_first_failure h defaults ok d rest e :
  Forall (λ d, verify_entry h defaults d = Ok tt) ok →
  verify_entry h defaults d = Raise e →
  verify_entries h defaults (ok ++ d :: rest) = Raise e.
Proof.
  intros Hok Hd. induction Hok as [|x ok Hx _ IH]; simpl.
  - by rewrite Hd.
  - by rewrite Hx.
Qed.

(** What one entry is checked for. *)
Lemma verify_entry_cases h defaults d :
  let e := deref h d in
  verify_entry h defaults d =
  if from_override e && negb (is_delete e) then
    match is_add_only e, _find_match_before h defaults d with
    | true, Some _ => Raise (ConfigCompositionException (could_not_add_msg e))
    | false, None => Raise (ConfigCompositionException (could_not_override_msg e))
    | _, _ => Ok tt
    end
  else Ok tt.
Proof.
  intros e. unfold verify_entry. fold e.
  destruct (from_override e && negb (is_delete e)); [|done].
  destruct (is_add_only e), (_find_match_before h defaults d); done.
Qed.

(** Override-conflict validation checks every non-delete entry that
    comes from an override against the entry [_find_match_before] finds
    for it: the first entry that has its fully-qualified group name,
    searched from the start of the list up to the first entry equal to it
    field by field.  Walking the list from the right, the first additive
    entry with such a match raises "already in the defaults list", the first
    non-additive entry without one raises "No match in the defaults list"
    with the hint to use [+]; validation passes exactly when no entry
    does either. *)
Theorem verify_no_add_conflicts_spec :
  (∀ h defaults like d2,
     _find_match_before h defaults like = Some d2 ↔
     ∃ front back,
       defaults = front ++ d2 :: back ∧
       Forall (λ x, deref h x ≠ deref h like ∧
                    fully_qualified_group_name (deref h x) ≠
                    fully_qualified_group_name (deref h like)) front ∧
       deref h d2 ≠ deref h like ∧
       fully_qualified_group_name (deref h d2) =
       fully_qualified_group_name (deref h like)) ∧
  (∀ h defaults,
     _verify_no_add_conflicts h defaults = Ok tt ↔
     ∀ d, d ∈ defaults →
          from_override (deref h d) = true →
          is_delete (deref h d) = false →
          if is_add_only (deref h d)
          then _find_match_before h defaults d = None
          else _find_match_before h defaults d ≠ None) ∧
  (∀ h front d back d2,
     from_override (deref h d) = true →
     is_delete (deref h d) = false →
     is_add_only (deref h d) = true →
     _find_match_before h (front ++ d :: back) d = Some d2 →
     Forall (λ x, verify_entry h (front ++ d :: back) x = Ok tt) back →
     _verify_no_add_conflicts h (front ++ d :: back) =
     Raise (ConfigCompositionException
              ("Could not add '" +:+ fully_qualified_group_name (deref h d) +:+
               "=" +:+ py_str (config_name (deref h d)) +:+ "'. '" +:+
               fully_qualified_group_name (deref h d) +:+
               "' is already in the defaults list."))) ∧
  (∀ h front d back,
     from_override (deref h d) = true →
     is_delete (deref h d) = false →
     is_add_only (deref h d) = false →
     _find_match_before h (front ++ d :: back) d = None →
     Forall (λ x, verify_entry h (front ++ d :: back) x = Ok tt) back →
     _verify_no_add_conflicts h (front ++ d :: back) =
     Raise (ConfigCompositionException
              ("Could not override '" +:+ fully_qualified_group_name (deref h d) +:+
               "'. No match in the defaults list." +:+ nl +:+
               "To append to your default list use +" +:+
               fully_qualified_group_name (deref h d) +:+ "=" +:+
               py_str (config_name (deref h d))))).
Proof.
  split_and!.
  - apply find_match_before_Some.
  - intros h defaults. unfold _verify_no_add_conflicts.
    rewrite verify_entries_Ok, Forall_forall.
    setoid_rewrite elem_of_reverse.
    apply forall_proper. intros d. apply forall_proper. intros Hin.
    rewrite verify_entry_cases. simpl.
    destruct (from_override (deref h d)), (is_delete (deref h d)),
      (is_add_only (deref h d)), (_find_match_before h defaults d);
      simpl; naive_solver.
  - intros h front d back d2 Hov Hdel Hadd Hfind Hback.
    unfold _verify_no_add_conflicts.
    rewrite reverse_app, reverse_cons, <-(assoc_L (++)). simpl.
    apply verify_entries_first_failure.
    + by apply Forall_reverse.
    + rewrite verify_entry_cases. simpl. by rewrite Hov, Hdel, Hadd, Hfind.
  - intros h front d back Hov Hdel Hadd Hfind Hback.
    unfold _verify_no_add_conflicts.
    rewrite reverse_app, reverse_cons, <-(assoc_L (++)). simpl.
    apply verify_entries_first_failure.
    + by apply Forall_reverse.
    + rewrite verify_entry_cases. simpl. by rewrite Hov, Hdel, Hadd, Hfind.
Qed.

Lemma verify_no_add_conflicts_spec_witness :
  _verify_no_add_conflicts
    [top_level "no_defaults"; in_group "a" "a1"; add_override_of "a" "a2"]
    [0; 1; 2] =
  Raise (ConfigCompositionException
           "Could not add 'a=a2'. 'a' is already in the defaults list.").
Proof.
  apply (proj1 (proj2 (proj2 verify_no_add_conflicts_spec))
           [top_level "no_defaults"; in_group "a" "a1"; add_override_of "a" "a2"]
           [0; 1] 2 [] 1).
  - reflexivity.
  - reflexivity.
  - reflexivity.
  - reflexivity.
  - constructor.
Defined.

(** C5. The override [+b=b1] given twice: the second entry is additive,
    comes from an override, is no delete directive and has an entry of its
    group declared before it, yet validation passes and no "already in the
    defaults list" error is raised, since the search for a match stops at
    the first entry that is equal to the entry field by field, which here
    is the other of the two.  Given [+b=b1] and then [+b=b2], validation
    raises the error. *)
Lemma twin_additive_overrides_pass :
  let h := [top_level "no_defaults"; add_override_of "b" "b1"; add_override_of "b" "b1"] in
  _verify_no_add_conflicts h [0; 1; 2] = Ok tt ∧
  from_override (deref h 2) = true ∧
  is_add_only (deref h 2) = true ∧
  is_delete (deref h 2) = false ∧
  fully_qualified_group_name (deref h 1) = fully_qualified_group_name (deref h 2) ∧
  expand_defaults_list no_interpolation no_resolution no_choice_resolution demo_repo 3 [0; 1; 2] h
  ≠ Raise (ConfigCompositionException
             "Could not add 'b=b1'. 'b' is already in the defaults list.") ∧
  _verify_no_add_conflicts
    [top_level "no_defaults"; add_override_of "b" "b1"; add_override_of "b" "b2"]
    [0; 1; 2] =
  Raise (ConfigCompositionException
           "Could not add 'b=b2'. 'b' is already in the defaults list.").
Proof. split_and!; vm_compute; done. Qed.

(** ** Package renames *)

Lemma last_rename_index_None h defaults :
  last_rename_index h defaults = None ↔ Forall (plain_package h) defaults.
Proof.
  induction defaults as [|d rest IH]; simpl; [done|].
  rewrite Forall_cons, <-IH. unfold plain_package.
  destruct (last_rename_index h rest); [naive_solver|].
  destruct (is_package_rename (deref h d)); naive_solver.
Qed.

Lemma last_rename_index_Some h defaults idx :
  last_rename_index h defaults = Some idx →
  ∃ front r back,
    defaults = front ++ r :: back ∧ List.length front = idx ∧
    is_package_rename (deref h r) = true ∧ Forall (plain_package h) back.
Proof.
  revert idx. induction defaults as [|d rest IH]; intros idx; simpl; [done|].
  destruct (last_rename_index h rest) as [i|] eqn:Hrest.
  - intros [= <-].
    destruct (IH i eq_refl) as (front & r & back & -> & <- & Hr & Hback).
    by exists (d :: front), r, back.
  - destruct (is_package_rename (deref h d)) eqn:Hd; [|done].
    intros [= <-]. exists [], d, rest. split_and!; try done.
    by apply last_rename_index_None.
Qed.

Lemma last_rename_index_split h front r back :
  is_package_rename (deref h r) = true →
  Forall (plain_package h) back →
  last_rename_index h (front ++ r :: back) = Some (List.length front).
Proof.
  intros Hr Hback. induction front as [|x front IH]; simpl.
  - apply last_rename_index_None in Hback as ->. by rewrite Hr.
  - by rewrite IH.
Qed.

(** Popping the entry at the split. *)
Lemma pop_at_split (front back : list nat) r :
  (front ++ r :: back) !!! List.length front = r ∧
  delete (List.length front) (front ++ r :: back) = front ++ back.
Proof.
  split.
  - apply list_lookup_total_correct. by rewrite list_lookup_middle.
  - induction front as [|x front IH]; simpl; [done|]. by rewrite IH.
Qed.

(** One round of the loop at the rightmost rename directive. *)
Lemma process_renames_round fuel front r back h :
  is_package_rename (deref h r) = true →
  Forall (plain_package h) back →
  process_renames_loop (S fuel) (front ++ r :: back) h =
  let '(renamed, h') := apply_rename r (front ++ back) h false in
  if (renamed : bool) then process_renames_loop fuel (front ++ back) h'
  else Raise (ConfigCompositionException (could_not_rename_msg (deref h' r))).
Proof.
  intros Hr Hback. simpl.
  rewrite last_rename_index_split by done.
  destruct (pop_at_split front back r) as [-> ->]. done.
Qed.

(** Renaming touches packages only. *)
Lemma apply_rename_frame rename defaults h renamed renamed' h' :
  apply_rename rename defaults h renamed = (renamed', h') →
  List.length h' = List.length h ∧
  (∀ x, package2 (deref h' x) = package2 (deref h x)) ∧
  (∀ x, config_group (deref h' x) = config_group (deref h x)).
Proof.
  revert h renamed. induction defaults as [|d rest IH]; intros h renamed; simpl.
  { by intros [= <- <-]. }
  destruct (is_matching (deref h rename) (deref h d)).
  - intros (Hlen & Hp2 & Hg)%IH. split_and!.
    + by rewrite Hlen, length_mutate.
    + intros x. by rewrite Hp2, (deref_mutate_field package2).
    + intros x. by rewrite Hg, (deref_mutate_field config_group).
  - apply IH.
Qed.

Lemma plain_package_ext h h' (l : list nat) :
  (∀ x, package2 (deref h' x) = package2 (deref h x)) →
  filter (plain_package h') l = filter (plain_package h) l.
Proof.
  intros Hp2. apply list_filter_iff. intros x.
  unfold plain_package, is_package_rename. by rewrite Hp2.
Qed.

(** The loop never runs out of rounds, and when it returns the list is the
    old one without its rename directives. *)
Lemma process_renames_loop_result fuel defaults h :
  List.length defaults < fuel →
  match process_renames_loop fuel defaults h with
  | Ok (defaults', h') =>
      defaults' = filter (plain_package h) defaults ∧
      Forall (plain_package h') defaults' ∧
      List.length h' = List.length h
  | Raise _ => True
  | OutOfFuel => False
  end.
Proof.
  revert defaults h. induction fuel as [|fuel IH]; intros defaults h Hfuel; [lia|].
  destruct (last_rename_index h defaults) as [idx|] eqn:Hidx.
  - apply last_rename_index_Some in Hidx as (front & r & back & -> & _ & Hr & Hback).
    rewrite process_renames_round by done.
    destruct (apply_rename r (front ++ back) h false) as [renamed h1] eqn:Happly.
    destruct renamed; [|done].
    apply apply_rename_frame in Happly as (Hlen & Hp2 & _).
    specialize (IH (front ++ back) h1).
    rewrite length_app in Hfuel. simpl in Hfuel.
    destruct (process_renames_loop fuel (front ++ back) h1) as [[l' h']| |];
      [|done|apply IH; rewrite length_app; lia].
    destruct IH as (-> & Hall & Hlen'); [rewrite length_app; lia|].
    split_and!; [|done|congruence].
    rewrite (plain_package_ext h) by done.
    rewrite !filter_app, filter_cons_False; [done|].
    unfold plain_package. by rewrite Hr.
  - simpl. rewrite Hidx. apply last_rename_index_None in Hidx.
    split_and!; [|done|done].
    symmetry. clear Hfuel. induction Hidx as [|x l Hx _ IHl]; [done|].
    by rewrite filter_cons_True, IHl.
Qed.

(** With distinct objects in the list and the directive not among them,
    every entry that matches the directive gets its target package, and
    nothing else changes. *)
Lemma apply_rename_spec rename defaults h renamed :
  NoDup defaults →
  rename ∉ defaults →
  Forall (λ x, x < List.length h) defaults →
  ∃ h',
    apply_rename rename defaults h renamed =
      (renamed || bool_decide (Exists (λ x, is_matching (deref h rename) (deref h x) = true)
                                 defaults), h') ∧
    ∀ x, deref h' x =
         if decide (rename_target h rename defaults x)
         then set_package (get_subject_package (deref h rename)) (deref h x)
         else deref h x.
Proof.
  revert h renamed.
  induction defaults as [|d rest IH]; intros h renamed Hnodup Hnotin Hvalid; simpl.
  { exists h. split; [by rewrite orb_false_r|done]. }
  apply NoDup_cons in Hnodup as [Hd Hnodup].
  apply not_elem_of_cons in Hnotin as [Hne Hnotin].
  apply Forall_cons in Hvalid as [Hdv Hvalid].
  destruct (is_matching (deref h rename) (deref h d)) eqn:Hm.
  - set (h1 := mutate (set_package (get_subject_package (deref h rename))) d h).
    destruct (IH h1 true Hnodup Hnotin) as (h' & Hrun & Hread).
    { unfold h1. eapply Forall_impl; [exact Hvalid|]. intros x Hx.
      by rewrite length_mutate. }
    assert (deref h1 rename = deref h rename) as Hr1
      by (unfold h1; by rewrite deref_mutate_ne).
    exists h'. split.
    + rewrite Hrun. simpl. f_equal. symmetry.
      rewrite bool_decide_eq_true_2 by (by left). apply orb_true_r.
    + intros x. rewrite Hread.
      destruct (decide (x = d)) as [->|Hxd].
      * rewrite decide_False by (by intros [? _]).
        rewrite decide_True by (split; [by left|done]).
        unfold h1. by rewrite deref_mutate_eq.
      * assert (deref h1 x = deref h x) as Hx1
          by (unfold h1; by rewrite deref_mutate_ne).
        unfold rename_target.
        destruct (decide (x ∈ rest ∧ _)) as [[Hin Hmx]|Hn1];
          destruct (decide (x ∈ d :: rest ∧ _)) as [[Hin' Hmx']|Hn2].
        -- by rewrite Hr1, Hx1.
        -- exfalso. apply Hn2. rewrite Hr1, Hx1 in Hmx. split; [by right|done].
        -- exfalso. apply Hn1. rewrite Hr1, Hx1.
           apply elem_of_cons in Hin' as [?|?]; done.
        -- done.
  - destruct (IH h renamed Hnodup Hnotin Hvalid) as (h' & Hrun & Hread).
    exists h'. split.
    + rewrite Hrun. f_equal. f_equal. apply bool_decide_ext.
      rewrite Exists_cons. rewrite Hm. naive_solver.
    + intros x. rewrite Hread. apply decide_ext. unfold rename_target.
      rewrite elem_of_cons. split; [naive_solver|].
      intros [[->|?] Hx]; [congruence|done].
Qed.

Lemma is_matching_true rename other :
  is_matching rename other = true ↔
  config_group rename = config_group other ∧ package rename = package other.
Proof.
  unfold is_matching. repeat case_bool_decide; naive_solver.
Qed.

Lemma process_renames_one_round front r back h :
  is_package_rename (deref h r) = true →
  Forall (plain_package h) back →
  NoDup (front ++ r :: back) →
  Forall (λ x, x < List.length h) (front ++ r :: back) →
  ∃ h',
    (∀ x, deref h' x =
          if decide (rename_target h r (front ++ back) x)
          then set_package (get_subject_package (deref h r)) (deref h x)
          else deref h x) ∧
    _process_renames (front ++ r :: back) h =
    if decide (Exists (λ x, is_matching (deref h r) (deref h x) = true)
                 (front ++ back))
    then _process_renames (front ++ back) h'
    else Raise (ConfigCompositionException (could_not_rename_msg (deref h r))).
Proof.
  intros Hr Hback Hnodup Hvalid.
  assert (NoDup (front ++ back) ∧ r ∉ front ++ back) as [Hnd Hnotin].
  { apply NoDup_app in Hnodup as (Hf & Hdisj & [Hrb Hb]%NoDup_cons). split.
    - apply NoDup_app. split_and!; [done| |done].
      intros x Hx Hxb. apply (Hdisj x Hx). by right.
    - intros [Hx|Hx]%elem_of_app; [|done]. apply (Hdisj r Hx). by left. }
  assert (Forall (λ x, x < List.length h) (front ++ back)) as Hv.
  { apply Forall_app in Hvalid as [? [_ ?]%Forall_cons]. by apply Forall_app. }
  destruct (apply_rename_spec r (front ++ back) h false Hnd Hnotin Hv)
    as (h' & Hrun & Hread).
  exists h'. split; [done|].
  unfold _process_renames. rewrite process_renames_round, Hrun by done.
  destruct (decide (Exists _ _)) as [Hex|Hex].
  - rewrite bool_decide_eq_true_2 by done. cbn [orb]. cbv beta iota.
    replace (List.length (front ++ r :: back)) with (S (List.length (front ++ back)));
      [done|]. rewrite !length_app. simpl. lia.
  - rewrite bool_decide_eq_false_2 by done. cbn [orb]. cbv beta iota.
    rewrite Hread. rewrite decide_False; [done|]. by intros [? _].
Qed.

(** C3. Rename resolution removes the rightmost rename directive that is
    left and gives its target package to every entry of the remaining list
    (in front of the directive or behind it) whose group equals the
    directive's and whose package equals its source package, no package
    matching no package; when no entry matches it raises the composition
    error "Could not rename package ..."; it goes on until no directive is
    left, always comes to an end, and returns the list without its rename
    directives. *)
Theorem process_renames_spec :
  (∀ defaults h, _process_renames defaults h ≠ OutOfFuel) ∧
  (∀ defaults h defaults' h',
     _process_renames defaults h = Ok (defaults', h') →
     defaults' = filter (plain_package h) defaults ∧
     Forall (plain_package h') defaults') ∧
  (∀ front r back h,
     is_package_rename (deref h r) = true →
     Forall (plain_package h) back →
     NoDup (front ++ r :: back) →
     Forall (λ x, x < List.length h) (front ++ r :: back) →
     ∃ h',
       (∀ x, deref h' x =
             if decide (rename_target h r (front ++ back) x)
             then set_package (get_subject_package (deref h r)) (deref h x)
             else deref h x) ∧
       _process_renames (front ++ r :: back) h =
       if decide (Exists (λ x, is_matching (deref h r) (deref h x) = true)
                    (front ++ back))
       then _process_renames (front ++ back) h'
       else Raise (ConfigCompositionException
                     ("Could not rename package. " +:+ "No match for '" +:+
                      py_str (config_group (deref h r)) +:+ "@" +:+
                      py_str (package (deref h r)) +:+
                      "' in the defaults list"))) ∧
  (∀ rename other,
     is_matching rename other = true ↔
     config_group rename = config_group other ∧ package rename = package other).
Proof.
  split_and!.
  - intros defaults h Hout.
    pose proof (process_renames_loop_result (S (List.length defaults)) defaults h) as H.
    unfold _process_renames in Hout. rewrite Hout in H. apply H. lia.
  - intros defaults h defaults' h' Hrun.
    pose proof (process_renames_loop_result (S (List.length defaults)) defaults h) as H.
    unfold _process_renames in Hrun. rewrite Hrun in H.
    destruct H as (? & ? & _); [lia|done].
  - apply process_renames_one_round.
  - apply is_matching_true.
Qed.

Lemma process_renames_spec_witness :
  ∃ h',
    [0] = filter
            (plain_package
               [in_group "b" "b1"; set_package2 (Some "pkg") (override_of "b" "b1")])
            [0; 1] ∧
    Forall (plain_package h') [0].
Proof.
  eexists.
  eapply (proj1 (proj2 process_renames_spec) [0; 1]
            [in_group "b" "b1"; set_package2 (Some "pkg") (override_of "b" "b1")]
            [0] _).
  vm_compute. reflexivity.
Defined.

(** Two entries of group [b] without a package and the directive
    [b@:pkg]: both entries are moved to [pkg], the second as well as the
    first; and an entry standing behind the directive is renamed too. *)
Lemma rename_reaches_every_match :
  let rename := set_package2 (Some "pkg") (override_of "b" "b1") in
  (∃ h', _process_renames [0; 1; 2] [in_group "b" "b1"; in_group "b" "b2"; rename]
         = Ok ([0; 1], h') ∧
         package (deref h' 0) = Some "pkg" ∧
         package (deref h' 1) = Some "pkg") ∧
  (∃ h', _process_renames [0; 1] [rename; in_group "b" "b1"]
         = Ok ([1], h') ∧
         package (deref h' 1) = Some "pkg").
Proof. split; eexists; vm_compute; done. Qed.

(** ** The entry point and [_self_] *)

Section SelfName.

Variable node_is_interpolation : string → bool.
Variable resolve_node :
  gmap string (option string) → list (option string * option string) →
  string → string → option (option string).
Variable resolve_choice : gmap string (option string) → string → string → reading.
Variable repo : ConfigRepository.

(** Registering choices always succeeds and writes to the choice map only. *)
Lemma register_choice_run d dd s :
  ∃ choices,
    register_choice node_is_interpolation resolve_choice d dd s =
    Ok (tt, {| st_heap := st_heap s; group_to_choice := choices;
               delete_groups := delete_groups s |}).
Proof.
  unfold register_choice.
  rewrite (bind_run (get_obj dd) _ s _ s eq_refl).
  destruct (_ && _ && _ && _).
  - rewrite (bind_run get_choices _ s _ s eq_refl).
    rewrite (bind_run (get_obj d) _ s _ s eq_refl).
    destruct (_ && _); [by eexists|].
    exists (group_to_choice s). by destruct s.
  - exists (group_to_choice s). by destruct s.
Qed.

Lemma register_choices_run d dds s :
  ∃ choices,
    register_choices node_is_interpolation resolve_choice d dds s =
    Ok (tt, {| st_heap := st_heap s; group_to_choice := choices;
               delete_groups := delete_groups s |}).
Proof.
  revert s. induction dds as [|dd rest IH]; intros s; simpl.
  { exists (group_to_choice s). by destruct s. }
  destruct (register_choice_run d dd s) as [choices Hstep].
  rewrite (bind_run _ _ _ _ _ Hstep).
  destruct (IH {| st_heap := st_heap s; group_to_choice := choices;
                  delete_groups := delete_groups s |}) as [choices' ->].
  by exists choices'.
Qed.

(** A [_self_] entry with no self name to resolve it. *)
Lemma expand_entry_self_unnamed rec d s :
  is_self (st_heap s) d →
  expand_entry node_is_interpolation resolve_choice rec None d s =
  Raise (ConfigCompositionException self_name_missing_msg).
Proof.
  intros Hd. unfold expand_entry.
  rewrite (bind_run (get_obj d) _ s _ s eq_refl).
  by rewrite bool_decide_eq_true_2.
Qed.

(** What one round of the registration loop does: the name of [dd] is
    recorded under its fully-qualified group name when [dd] has a group, is
    not named [_keep_], is no delete directive and is not marked skip-load,
    the dictionary does not contain the key, and [d] is no interpolation. *)
Lemma register_choice_exact d dd s ed edd :
  deref (st_heap s) d = ed →
  deref (st_heap s) dd = edd →
  let f := fully_qualified_group_name edd in
  register_choice node_is_interpolation resolve_choice d dd s =
  Ok (tt,
      if bool_decide (config_group edd ≠ None)
         && bool_decide (config_name edd ≠ Some "_keep_")
         && negb (is_delete edd) && negb (skip_load edd)
         && (negb (dict_contains node_is_interpolation resolve_choice
                     (group_to_choice s) f)
             && negb (is_interpolation node_is_interpolation ed))
      then {| st_heap := st_heap s;
              group_to_choice := <[f := config_name edd]> (group_to_choice s);
              delete_groups := delete_groups s |}
      else s).
Proof.
  intros Hed Hedd f. unfold register_choice.
  assert (get_obj dd s = Ok (edd, s)) as Hdd by (by rewrite <-Hedd).
  assert (get_obj d s = Ok (ed, s)) as Hd by (by rewrite <-Hed).
  rewrite (bind_run _ _ _ _ _ Hdd).
  destruct (_ && _ && _ && _); [|done].
  rewrite (bind_run get_choices _ s _ s eq_refl).
  rewrite (bind_run _ _ _ _ _ Hd). fold f.
  by destruct (_ && _).
Qed.

Lemma register_choices_single d dd s :
  register_choices node_is_interpolation resolve_choice d (reverse [dd]) s =
  register_choice node_is_interpolation resolve_choice d dd s.
Proof.
  change (reverse [dd]) with [dd]. cbn [register_choices].
  unfold mbind, M_bind.
  by destruct (register_choice _ _ d dd s) as [[[] s1]| |].
Qed.

(** A [_self_] entry under a self name.  The entry is copied.  When the
    dictionary has a choice for its group, the copy gets that choice and
    nothing is recorded; when it has none, the copy gets the self name, and
    the self name is recorded as the choice of the group (if the entry has
    a group, is neither a delete directive nor marked skip-load, and the
    self name is neither [_keep_] nor an interpolation). *)
Lemma expand_entry_self_named rec sn d s :
  is_self (st_heap s) d →
  let e := deref (st_heap s) d in
  let f := fully_qualified_group_name e in
  expand_entry node_is_interpolation resolve_choice rec (Some sn) d s =
  match dict_read node_is_interpolation resolve_choice (group_to_choice s) f with
  | Value v =>
      Ok (([List.length (st_heap s)], []),
          {| st_heap := st_heap s ++ [set_config_name v e];
             group_to_choice := group_to_choice s;
             delete_groups := delete_groups s |})
  | Unreadable => Raise InterpolationError
  | Absent =>
      Ok (([List.length (st_heap s)], []),
          {| st_heap := st_heap s ++ [set_config_name (Some sn) e];
             group_to_choice :=
               if bool_decide (config_group e ≠ None)
                  && bool_decide (sn ≠ "_keep_")
                  && negb (is_delete e) && negb (skip_load e)
                  && negb (node_is_interpolation sn)
               then <[f := Some sn]> (group_to_choice s)
               else group_to_choice s;
             delete_groups := delete_groups s |})
  end.
Proof.
  intros Hd e f. unfold expand_entry.
  rewrite (bind_run (get_obj d) _ s _ s eq_refl). fold e f.
  rewrite bool_decide_eq_true_2 by done.
  set (s1 := with_heap (st_heap s ++ [e]) s).
  assert (new_obj e s = Ok (List.length (st_heap s), s1)) as Hnew by done.
  assert (∀ v, update_obj (set_config_name v) (List.length (st_heap s)) s1 =
               Ok (tt, with_heap (st_heap s ++ [set_config_name v e]) s)) as Hupd.
  { intros v. unfold update_obj, s1, with_heap, mutate. simpl. do 3 f_equal.
    rewrite <-(Nat.add_0_r (List.length (st_heap s))). by rewrite alter_app_r. }
  assert (∀ v, deref (st_heap s ++ [set_config_name v e]) (List.length (st_heap s)) =
               set_config_name v e) as Hcopy.
  { intros v. pose proof (deref_app_r (st_heap s) [set_config_name v e] 0) as Hlast.
    by rewrite Nat.add_0_r in Hlast. }
  assert (∀ _ : unit,
    (new_obj e ≫= λ d',
       get_choices ≫= λ choices,
       (match dict_read node_is_interpolation resolve_choice choices f with
        | Value v => update_obj (set_config_name v) d'
        | Unreadable => raise InterpolationError
        | Absent => update_obj (set_config_name (Some sn)) d'
        end : M unit) ≫= λ _, mret (d', [d'], [])) s =
    match dict_read node_is_interpolation resolve_choice (group_to_choice s) f with
    | Value v =>
        Ok ((List.length (st_heap s), [List.length (st_heap s)], @nil ref),
            with_heap (st_heap s ++ [set_config_name v e]) s)
    | Unreadable => Raise InterpolationError
    | Absent =>
        Ok ((List.length (st_heap s), [List.length (st_heap s)], @nil ref),
            with_heap (st_heap s ++ [set_config_name (Some sn) e]) s)
    end) as Hcore.
  { intros _. rewrite (bind_run _ _ _ _ _ Hnew).
    rewrite (bind_run get_choices _ s1 _ s1 eq_refl).
    change (group_to_choice s1) with (group_to_choice s).
    destruct (dict_read _ _ _ f) as [|v|]; [| |done].
    - by rewrite (bind_run _ _ _ _ _ (Hupd (Some sn))).
    - by rewrite (bind_run _ _ _ _ _ (Hupd v)). }
  specialize (Hcore tt).
  destruct (dict_read node_is_interpolation resolve_choice (group_to_choice s) f)
    as [|v|] eqn:Hread.
  - rewrite (bind_run _ _ _ _ _ Hcore). cbv beta iota.
    set (s2 := with_heap (st_heap s ++ [set_config_name (Some sn) e]) s).
    pose proof (register_choice_exact (List.length (st_heap s))
                  (List.length (st_heap s)) s2 _ _
                  (Hcopy (Some sn)) (Hcopy (Some sn))) as Hreg.
    cbv zeta in Hreg.
    change (st_heap s2) with (st_heap s ++ [set_config_name (Some sn) e]) in Hreg.
    change (group_to_choice s2) with (group_to_choice s) in Hreg.
    change (delete_groups s2) with (delete_groups s) in Hreg.
    change (fully_qualified_group_name (set_config_name (Some sn) e)) with f in Hreg.
    unfold dict_contains in Hreg. rewrite Hread in Hreg.
    rewrite <-register_choices_single in Hreg.
    rewrite (bind_run _ _ _ _ _ Hreg).
    change (config_group (set_config_name (Some sn) e)) with (config_group e).
    change (config_name (set_config_name (Some sn) e)) with (Some sn).
    change (is_delete (set_config_name (Some sn) e)) with (is_delete e).
    change (skip_load (set_config_name (Some sn) e)) with (skip_load e).
    change (is_interpolation node_is_interpolation (set_config_name (Some sn) e))
      with (node_is_interpolation sn).
    assert (bool_decide (Some sn ≠ Some "_keep_") = bool_decide (sn ≠ "_keep_")) as ->.
    { apply bool_decide_ext. naive_solver. }
    rewrite andb_true_l.
    repeat case_bool_decide;
      destruct (is_delete e), (skip_load e), (node_is_interpolation sn);
      first [done | exfalso; tauto].
  - rewrite (bind_run _ _ _ _ _ Hcore). cbv beta iota.
    set (s2 := with_heap (st_heap s ++ [set_config_name v e]) s).
    pose proof (register_choice_exact (List.length (st_heap s))
                  (List.length (st_heap s)) s2 _ _
                  (Hcopy v) (Hcopy v)) as Hreg.
    cbv zeta in Hreg.
    change (st_heap s2) with (st_heap s ++ [set_config_name v e]) in Hreg.
    change (group_to_choice s2) with (group_to_choice s) in Hreg.
    change (delete_groups s2) with (delete_groups s) in Hreg.
    change (fully_qualified_group_name (set_config_name v e)) with f in Hreg.
    unfold dict_contains in Hreg. rewrite Hread in Hreg.
    rewrite andb_false_l, andb_false_r in Hreg.
    rewrite <-register_choices_single in Hreg.
    rewrite (bind_run _ _ _ _ _ Hreg). done.
  - by rewrite (bind_Raise _ _ _ _ Hcore).
Qed.

End SelfName.

Lemma expand_defaults_list_trailing_self nii rn rc repo fuel front d h :
  is_self h d →
  expand_defaults_list nii rn rc repo fuel (front ++ [d]) h =
  Raise (ConfigCompositionException self_name_missing_msg).
Proof.
  intros Hd. unfold expand_defaults_list, _expand_defaults_list.
  destruct (seed_tables nii rc h (reverse (front ++ [d])) ∅ []) as [choices dg].
  unfold _expand_defaults_list_impl, expand_with.
  rewrite reverse_app. simpl.
  erewrite bind_Raise; [done|].
  apply bind_Raise. by apply expand_entry_self_unnamed.
Qed.

(** ** Relations that every step of an expansion maintains *)

Section Preserves.

Variable R : state → state → Prop.
Variable node_is_interpolation : string → bool.
Variable resolve_node :
  gmap string (option string) → list (option string * option string) →
  string → string → option (option string).
Variable resolve_choice : gmap string (option string) → string → string → reading.
Variable repo : ConfigRepository.

Context `{!Maintained node_is_interpolation resolve_choice R}.

Lemma preserves_ret {A} (a : A) : preserves R (mret a : M A).
Proof. by intros s b s' [_ <-]%ret_Ok. Qed.

Lemma preserves_bind {A B} (m : M A) (k : A → M B) :
  preserves R m → (∀ a, preserves R (k a)) → preserves R (m ≫= k).
Proof.
  intros Hm Hk s b s' (a & s1 & H1 & H2)%bind_Ok.
  etrans; [by eapply Hm|by eapply Hk].
Qed.

Lemma preserves_raise {A} e : preserves R (raise e : M A).
Proof. by intros s a s'. Qed.

Lemma preserves_get_obj r : preserves R (get_obj r).
Proof. by intros s a s' [= _ <-]. Qed.

Lemma preserves_get_heap : preserves R get_heap.
Proof. by intros s a s' [= _ <-]. Qed.

Lemma preserves_get_choices : preserves R get_choices.
Proof. by intros s a s' [= _ <-]. Qed.

Lemma preserves_check_heap (f : list DefaultElement → outcome unit) :
  preserves R (check_heap f).
Proof.
  intros s a s'. unfold check_heap, on_heap.
  destruct (f (st_heap s)) as [[]| |]; [|done|done].
  intros [= _ <-]. by destruct s.
Qed.

Lemma preserves_register_choices d dds :
  preserves R (register_choices node_is_interpolation resolve_choice d dds).
Proof.
  induction dds as [|dd rest IH]; simpl; [apply preserves_ret|].
  apply preserves_bind; [apply maintained_register_choice|done].
Qed.

Lemma preserves_expand_entry rec self_name d :
  (∀ r, preserves R (rec r)) →
  preserves R (expand_entry node_is_interpolation resolve_choice rec self_name d).
Proof.
  intros Hrec. unfold expand_entry.
  apply preserves_bind; [apply preserves_get_obj|]. intros e.
  apply preserves_bind.
  - case_bool_decide.
    { destruct self_name; [|apply preserves_raise].
      apply preserves_bind; [apply maintained_new_obj|]. intros d'.
      apply preserves_bind; [apply preserves_get_choices|]. intros choices.
      apply preserves_bind; [ |intros; apply preserves_ret].
      destruct (dict_read _ _ choices _);
        [apply maintained_update_name|apply maintained_update_name|
         apply preserves_raise]. }
    destruct (is_package_rename e); [apply preserves_ret|].
    destruct (is_delete e).
    { apply preserves_bind; [apply maintained_register_delete|].
      intros; apply preserves_ret. }
    destruct (from_override e); [apply preserves_ret|].
    destruct (is_interpolation _ e); [apply preserves_ret|].
    apply preserves_bind; [apply maintained_delete_matching|].
    intros [|]; [apply preserves_ret|].
    apply preserves_bind; [apply preserves_get_choices|]. intros choices.
    apply preserves_bind.
    { destruct (dict_read _ _ choices _);
        [apply preserves_ret|apply maintained_update_name|apply preserves_raise]. }
    intros _. apply preserves_bind; [apply Hrec|]. intros; apply preserves_ret.
  - intros [[d' added] deferred].
    apply preserves_bind; [apply preserves_register_choices|]. intros; apply preserves_ret.
Qed.

Lemma preserves_expand_loop rec self_name todo ret deferred :
  (∀ r, preserves R (rec r)) →
  preserves R (expand_loop node_is_interpolation resolve_choice rec self_name todo ret deferred).
Proof.
  intros Hrec. revert ret deferred.
  induction todo as [|d rest IH]; intros ret deferred; simpl; [apply preserves_ret|].
  apply preserves_bind; [by apply preserves_expand_entry|].
  intros [added dfr]. apply IH.
Qed.

Lemma preserves_resolve_interpolation choices legacy d :
  preserves R (resolve_interpolation resolve_node choices legacy d).
Proof.
  unfold resolve_interpolation.
  apply preserves_bind; [apply preserves_get_obj|]. intros e.
  destruct (config_group e); [|apply preserves_raise].
  destruct (resolve_node _ _ _ _); [apply maintained_update_name|apply preserves_raise].
Qed.

Lemma preserves_expand_deferred rec choices legacy deferred result :
  (∀ r, preserves R (rec r)) →
  preserves R (expand_deferred node_is_interpolation resolve_node rec
            choices legacy deferred result).
Proof.
  intros Hrec. revert result.
  induction deferred as [|d rest IH]; intros result; simpl; [apply preserves_ret|].
  apply preserves_bind; [apply preserves_get_obj|]. intros e.
  apply preserves_bind.
  { destruct (is_interpolation _ e);
      [apply preserves_resolve_interpolation|apply preserves_ret]. }
  intros _. apply preserves_bind; [apply Hrec|]. intros items.
  apply preserves_bind; [apply preserves_get_heap|]. intros h.
  destruct (list_index h result d); [apply IH|apply preserves_raise].
Qed.

Lemma preserves_expand_with rec self_name original effective :
  (∀ r, preserves R (rec r)) →
  preserves R (expand_with node_is_interpolation resolve_node resolve_choice rec self_name
            original effective).
Proof.
  intros Hrec. unfold expand_with.
  apply preserves_bind; [by apply preserves_expand_loop|]. intros [ret deferred].
  apply preserves_bind; [apply maintained_process_renames|]. intros result.
  apply preserves_bind; [apply preserves_check_heap|]. intros _.
  apply preserves_bind; [apply preserves_get_choices|]. intros choices2.
  apply preserves_bind; [by apply preserves_expand_deferred|]. intros result'.
  apply preserves_bind; [apply preserves_get_heap|]. intros h. apply preserves_ret.
Qed.

Lemma preserves_compute_impl fuel element :
  preserves R (_compute_element_defaults_list_impl node_is_interpolation
            resolve_node resolve_choice repo fuel element).
Proof.
  revert element. induction fuel as [|fuel IH]; intros element; simpl.
  { by intros s a s'. }
  apply preserves_bind; [apply maintained_delete_matching|].
  intros [|]; [apply preserves_ret|].
  apply preserves_bind; [apply preserves_get_obj|]. intros e.
  destruct (config_path e) as [path|]; [|apply preserves_raise].
  destruct (load_config repo path (primary e)) as [loaded|].
  - apply preserves_bind; [apply maintained_new_objs|]. intros effective.
    apply preserves_bind; [apply maintained_validate_self|]. intros effective'.
    apply preserves_bind; [apply preserves_get_obj|]. intros e'.
    by apply preserves_expand_with.
  - destruct (optional e).
    + apply preserves_bind; [apply maintained_update_skip|].
      intros; apply preserves_ret.
    + by intros s a s'.
Qed.

Lemma preserves_expand_impl fuel self_name original effective :
  preserves R (_expand_defaults_list_impl node_is_interpolation resolve_node resolve_choice
            repo fuel self_name original effective).
Proof. apply preserves_expand_with. intros r. apply preserves_compute_impl. Qed.

End Preserves.

(** ** Choices are recorded once *)

Section Reading.

Variable node_is_interpolation : string → bool.
Variable resolve_choice : gmap string (option string) → string → string → reading.

(** An ordinary value is read as it is. *)
Lemma dict_read_ordinary choices f v :
  choices !! f = Some v → ordinary node_is_interpolation v →
  dict_read node_is_interpolation resolve_choice choices f = Value v.
Proof.
  intros Hf Hv. unfold dict_read. rewrite Hf.
  destruct v as [n|]; [|done]. destruct Hv as [Hn Hi].
  by rewrite bool_decide_eq_false_2, Hi.
Qed.

Lemma dict_contains_ordinary choices f v :
  choices !! f = Some v → ordinary node_is_interpolation v →
  dict_contains node_is_interpolation resolve_choice choices f = true.
Proof.
  intros Hf Hv. unfold dict_contains. by erewrite dict_read_ordinary.
Qed.

(** Nothing is read where there is no key, or under the value [???]. *)
Lemma dict_read_unset choices f :
  unset choices f →
  dict_read node_is_interpolation resolve_choice choices f = Absent.
Proof. unfold dict_read. by intros [-> | ->]. Qed.

Lemma dict_contains_unset choices f :
  unset choices f →
  dict_contains node_is_interpolation resolve_choice choices f = false.
Proof. intros Hf. unfold dict_contains. by rewrite dict_read_unset. Qed.

(** What is read is stored. *)
Lemma dict_contains_key choices f :
  dict_contains node_is_interpolation resolve_choice choices f = true →
  choices !! f ≠ None.
Proof. unfold dict_contains, dict_read. by destruct (choices !! f). Qed.

End Reading.

Lemma choices_preserved_same nii s s' :
  group_to_choice s' = group_to_choice s → choices_preserved nii s s'.
Proof. intros Heq. split; intros f; by rewrite Heq. Qed.

Lemma on_heap_choices nii {A}
    (f : list DefaultElement → outcome (A * list DefaultElement)) :
  preserves (choices_preserved nii) (on_heap f).
Proof.
  intros s a s'. unfold on_heap.
  destruct (f (st_heap s)) as [[a' h']| |]; [|done|done].
  intros [= _ <-]. by apply choices_preserved_same.
Qed.

#[global] Instance choices_preserved_refl nii : Reflexive (choices_preserved nii).
Proof. by intros s. Qed.

#[global] Instance choices_preserved_trans nii : Transitive (choices_preserved nii).
Proof.
  intros s1 s2 s3 [Hv12 Hk12] [Hv23 Hk23]. split; [|by eauto].
  intros f v Hf Hv. eauto.
Qed.

(** The one place a choice is written: where the dictionary does not
    contain the key, so an ordinary value is never written over. *)
Lemma register_choice_keeps nii rc d dd :
  preserves (choices_preserved nii) (register_choice nii rc d dd).
Proof.
  unfold register_choice.
  intros s a s' (edd & s0 & [= <- <-] & H)%bind_Ok.
  destruct (_ && _ && _ && _); [|by apply ret_Ok in H as [_ <-]].
  apply bind_Ok in H as (choices & s1 & [= <- <-] & H).
  apply bind_Ok in H as (ed & s2 & [= <- <-] & H).
  destruct (dict_contains nii rc (group_to_choice s) _) eqn:Hin; simpl in H;
    [by apply ret_Ok in H as [_ <-]|].
  destruct (negb _); [|by apply ret_Ok in H as [_ <-]].
  injection H as _ <-. split; intros f; simpl.
  - intros v Hf Hv. rewrite lookup_insert_ne; [done|]. intros <-.
    by rewrite (dict_contains_ordinary _ _ _ _ _ Hf Hv) in Hin.
  - intros Hf.
    destruct (decide (fully_qualified_group_name (deref (st_heap s) dd) = f))
      as [<-|Hne].
    + by rewrite lookup_insert_eq in Hf.
    + by rewrite lookup_insert_ne in Hf.
Qed.

#[global] Instance choices_maintained nii rc : Maintained nii rc (choices_preserved nii).
Proof.
  split; try apply _.
  - intros v r s a s' [= _ <-]. by apply choices_preserved_same.
  - intros reason r s a s' [= _ <-]. by apply choices_preserved_same.
  - intros e s a s' [= _ <-]. by apply choices_preserved_same.
  - intros es s a s' [= _ <-]. by apply choices_preserved_same.
  - apply register_choice_keeps.
  - intros k s a s' [= _ <-]. by apply choices_preserved_same.
  - intros d s a s'. unfold delete_matching.
    destruct (delete_if_matching _ _ _) as [[m dg] h].
    intros [= _ <-]. by apply choices_preserved_same.
  - intros l. apply on_heap_choices.
  - intros e l. apply on_heap_choices.
Qed.



(** ** The choice a seed list records, and its use *)

Lemma seed_tables_app nii rc h pre rest choices dg :
  seed_tables nii rc h (pre ++ rest) choices dg =
  seed_tables nii rc h rest (seed_tables nii rc h pre choices dg).1
    (seed_tables nii rc h pre choices dg).2.
Proof.
  revert choices dg. induction pre as [|d pre IH]; intros choices dg; simpl; [done|].
  destruct (is_delete (deref h d)); [apply IH|].
  destruct (config_group (deref h d)); [|apply IH].
  destruct (dict_contains _ _ _ _); apply IH.
Qed.

Lemma seed_tables_keeps nii rc h todo choices dg f v :
  choices !! f = Some v → ordinary nii v →
  (seed_tables nii rc h todo choices dg).1 !! f = Some v.
Proof.
  intros Hf Hv. revert choices dg Hf.
  induction todo as [|d todo IH]; intros choices dg Hf; simpl; [done|].
  destruct (is_delete (deref h d)); [by apply IH|].
  destruct (config_group (deref h d)); [|by apply IH].
  destruct (dict_contains _ _ _ _) eqn:Hd; [by apply IH|].
  apply IH. rewrite lookup_insert_ne; [done|]. intros <-.
  by rewrite (dict_contains_ordinary _ _ _ _ _ Hf Hv) in Hd.
Qed.

Lemma seed_tables_skip nii rc h todo choices dg f :
  Forall (λ x, ¬ seeds_choice h f x) todo →
  choices !! f = None → (seed_tables nii rc h todo choices dg).1 !! f = None.
Proof.
  intros Htodo. revert choices dg.
  induction Htodo as [|d todo Hd _ IH]; intros choices dg Hf; simpl; [done|].
  destruct (is_delete (deref h d)) eqn:Hdel; [by apply IH|].
  destruct (config_group (deref h d)) eqn:Hg; [|by apply IH].
  destruct (dict_contains _ _ _ _); [by apply IH|].
  apply IH. rewrite lookup_insert_ne; [done|].
  intros Heq. apply Hd. split_and!; [done|by rewrite Hg|done].
Qed.

(** Entries named [???] leave a group without a choice. *)
Lemma seed_tables_unset nii rc h todo choices dg f :
  Forall (λ x, seeds_choice h f x → config_name (deref h x) = Some "???") todo →
  unset choices f → unset (seed_tables nii rc h todo choices dg).1 f.
Proof.
  intros Htodo. revert choices dg.
  induction Htodo as [|d todo Hd _ IH]; intros choices dg Hf; simpl; [done|].
  destruct (is_delete (deref h d)) eqn:Hdel; [by apply IH|].
  destruct (config_group (deref h d)) eqn:Hg; [|by apply IH].
  destruct (dict_contains _ _ _ _); [by apply IH|].
  apply IH. unfold unset.
  destruct (decide (fully_qualified_group_name (deref h d) = f)) as [Heq|Hne].
  - right. rewrite <-Heq, lookup_insert_eq. f_equal. apply Hd.
    split_and!; [done|by rewrite Hg|done].
  - by rewrite lookup_insert_ne.
Qed.

(** Of the entries of the seed list that can record a choice for a group,
    the last one that is not named [???] is the one whose name is
    recorded. *)
Lemma seed_tables_last nii rc h front d back f :
  seeds_choice h f d →
  ordinary nii (config_name (deref h d)) →
  Forall (λ x, seeds_choice h f x → config_name (deref h x) = Some "???") back →
  (seed_tables nii rc h (reverse (front ++ d :: back)) ∅ []).1 !! f =
  Some (config_name (deref h d)).
Proof.
  intros (Hdel & Hg & Hf) Hd Hback.
  rewrite reverse_app, reverse_cons, <-(assoc_L (++)), seed_tables_app. simpl.
  pose proof (seed_tables_unset nii rc h (reverse back) ∅ [] f) as Hskip.
  destruct (seed_tables nii rc h (reverse back) ∅ []) as [choices dg]. simpl in *.
  rewrite Hdel. destruct (config_group (deref h d)); [|done].
  rewrite Hf, dict_contains_unset.
  - apply seed_tables_keeps; [by rewrite lookup_insert_eq|done].
  - apply Hskip; [by rewrite Forall_reverse|by left].
Qed.

(** ** The choice an added sublist records *)

Section Registration.

Variable node_is_interpolation : string → bool.
Variable resolve_choice : gmap string (option string) → string → string → reading.







End Registration.

Section Substitution.

Variable node_is_interpolation : string → bool.
Variable resolve_node :
  gmap string (option string) → list (option string * option string) →
  string → string → option (option string).
Variable resolve_choice : gmap string (option string) → string → string → reading.
Variable repo : ConfigRepository.

(** A plain entry that no delete key selects.  When the dictionary has a
    choice for its group, the entry is renamed to the choice, and only then
    handed to the loader; when it has none, the entry goes to the loader as
    it is.  In both cases the sublist the loader returns then goes through
    the registration loop. *)
Lemma expand_entry_plain rec self_name d s :
  let e := deref (st_heap s) d in
  plain_entry node_is_interpolation e →
  Forall (λ kc, delete_key_hits kc.1 e = false) (delete_groups s) →
  expand_entry node_is_interpolation resolve_choice rec self_name d s =
  match dict_read node_is_interpolation resolve_choice (group_to_choice s)
          (fully_qualified_group_name e) with
  | Value v =>
      (added ← rec d;
       register_choices node_is_interpolation resolve_choice d (reverse added);;
       mret (added, []))
        (with_heap (mutate (set_config_name v) d (st_heap s)) s)
  | Unreadable => Raise InterpolationError
  | Absent =>
      (added ← rec d;
       register_choices node_is_interpolation resolve_choice d (reverse added);;
       mret (added, [])) s
  end.
Proof.
  intros e (Hself & Hren & Hdel & Hov & Hint) Hno. unfold expand_entry.
  rewrite (bind_run (get_obj d) _ s _ s eq_refl). fold e.
  rewrite bool_decide_eq_false_2 by done. rewrite Hren, Hdel, Hov, Hint.
  unfold mbind at 1. unfold M_bind at 1.
  rewrite (bind_run _ _ _ _ _ (delete_matching_no_hit _ _ Hno)).
  rewrite (bind_run get_choices _ s _ s eq_refl).
  destruct (dict_read _ _ _ _) as [|v|].
  - rewrite (bind_run (mret tt) _ s tt s eq_refl).
    unfold mbind, M_bind. by destruct (rec d s) as [[added s2]| |].
  - rewrite (bind_run (update_obj (set_config_name v) d) _ s tt
               (with_heap (mutate (set_config_name v) d (st_heap s)) s) eq_refl).
    unfold mbind, M_bind.
    by destruct (rec d _) as [[added s2]| |].
  - done.
Qed.


End Substitution.




(** ** What an expansion may write to *)

Lemma frame_refl n owned s : frame n owned s s.
Proof. by split. Qed.

Lemma frame_trans n owned s1 s2 s3 :
  frame n owned s1 s2 → frame n owned s2 s3 → frame n owned s1 s3.
Proof.
  intros [Hl1 Hr1] [Hl2 Hr2]. split; [lia|].
  intros r Hr Hown. by rewrite Hr2, Hr1.
Qed.

Lemma frame_same_heap n owned s s' :
  st_heap s' = st_heap s → frame n owned s s'.
Proof. intros Heq. split; by rewrite Heq. Qed.

Lemma framed_ret {A} n owned (a : A) (Q : A → Prop) :
  Q a → framed n owned (mret a : M A) Q.
Proof. intros HQ s b s' _ [<- <-]%ret_Ok. split; [apply frame_refl|done]. Qed.

Lemma framed_bind {A B} n owned (m : M A) (k : A → M B) Q R :
  framed n owned m Q → (∀ a, Q a → framed n owned (k a) R) →
  framed n owned (m ≫= k) R.
Proof.
  intros Hm Hk s b s' Hn (a & s1 & H1 & H2)%bind_Ok.
  destruct (Hm _ _ _ Hn H1) as [Hf1 HQ].
  destruct (Hk a HQ s1 b s') as [Hf2 HR]; [destruct Hf1; lia|done|].
  split; [by eapply frame_trans|done].
Qed.

Lemma framed_weaken {A} n owned (m : M A) (Q Q' : A → Prop) :
  framed n owned m Q → (∀ a, Q a → Q' a) → framed n owned m Q'.
Proof. intros Hm HQ s a s' Hn Hrun. destruct (Hm _ _ _ Hn Hrun). auto. Qed.

Lemma framed_raise {A} n owned e (Q : A → Prop) : framed n owned (raise e) Q.
Proof. by intros s a s'. Qed.

(** Steps that leave the store alone. *)
Lemma framed_same_heap {A} n owned (m : M A) :
  (∀ s a s', m s = Ok (a, s') → st_heap s' = st_heap s) →
  framed n owned m (λ _, True).
Proof. intros Hm s a s' _ Hrun. split; [|done]. eapply frame_same_heap, Hm, Hrun. Qed.

Lemma framed_get_obj n owned r : framed n owned (get_obj r) (λ _, True).
Proof. apply framed_same_heap. by intros s a s' [= _ <-]. Qed.

Lemma framed_get_heap n owned : framed n owned get_heap (λ _, True).
Proof. apply framed_same_heap. by intros s a s' [= _ <-]. Qed.

Lemma framed_get_choices n owned : framed n owned get_choices (λ _, True).
Proof. apply framed_same_heap. by intros s a s' [= _ <-]. Qed.

Lemma framed_register_delete n owned k :
  framed n owned (register_delete k) (λ _, True).
Proof. apply framed_same_heap. by intros s a s' [= _ <-]. Qed.

Lemma framed_register_choices n owned nii rc d dds :
  framed n owned (register_choices nii rc d dds) (λ _, True).
Proof.
  apply framed_same_heap. intros s a s' Hrun.
  destruct (register_choices_run nii rc d dds s) as [choices Heq].
  rewrite Heq in Hrun. by injection Hrun as _ <-.
Qed.

Lemma framed_update_obj n owned f r :
  writable n owned r → framed n owned (update_obj f r) (λ _, True).
Proof.
  intros Hw s a s' Hn [= _ <-]. split; [|done]. split; simpl.
  - by rewrite length_mutate.
  - intros r' Hr' Hown. apply deref_mutate_ne. intros ->.
    destruct Hw; [done|lia].
Qed.

Lemma framed_new_obj n owned e :
  framed n owned (new_obj e) (writable n owned).
Proof.
  intros s a s' Hn [= <- <-]. split; [|by right]. split; simpl.
  - rewrite length_app. lia.
  - intros r Hr _. apply deref_app_l. lia.
Qed.

Lemma framed_new_objs n owned es :
  framed n owned (new_objs es) (Forall (writable n owned)).
Proof.
  intros s a s' Hn [= <- <-]. split.
  - split; simpl.
    + rewrite length_app. lia.
    + intros r Hr _. apply deref_app_l. lia.
  - apply Forall_seq. intros r Hr. right. lia.
Qed.

Lemma delete_if_matching_untouched dg d h matched dg' h' :
  delete_if_matching dg d h = (matched, dg', h') →
  List.length h' = List.length h ∧ ∀ r, r ≠ d → deref h' r = deref h r.
Proof.
  revert h matched dg' h'. induction dg as [|[k c] dg IH]; intros h matched dg' h'; simpl.
  { by intros [= <- <- <-]. }
  destruct (delete_if_matching dg d _) as [[m rest'] h2] eqn:Hrec.
  intros [= <- <- <-]. apply IH in Hrec as [Hlen Hread].
  destruct (delete_key_hits k (deref h d)).
  - split; [by rewrite Hlen, length_mutate|].
    intros r Hr. rewrite Hread by done. by apply deref_mutate_ne.
  - done.
Qed.

Lemma framed_delete_matching n owned d :
  writable n owned d → framed n owned (delete_matching d) (λ _, True).
Proof.
  intros Hw s a s' Hn. unfold delete_matching.
  destruct (delete_if_matching _ _ _) as [[m dg] h] eqn:Hdel.
  intros [= _ <-]. apply delete_if_matching_untouched in Hdel as [Hlen Hread].
  split; [|done]. split; simpl; [lia|].
  intros r Hr Hown. apply Hread. intros ->. destruct Hw; [done|lia].
Qed.

Lemma apply_rename_untouched rename defaults h renamed renamed' h' r :
  apply_rename rename defaults h renamed = (renamed', h') →
  r ∉ defaults → deref h' r = deref h r.
Proof.
  revert h renamed. induction defaults as [|d rest IH]; intros h renamed; simpl.
  { by intros [= <- <-]. }
  intros Hrun [Hne Hnotin]%not_elem_of_cons.
  destruct (is_matching (deref h rename) (deref h d)).
  - rewrite (IH _ _ Hrun Hnotin). by apply deref_mutate_ne.
  - by eapply IH.
Qed.

Lemma process_renames_loop_untouched fuel defaults h defaults' h' r :
  process_renames_loop fuel defaults h = Ok (defaults', h') →
  r ∉ defaults → deref h' r = deref h r.
Proof.
  revert defaults h. induction fuel as [|fuel IH]; intros defaults h; [done|].
  destruct (last_rename_index h defaults) as [idx|] eqn:Hidx.
  - apply last_rename_index_Some in Hidx as (front & x & back & -> & _ & Hx & Hback).
    rewrite process_renames_round by done.
    destruct (apply_rename x (front ++ back) h false) as [renamed h1] eqn:Happly.
    destruct renamed; [|done].
    intros Hrun Hnotin.
    assert (r ∉ front ++ back) as Hnotin'.
    { intros [?|?]%elem_of_app; apply Hnotin; set_solver. }
    rewrite (IH _ _ Hrun Hnotin'). by eapply apply_rename_untouched.
  - simpl. rewrite Hidx. by intros [= <- <-].
Qed.

Lemma framed_process_renames n owned defaults :
  Forall (writable n owned) defaults →
  framed n owned (on_heap (_process_renames defaults)) (Forall (writable n owned)).
Proof.
  intros Hw s a s' Hn. unfold on_heap.
  destruct (_process_renames defaults (st_heap s)) as [[l' h']| |] eqn:Hrun; [|done|done].
  intros [= <- <-].
  pose proof (process_renames_loop_result (S (List.length defaults)) defaults (st_heap s)) as Hres.
  unfold _process_renames in Hrun. rewrite Hrun in Hres.
  destruct Hres as (-> & _ & Hlen); [lia|].
  split.
  - split; simpl; [lia|]. intros r Hr Hown.
    eapply process_renames_loop_untouched; [exact Hrun|].
    intros Hin. rewrite Forall_forall in Hw. destruct (Hw r Hin); [done|lia].
  - apply Forall_forall. intros r [_ Hin]%list_elem_of_filter.
    rewrite Forall_forall in Hw. by apply Hw.
Qed.

Lemma framed_check_heap n owned (f : list DefaultElement → outcome unit) :
  framed n owned (check_heap f) (λ _, True).
Proof.
  apply framed_same_heap. intros s a s'. unfold check_heap, on_heap.
  destruct (f (st_heap s)) as [[]| |]; [|done|done]. by intros [= _ <-].
Qed.

Lemma validate_self_loop_untouched element effective has_self h has_self' h' r :
  validate_self_loop element effective has_self h = Ok (has_self', h') →
  r ∉ effective → deref h' r = deref h r.
Proof.
  revert has_self h. induction effective as [|d rest IH]; intros has_self h; simpl.
  { by intros [= <- <-]. }
  intros Hrun [Hne Hnotin]%not_elem_of_cons. revert Hrun.
  case_bool_decide.
  - destruct has_self.
    { by destruct (config_path _). }
    destruct (config_group (deref h d)); [done|].
    intros Hrun. rewrite (IH _ _ Hrun Hnotin).
    by rewrite !deref_mutate_ne.
  - intros Hrun. by eapply IH.
Qed.

Lemma framed_validate_self n owned element effective :
  Forall (writable n owned) effective →
  framed n owned (on_heap (_validate_self element effective))
    (Forall (writable n owned)).
Proof.
  intros Hw s a s' Hn. unfold on_heap, _validate_self.
  destruct (validate_self_loop element effective false (st_heap s))
    as [[has_self h1]| |] eqn:Hloop; [|done|done].
  pose proof (validate_self_loop_names _ _ _ _ _ _ Hloop) as [Hlen _].
  assert (∀ r, r < n → r ∉ owned → deref h1 r = deref (st_heap s) r) as Hread.
  { intros r Hr Hown. eapply validate_self_loop_untouched; [exact Hloop|].
    intros Hin. rewrite Forall_forall in Hw. destruct (Hw r Hin); [done|lia]. }
  destruct has_self.
  - intros [= <- <-]. split; [|done]. split; simpl; [lia|done].
  - simpl. intros [= <- <-]. split.
    + split; simpl.
      * rewrite !length_mutate, length_app. lia.
      * intros r Hr Hown.
        rewrite !deref_mutate_ne by lia. rewrite deref_app_l by lia. by apply Hread.
    + constructor; [right; lia|done].
Qed.

Lemma Forall_dedup (P : nat → Prop) h result :
  Forall P result → Forall P (dedup h result).
Proof.
  unfold dedup. generalize (∅ : gset string) as seen.
  intros seen Hall. revert seen.
  induction Hall as [|d rest Hd _ IH]; intros seen; simpl; [done|].
  destruct (config_group (deref h d)).
  - destruct (decide (_ ∈ seen)); [apply IH|]. constructor; [done|apply IH].
  - constructor; [done|apply IH].
Qed.

(** Closes the goals about singleton and empty result lists. *)
Ltac frame_post :=
  simpl; repeat split;
  repeat first [apply Forall_nil_2 | apply Forall_cons_2; [done|]]; done.

Section Frames.

Variable node_is_interpolation : string → bool.
Variable resolve_node :
  gmap string (option string) → list (option string * option string) →
  string → string → option (option string).
Variable resolve_choice : gmap string (option string) → string → string → reading.
Variable repo : ConfigRepository.

Lemma framed_expand_entry n owned rec self_name d :
  rec_framed rec →
  writable n owned d →
  framed n owned (expand_entry node_is_interpolation resolve_choice rec self_name d)
    (λ p, Forall (writable n owned) p.1 ∧ Forall (λ r, r = d) p.2).
Proof.
  intros Hrec Hd. unfold expand_entry.
  eapply framed_bind; [apply framed_get_obj|]. intros e _.
  eapply (framed_bind _ _ _ _
            (λ t, Forall (writable n owned) t.1.2 ∧ Forall (λ r, r = d) t.2)).
  - case_bool_decide.
    { destruct self_name; [|apply framed_raise].
      eapply framed_bind; [apply framed_new_obj|]. intros d' Hd'.
      eapply framed_bind; [apply framed_get_choices|]. intros choices _.
      eapply framed_bind.
      { destruct (dict_read _ _ choices _);
          [by apply framed_update_obj|by apply framed_update_obj|
           apply framed_raise]. }
      intros _ _. apply framed_ret. frame_post. }
    destruct (is_package_rename e).
    { apply framed_ret. frame_post. }
    destruct (is_delete e).
    { eapply framed_bind; [apply framed_register_delete|]. intros _ _.
      apply framed_ret. frame_post. }
    destruct (from_override e).
    { apply framed_ret. frame_post. }
    destruct (is_interpolation _ e).
    { apply framed_ret. frame_post. }
    eapply framed_bind; [by apply framed_delete_matching|]. intros [|] _.
    { apply framed_ret. frame_post. }
    eapply framed_bind; [apply framed_get_choices|]. intros choices _.
    eapply (framed_bind _ _ _ _ (λ _, True)).
    { destruct (dict_read _ _ choices _);
        [by apply framed_ret|by apply framed_update_obj|apply framed_raise]. }
    intros _ _. eapply framed_bind; [by apply Hrec|]. intros added Hadded.
    apply framed_ret. simpl. by split.
  - intros [[d' added] deferred] [Hadded Hdeferred]. simpl in *.
    eapply framed_bind; [apply framed_register_choices|]. intros _ _.
    by apply framed_ret.
Qed.

Lemma framed_expand_loop n owned rec self_name todo ret deferred
    (P : nat → Prop) :
  rec_framed rec →
  (∀ r, writable n owned r → P r) →
  Forall (writable n owned) todo →
  Forall (Forall P) ret →
  Forall P deferred →
  framed n owned (expand_loop node_is_interpolation resolve_choice rec self_name todo ret deferred)
    (λ p, Forall (Forall P) p.1 ∧ Forall P p.2).
Proof.
  intros Hrec HP Htodo. revert ret deferred.
  induction Htodo as [|d rest Hd _ IH]; intros ret deferred Hret Hdfr; simpl.
  { by apply framed_ret. }
  eapply framed_bind; [by apply framed_expand_entry|].
  intros [added dfr] [Hadded Hdfr']. simpl in *. apply IH.
  - apply Forall_app. split; [done|]. apply Forall_cons_2; [|done].
    eapply Forall_impl; [exact Hadded|done].
  - apply Forall_app. split; [done|].
    eapply Forall_impl; [exact Hdfr'|]. intros r ->. by apply HP.
Qed.

Lemma framed_resolve_interpolation n owned choices legacy d :
  writable n owned d →
  framed n owned (resolve_interpolation resolve_node choices legacy d) (λ _, True).
Proof.
  intros Hd. unfold resolve_interpolation.
  eapply framed_bind; [apply framed_get_obj|]. intros e _.
  destruct (config_group e); [|apply framed_raise].
  destruct (resolve_node _ _ _ _); [by apply framed_update_obj|apply framed_raise].
Qed.

Lemma framed_expand_deferred n owned rec choices legacy deferred result
    (P : nat → Prop) :
  rec_framed rec →
  (∀ r, writable n owned r → P r) →
  Forall (writable n owned) deferred →
  Forall P result →
  framed n owned (expand_deferred node_is_interpolation resolve_node rec
                    choices legacy deferred result)
    (Forall P).
Proof.
  intros Hrec HP Hdfr. revert result.
  induction Hdfr as [|d rest Hd _ IH]; intros result Hresult; simpl.
  { by apply framed_ret. }
  eapply framed_bind; [apply framed_get_obj|]. intros e _.
  eapply (framed_bind _ _ _ _ (λ _, True)).
  { destruct (is_interpolation _ e);
      [by apply framed_resolve_interpolation|by apply framed_ret]. }
  intros _ _. eapply framed_bind; [by apply Hrec|]. intros items Hitems.
  eapply framed_bind; [apply framed_get_heap|]. intros h _.
  destruct (list_index h result d) as [index|]; [|apply framed_raise].
  apply IH. rewrite <-(take_drop index result) in Hresult.
  apply Forall_app in Hresult as [? ?]. rewrite !Forall_app. split_and!; [done| |done].
  eapply Forall_impl; [exact Hitems|done].
Qed.

Lemma framed_expand_with n owned rec self_name original effective :
  rec_framed rec →
  Forall (writable n owned) effective →
  framed n owned (expand_with node_is_interpolation resolve_node resolve_choice rec self_name
                    original effective)
    (Forall (writable n owned)).
Proof.
  intros Hrec Heff. unfold expand_with.
  eapply framed_bind.
  { apply (framed_expand_loop _ _ _ _ _ _ _ (writable n owned));
      [done|done|by apply Forall_reverse|done|done]. }
  intros [ret deferred] [Hret Hdfr]. simpl in *.
  eapply framed_bind.
  { apply framed_process_renames. apply Forall_concat. by apply Forall_reverse. }
  intros result Hresult.
  eapply framed_bind; [apply framed_check_heap|]. intros _ _.
  eapply framed_bind; [apply framed_get_choices|]. intros choices2 _.
  eapply framed_bind; [by apply framed_expand_deferred|]. intros result' Hresult'.
  eapply framed_bind; [apply framed_get_heap|]. intros h _.
  apply framed_ret. by apply Forall_dedup.
Qed.

Lemma framed_compute_impl fuel :
  rec_framed (_compute_element_defaults_list_impl node_is_interpolation
                resolve_node resolve_choice repo fuel).
Proof.
  induction fuel as [|fuel IH]; intros n owned element Hel; simpl.
  { by intros s a s'. }
  eapply framed_bind; [by apply framed_delete_matching|]. intros [|] _.
  { by apply framed_ret. }
  eapply framed_bind; [apply framed_get_obj|]. intros e _.
  destruct (config_path e) as [path|]; [|apply framed_raise].
  destruct (load_config repo path (primary e)) as [loaded|].
  - eapply framed_bind; [apply framed_new_objs|]. intros effective Heff.
    eapply framed_bind; [by apply framed_validate_self|]. intros effective' Heff'.
    eapply framed_bind; [apply framed_get_obj|]. intros e' _.
    by apply framed_expand_with.
  - destruct (optional e).
    + eapply framed_bind; [by apply framed_update_obj|]. intros _ _.
      apply framed_ret. by apply Forall_cons.
    + by intros s a s'.
Qed.

End Frames.

(** ** A [_self_] entry anywhere in the seed list *)

Lemma is_self_valid h d : is_self h d → d < List.length h.
Proof.
  unfold is_self, deref. intros Hd.
  destruct (decide (d < List.length h)) as [|Hge]; [done|].
  rewrite list_lookup_total_alt, lookup_ge_None_2 in Hd by lia. done.
Qed.

Section SeedSelf.

Variable node_is_interpolation : string → bool.
Variable resolve_node :
  gmap string (option string) → list (option string * option string) →
  string → string → option (option string).
Variable resolve_choice : gmap string (option string) → string → string → reading.
Variable repo : ConfigRepository.

Lemma expand_loop_app rec self_name pre rest ret deferred s :
  expand_loop node_is_interpolation resolve_choice rec self_name (pre ++ rest) ret deferred s =
  (p ← expand_loop node_is_interpolation resolve_choice rec self_name pre ret deferred;
   expand_loop node_is_interpolation resolve_choice rec self_name rest p.1 p.2) s.
Proof.
  revert ret deferred s. induction pre as [|d pre IH]; intros ret deferred s; simpl.
  { done. }
  unfold mbind, M_bind.
  destruct (expand_entry _ _ rec self_name d s) as [[[added dfr] s1]| |]; [|done|done].
  apply IH.
Qed.

Lemma expand_loop_meets_self rec pre d rest s :
  rec_framed rec →
  is_self (st_heap s) d →
  d ∉ pre →
  ∀ r s', expand_loop node_is_interpolation resolve_choice rec None (pre ++ d :: rest)
            [] [] s ≠ Ok (r, s').
Proof.
  intros Hrec Hd Hnotin r s' Hrun.
  rewrite expand_loop_app in Hrun.
  apply bind_Ok in Hrun as ([ret1 dfr1] & s1 & Hpre & Hrest).
  destruct (framed_expand_loop node_is_interpolation resolve_choice
              (List.length (st_heap s)) pre rec None pre [] [] (λ _, True))
    with (s := s) (a := (ret1, dfr1)) (s' := s1) as [[_ Hread] _]; try done.
  { apply Forall_forall. intros x Hx. by left. }
  simpl in Hrest.
  rewrite (bind_Raise _ _ _ (ConfigCompositionException self_name_missing_msg))
    in Hrest; [done|].
  apply expand_entry_self_unnamed. unfold is_self.
  rewrite Hread; [done|by apply is_self_valid|done].
Qed.

(** With a [_self_] entry in the seed list the public entry point does not
    return a list. *)
Lemma expand_defaults_list_seed_self fuel defaults h d :
  d ∈ defaults →
  is_self h d →
  ∀ ret s, expand_defaults_list node_is_interpolation resolve_node resolve_choice repo
             fuel defaults h ≠ Ok (ret, s).
Proof.
  intros Hin Hd ret s Hrun.
  unfold expand_defaults_list, _expand_defaults_list in Hrun.
  destruct (seed_tables node_is_interpolation resolve_choice h (reverse defaults) ∅ []) as [choices dg].
  apply finish_Ok in Hrun as (ret0 & Hrun & _).
  unfold _expand_defaults_list_impl, expand_with in Hrun.
  apply bind_Ok in Hrun as (p & s1 & Hloop & _).
  destruct (first_self_split h (reverse defaults))
    as [Hno|(pre & d' & rest & Heq & Hpre & Hd')].
  { rewrite Forall_forall in Hno. apply (Hno d); [|done]. by apply elem_of_reverse. }
  rewrite Heq in Hloop. revert Hloop.
  apply expand_loop_meets_self; [apply framed_compute_impl|done|].
  intros Hx. rewrite Forall_forall in Hpre. by apply (Hpre d').
Qed.

End SeedSelf.

(** How a [_self_] entry is resolved.  The public [expand_defaults_list]
    is [_expand_defaults_list] called with no self name.  A [_self_] entry
    met without a self name raises "self_name is not specified and defaults
    list contains a _self_ item": the public entry point raises it for a
    seed list that ends in a [_self_] entry, and returns no list for a seed
    list with a [_self_] entry anywhere.  Under a self name, as
    [_expand_defaults_list] may be given one, the entry is copied and the
    copy gets the choice of its group when the dictionary has one and the
    self name otherwise, and the error does not arise. *)
Lemma self_name_spec :
  (∀ nii rn rc repo fuel defaults h,
     expand_defaults_list nii rn rc repo fuel defaults h =
     _expand_defaults_list nii rn rc repo fuel None defaults h) ∧
  (∀ nii rc rec d s,
     is_self (st_heap s) d →
     expand_entry nii rc rec None d s =
     Raise (ConfigCompositionException
              "self_name is not specified and defaults list contains a _self_ item")) ∧
  (∀ nii rn rc repo fuel front d h,
     is_self h d →
     expand_defaults_list nii rn rc repo fuel (front ++ [d]) h =
     Raise (ConfigCompositionException
              "self_name is not specified and defaults list contains a _self_ item")) ∧
  (∀ nii rn rc repo fuel defaults h d,
     d ∈ defaults →
     is_self h d →
     ∀ ret s, expand_defaults_list nii rn rc repo fuel defaults h ≠ Ok (ret, s)) ∧
  (∀ nii rc rec sn d s,
     is_self (st_heap s) d →
     let e := deref (st_heap s) d in
     match dict_read nii rc (group_to_choice s) (fully_qualified_group_name e) with
     | Value v =>
         expand_entry nii rc rec (Some sn) d s =
         Ok (([List.length (st_heap s)], []),
             {| st_heap := st_heap s ++ [set_config_name v e];
                group_to_choice := group_to_choice s;
                delete_groups := delete_groups s |})
     | Absent =>
         ∃ choices,
           expand_entry nii rc rec (Some sn) d s =
           Ok (([List.length (st_heap s)], []),
               {| st_heap := st_heap s ++ [set_config_name (Some sn) e];
                  group_to_choice := choices;
                  delete_groups := delete_groups s |})
     | Unreadable =>
         expand_entry nii rc rec (Some sn) d s = Raise InterpolationError
     end).
Proof.
  split_and!.
  - done.
  - apply expand_entry_self_unnamed.
  - apply expand_defaults_list_trailing_self.
  - apply expand_defaults_list_seed_self.
  - intros nii rc rec sn d s Hd e.
    pose proof (expand_entry_self_named nii rc rec sn d s Hd) as Hrun.
    cbv zeta in Hrun. fold e in Hrun.
    destruct (dict_read nii rc (group_to_choice s) (fully_qualified_group_name e));
      [by eexists|done|done].
Qed.

Lemma self_name_spec_witness :
  expand_defaults_list no_interpolation no_resolution no_choice_resolution demo_repo 3 [0; 1]
    [in_group "a" "a1"; top_level "_self_"] =
  Raise (ConfigCompositionException
           "self_name is not specified and defaults list contains a _self_ item").
Proof.
  apply (proj1 (proj2 (proj2 self_name_spec)) no_interpolation no_resolution no_choice_resolution
           demo_repo 3 [0] 1 [in_group "a" "a1"; top_level "_self_"]).
  reflexivity.
Defined.


(** ** Marks are never taken back *)

Lemma apply_rename_field {B} (proj : DefaultElement → B) rename defaults h renamed renamed' h' :
  (∀ v e, proj (set_package v e) = proj e) →
  apply_rename rename defaults h renamed = (renamed', h') →
  ∀ x, proj (deref h' x) = proj (deref h x).
Proof.
  intros Hproj. revert h renamed.
  induction defaults as [|d rest IH]; intros h renamed; simpl.
  { by intros [= <- <-]. }
  destruct (is_matching (deref h rename) (deref h d)); [|apply IH].
  intros Hrun x. rewrite (IH _ _ Hrun). by apply deref_mutate_field.
Qed.

Lemma process_renames_loop_field {B} (proj : DefaultElement → B) fuel defaults h defaults' h' :
  (∀ v e, proj (set_package v e) = proj e) →
  process_renames_loop fuel defaults h = Ok (defaults', h') →
  ∀ x, proj (deref h' x) = proj (deref h x).
Proof.
  intros Hproj. revert defaults h.
  induction fuel as [|fuel IH]; intros defaults h; [done|].
  destruct (last_rename_index h defaults) as [idx|] eqn:Hidx.
  - apply last_rename_index_Some in Hidx as (front & r & back & -> & _ & Hr & Hback).
    rewrite process_renames_round by done.
    destruct (apply_rename r (front ++ back) h false) as [renamed h1] eqn:Happly.
    destruct renamed; [|done].
    intros Hrun x. rewrite (IH _ _ Hrun).
    by eapply apply_rename_field.
  - simpl. rewrite Hidx. by intros [= <- <-].
Qed.

Lemma validate_self_loop_field {B} (proj : DefaultElement → B)
    element effective has_self h has_self' h' :
  (∀ v e, proj (set_package v e) = proj e) →
  (∀ v e, proj (set_config_group v e) = proj e) →
  validate_self_loop element effective has_self h = Ok (has_self', h') →
  ∀ x, proj (deref h' x) = proj (deref h x).
Proof.
  intros Hp Hg. revert has_self h.
  induction effective as [|d rest IH]; intros has_self h; simpl.
  { by intros [= <- <-]. }
  case_bool_decide; [|apply IH].
  destruct has_self.
  { by destruct (config_path _). }
  destruct (config_group (deref h d)); [done|].
  intros Hrun x. rewrite (IH _ _ Hrun). by rewrite !deref_mutate_field.
Qed.

(** A flag that is set belongs to an object of the store. *)
Lemma flag_valid (flag : DefaultElement → bool) (h : list DefaultElement) r :
  flag (default_element None None None) = false →
  flag (deref h r) = true → r < List.length h.
Proof.
  intros Hdefault Hflag.
  destruct (decide (r < List.length h)) as [|Hge]; [done|].
  unfold deref in Hflag.
  rewrite list_lookup_total_alt, lookup_ge_None_2 in Hflag by lia.
  simpl in Hflag. congruence.
Qed.

Lemma flags_kept_fields s s' :
  (∀ x, is_deleted (deref (st_heap s') x) = is_deleted (deref (st_heap s) x)) →
  (∀ x, skip_load (deref (st_heap s') x) = skip_load (deref (st_heap s) x)) →
  flags_kept s s'.
Proof. intros Hd Hs r. by rewrite Hd, Hs. Qed.

Lemma flags_kept_grow s es :
  flags_kept s (with_heap (st_heap s ++ es) s).
Proof.
  intros r. simpl. split; intros Hflag.
  - rewrite deref_app_l; [done|]. by eapply (flag_valid is_deleted).
  - rewrite deref_app_l; [done|]. by eapply (flag_valid skip_load).
Qed.

#[global] Instance marks_kept_refl : Reflexive marks_kept.
Proof. intros s. split; [by intros r|by intros k]. Qed.

#[global] Instance marks_kept_trans : Transitive marks_kept.
Proof.
  intros s1 s2 s3 [Hf1 Hk1] [Hf2 Hk2]. split.
  - intros r. destruct (Hf1 r), (Hf2 r). auto.
  - intros k Hk. auto.
Qed.

Lemma marks_kept_heap s h' :
  flags_kept s (with_heap h' s) → marks_kept s (with_heap h' s).
Proof. intros Hf. split; [done|by intros k]. Qed.

Lemma mutate_raises_flags f r s :
  (∀ e, is_deleted e = true → is_deleted (f e) = true) →
  (∀ e, skip_load e = true → skip_load (f e) = true) →
  flags_kept s (with_heap (mutate f r (st_heap s)) s).
Proof.
  intros Hd Hs x. simpl. unfold deref, mutate.
  rewrite !list_lookup_total_alt, list_lookup_alter.
  case_decide; subst; [|done].
  destruct (st_heap s !! x); simpl; auto.
Qed.

Lemma on_heap_marks {A} (f : list DefaultElement → outcome (A * list DefaultElement)) :
  (∀ h a h', f h = Ok (a, h') →
     (∀ x, is_deleted (deref h' x) = is_deleted (deref h x)) ∧
     (∀ x, skip_load (deref h' x) = skip_load (deref h x))) →
  preserves marks_kept (on_heap f).
Proof.
  intros Hf s a s'. unfold on_heap.
  destruct (f (st_heap s)) as [[a' h']| |] eqn:Hrun; [|done|done].
  intros [= _ <-]. apply marks_kept_heap.
  destruct (Hf _ _ _ Hrun). by apply flags_kept_fields.
Qed.

Lemma delete_if_matching_flags dg d h matched dg' h' x :
  delete_if_matching dg d h = (matched, dg', h') →
  (is_deleted (deref h x) = true → is_deleted (deref h' x) = true) ∧
  (skip_load (deref h x) = true → skip_load (deref h' x) = true).
Proof.
  revert h matched dg' h'. induction dg as [|[k c] dg IH]; intros h matched dg' h'; simpl.
  { by intros [= <- <- <-]. }
  destruct (delete_if_matching dg d _) as [[m rest'] h2] eqn:Hrec.
  intros [= <- <- <-]. apply IH in Hrec as [Hd Hs].
  destruct (delete_key_hits k (deref h d)); [|done].
  pose proof (mutate_raises_flags mark_deleted d
                {| st_heap := h; group_to_choice := ∅; delete_groups := [] |})
    as Hraise.
  destruct (Hraise (λ e He, eq_refl) (λ e He, eq_refl) x) as [Hd' Hs'].
  simpl in *. auto.
Qed.

Lemma validate_self_flags element effective h effective' h' x :
  _validate_self element effective h = Ok (effective', h') →
  (is_deleted (deref h x) = true → is_deleted (deref h' x) = true) ∧
  (skip_load (deref h x) = true → skip_load (deref h' x) = true).
Proof.
  unfold _validate_self.
  destruct (validate_self_loop element effective false h)
    as [[has_self h1]| |] eqn:Hloop; [|done|done].
  pose proof (validate_self_loop_field is_deleted _ _ _ _ _ _
                (λ _ _, eq_refl) (λ _ _, eq_refl) Hloop x) as Hd.
  pose proof (validate_self_loop_field skip_load _ _ _ _ _ _
                (λ _ _, eq_refl) (λ _ _, eq_refl) Hloop x) as Hs.
  destruct has_self.
  - intros [= <- <-]. by rewrite Hd, Hs.
  - simpl. intros [= <- <-].
    rewrite !(deref_mutate_field is_deleted), !(deref_mutate_field skip_load) by done.
    rewrite <-Hd, <-Hs. split; intros Hflag.
    + rewrite deref_app_l; [done|]. by eapply (flag_valid is_deleted).
    + rewrite deref_app_l; [done|]. by eapply (flag_valid skip_load).
Qed.

#[global] Instance marks_maintained nii rc : Maintained nii rc marks_kept.
Proof.
  split; try apply _.
  - intros v r s a s' [= _ <-]. apply marks_kept_heap.
    by apply mutate_raises_flags.
  - intros reason r s a s' [= _ <-]. apply marks_kept_heap.
    by apply mutate_raises_flags.
  - intros e s a s' [= _ <-]. apply marks_kept_heap, flags_kept_grow.
  - intros es s a s' [= _ <-]. apply marks_kept_heap, flags_kept_grow.
  - intros d dd s a s' Hrun.
    destruct (register_choice_run nii rc d dd s) as [choices Heq].
    rewrite Heq in Hrun. injection Hrun as _ <-. split; [by intros r|by intros k].
  - intros k s a s' [= _ <-]. split; [by intros r|].
    intros k' Hk'. simpl. destruct (dt_contains k (delete_groups s)); [done|].
    rewrite fmap_app. apply elem_of_app. by left.
  - intros d s a s'. unfold delete_matching.
    destruct (delete_if_matching _ _ _) as [[m dg] h] eqn:Hdel.
    intros [= _ <-]. split.
    + intros x. simpl. by eapply delete_if_matching_flags.
    + intros k Hk. simpl.
      apply delete_if_matching_spec in Hdel as [-> _].
      rewrite <-list_fmap_compose. by replace (_ ∘ _) with (fst : DeleteKey * nat → DeleteKey).
  - intros l. apply on_heap_marks. intros h a h' Hrun.
    split; intros x;
      [apply (process_renames_loop_field is_deleted _ _ _ _ _ (λ _ _, eq_refl) Hrun)
      |apply (process_renames_loop_field skip_load _ _ _ _ _ (λ _ _, eq_refl) Hrun)].
  - intros e l s a s'. unfold on_heap.
    destruct (_validate_self e l (st_heap s)) as [[l' h']| |] eqn:Hrun; [|done|done].
    intros [= _ <-]. apply marks_kept_heap. intros x.
    by eapply validate_self_flags.
Qed.

(** ** The caller's objects after a top-level expansion *)

Lemma delete_if_matching_field {B} (proj : DefaultElement → B) dg d h matched dg' h' :
  (∀ e, proj (mark_deleted e) = proj e) →
  delete_if_matching dg d h = (matched, dg', h') →
  ∀ x, proj (deref h' x) = proj (deref h x).
Proof.
  intros Hproj. revert h matched dg' h'.
  induction dg as [|[k c] dg IH]; intros h matched dg' h'; simpl.
  { by intros [= <- <- <-]. }
  destruct (delete_if_matching dg d _) as [[m rest'] h2] eqn:Hrec.
  intros [= <- <- <-] x. rewrite (IH _ _ _ _ Hrec).
  destruct (delete_key_hits k (deref h d)); [|done].
  by apply deref_mutate_field.
Qed.

(** What [delete_if_matching] leaves in the object it was asked about. *)
Lemma delete_if_matching_marks dg d h matched dg' h' :
  delete_if_matching dg d h = (matched, dg', h') →
  d < List.length h →
  deref h' d = if matched then mark_deleted (deref h d) else deref h d.
Proof.
  revert h matched dg' h'. induction dg as [|[k c] dg IH]; intros h matched dg' h'; simpl.
  { by intros [= <- <- <-]. }
  destruct (delete_if_matching dg d _) as [[m rest'] h2] eqn:Hrec.
  intros [= <- <- <-] Hd.
  destruct (delete_key_hits k (deref h d)); simpl.
  - rewrite (IH _ _ _ _ Hrec) by (by rewrite length_mutate).
    rewrite deref_mutate_eq by done. by destruct m, (deref h d).
  - by eapply IH.
Qed.

Section InPlace.

Variable node_is_interpolation : string → bool.
Variable resolve_node :
  gmap string (option string) → list (option string * option string) →
  string → string → option (option string).
Variable resolve_choice : gmap string (option string) → string → string → reading.
Variable repo : ConfigRepository.

#[local] Abbreviation compute := (_compute_element_defaults_list_impl
                                node_is_interpolation resolve_node resolve_choice repo).

(** Expanding an element through the loader leaves its name alone. *)
Lemma compute_impl_keeps_name fuel element s ret s' :
  compute fuel element s = Ok (ret, s') →
  element < List.length (st_heap s) →
  config_name (deref (st_heap s') element) = config_name (deref (st_heap s) element).
Proof.
  destruct fuel as [|fuel]; [done|]. simpl. intros Hrun Hvalid.
  apply bind_Ok in Hrun as (deleted & s1 & Hdel & Hrun).
  unfold delete_matching in Hdel.
  destruct (delete_if_matching _ _ _) as [[m dg] h1] eqn:Hdm.
  injection Hdel as -> <-.
  pose proof (delete_if_matching_field config_name _ _ _ _ _ _ (λ _, eq_refl) Hdm element)
    as Hname.
  apply delete_if_matching_untouched in Hdm as [Hlen _].
  destruct deleted.
  { by apply ret_Ok in Hrun as [_ <-]. }
  apply bind_Ok in Hrun as (e & s2 & [= <- <-] & Hrun).
  simpl in Hrun.
  destruct (config_path (deref h1 element)) as [path|]; [|done].
  destruct (load_config repo path _) as [loaded|].
  - rewrite <-Hname.
    assert (framed (List.length h1) []
              (effective ← new_objs loaded;
               effective ← on_heap (_validate_self element effective);
               e ← get_obj element;
               expand_with node_is_interpolation resolve_node resolve_choice (compute fuel)
                 (config_name e) loaded effective)
              (Forall (writable (List.length h1) []))) as Hframed.
    { eapply framed_bind; [apply framed_new_objs|]. intros effective Heff.
      eapply framed_bind; [by apply framed_validate_self|]. intros effective' Heff'.
      eapply framed_bind; [apply framed_get_obj|]. intros e' _.
      apply framed_expand_with; [apply framed_compute_impl|done]. }
    edestruct Hframed as [[_ Hread] _]; [|exact Hrun|]; [simpl; lia|].
    simpl in Hread. rewrite Hread; [done|lia|set_solver].
  - destruct (optional _); [|done].
    apply bind_Ok in Hrun as ([] & s3 & [= <-] & [_ <-]%ret_Ok).
    simpl. by rewrite (deref_mutate_field config_name).
Qed.

(** The deferred queue grows by entries of the list being walked. *)
Lemma expand_loop_deferred rec self_name todo acc deferred s acc' deferred' s' :
  rec_framed rec →
  expand_loop node_is_interpolation resolve_choice rec self_name todo acc deferred s =
    Ok ((acc', deferred'), s') →
  ∃ extra, deferred' = deferred ++ extra ∧ Forall (λ r, r ∈ todo) extra.
Proof.
  intros Hrec. revert acc deferred s.
  induction todo as [|d rest IH]; intros acc deferred s; simpl.
  { intros [[= <- <-] _]%ret_Ok. exists []. by rewrite app_nil_r. }
  intros ([added dfr] & s1 & Hentry & Hrest)%bind_Ok.
  destruct (framed_expand_entry node_is_interpolation resolve_choice 0 [] rec self_name d Hrec)
    with (s := s) (a := (added, dfr)) (s' := s1) as [_ [_ Hdfr]];
    [right; lia|lia|done|].
  apply IH in Hrest as (extra & -> & Hextra).
  exists (dfr ++ extra). split; [by rewrite (assoc_L (++))|].
  apply Forall_app. split.
  - eapply Forall_impl; [exact Hdfr|]. intros r ->. by left.
  - eapply Forall_impl; [exact Hextra|]. intros r Hr. by right.
Qed.

End InPlace.

Lemma process_renames_length defaults h defaults' h' :
  _process_renames defaults h = Ok (defaults', h') →
  List.length h' = List.length h.
Proof.
  intros Hrun.
  pose proof (process_renames_loop_result (S (List.length defaults)) defaults h) as Hres.
  unfold _process_renames in Hrun. rewrite Hrun in Hres.
  destruct Hres as (_ & _ & ?); [lia|done].
Qed.

Lemma writable_zero owned r : writable 0 owned r.
Proof. right. lia. Qed.

Lemma Forall_writable_zero owned (l : list nat) : Forall (writable 0 owned) l.
Proof. apply Forall_forall. intros r _. apply writable_zero. Qed.

Lemma Forall_writable_owned n (l : list nat) : Forall (writable n l) l.
Proof. apply Forall_forall. intros r Hr. by left. Qed.

Section Around.

Variable node_is_interpolation : string → bool.
Variable resolve_node :
  gmap string (option string) → list (option string * option string) →
  string → string → option (option string).
Variable resolve_choice : gmap string (option string) → string → string → reading.
Variable repo : ConfigRepository.

#[local] Abbreviation compute := (_compute_element_defaults_list_impl
                                node_is_interpolation resolve_node resolve_choice repo).

(** The passes that follow the main loop, seen from an object that is not
    in the deferred queue: its name stays, and marks are kept. *)
Lemma after_loop_keeps fuel original acc deferred s3 ret s d n :
  (on_heap (_process_renames (concat (reverse acc))) ≫= λ result,
   check_heap (λ h, _verify_no_add_conflicts h result) ≫= λ _,
   get_choices ≫= λ choices2,
   expand_deferred node_is_interpolation resolve_node (compute fuel) choices2
     (map (λ d, (config_group d, config_name d)) original) deferred result ≫= λ result,
   get_heap ≫= λ h, mret (dedup h result)) s3 = Ok (ret, s) →
  (∀ R, Maintained node_is_interpolation resolve_choice R → R s3 s) ∧
  (d < n → n ≤ List.length (st_heap s3) → d ∉ deferred →
   config_name (deref (st_heap s) d) = config_name (deref (st_heap s3) d)).
Proof.
  intros Hrun.
  apply bind_Ok in Hrun as (result & s4 & Hren & Hrun).
  apply bind_Ok in Hrun as ([] & s5 & Hchk & Hrun).
  apply bind_Ok in Hrun as (choices2 & s6 & [= <- <-] & Hrun).
  apply bind_Ok in Hrun as (result' & s7 & Hdfr & Hrun).
  apply bind_Ok in Hrun as (h7 & s8 & [= <- <-] & [_ <-]%ret_Ok).
  split.
  { intros R HR.
    pose proof (maintained_process_renames (R := R) _ _ _ _ Hren) as Hm34.
    pose proof (preserves_check_heap R node_is_interpolation resolve_choice
                  _ _ _ _ Hchk) as Hm45.
    pose proof (preserves_expand_deferred R node_is_interpolation resolve_node
                  resolve_choice (compute fuel) _ _ _ _
                  (λ r, preserves_compute_impl R _ _ _ _ fuel r) _ _ _ Hdfr) as Hm57.
    by repeat (etrans; [eassumption|]). }
  intros Hd Hn Hnotin.
  assert (st_heap s5 = st_heap s4) as Hh45.
  { revert Hchk. unfold check_heap, on_heap.
    destruct (_verify_no_add_conflicts _ _) as [[]| |]; [|done|done].
    by intros [= <-]. }
  assert (List.length (st_heap s4) = List.length (st_heap s3) ∧
          config_name (deref (st_heap s4) d) = config_name (deref (st_heap s3) d))
    as [Hlen34 Hname34].
  { revert Hren. unfold on_heap.
    destruct (_process_renames _ (st_heap s3)) as [[l' h']| |] eqn:Hpr; [|done|done].
    intros [= _ <-]. simpl. split.
    - by eapply process_renames_length.
    - by apply (process_renames_loop_field config_name _ _ _ _ _ (λ _ _, eq_refl) Hpr). }
  edestruct (framed_expand_deferred node_is_interpolation resolve_node n deferred
               (compute fuel) (group_to_choice s5)
               (map (λ d, (config_group d, config_name d)) original)
               deferred result (λ _, True)) as [[_ Hread] _];
    [apply framed_compute_impl|done|apply Forall_writable_owned
    |by apply Forall_forall| |exact Hdfr|].
  { rewrite Hh45. lia. }
  rewrite Hread by done. by rewrite Hh45.
Qed.

(** A successful top-level expansion, split at one entry of the seed
    list: the state in which the entry is reached and what is known of the
    state at the end. *)
Lemma expand_run_around fuel self_name front d back h ret s :
  _expand_defaults_list node_is_interpolation resolve_node resolve_choice repo fuel self_name
    (front ++ d :: back) h = Ok (ret, s) →
  d ∉ back →
  d < List.length h →
  ∃ s1 added dfr s2,
    deref (st_heap s1) d = deref h d ∧
    List.length h ≤ List.length (st_heap s1) ∧
    expand_entry node_is_interpolation resolve_choice (compute fuel) self_name d s1 =
      Ok ((added, dfr), s2) ∧
    (∀ R, Maintained node_is_interpolation resolve_choice R →
       R {| st_heap := h;
            group_to_choice := (seed_tables node_is_interpolation resolve_choice h (reverse (front ++ d :: back)) ∅ []).1;
            delete_groups := (seed_tables node_is_interpolation resolve_choice h (reverse (front ++ d :: back)) ∅ []).2 |}
         s1 ∧
       R s1 s2 ∧ R s2 s) ∧
    (d ∉ front → dfr = [] →
     config_name (deref (st_heap s) d) = config_name (deref (st_heap s2) d)).
Proof.
  intros Hrun Hback Hvalid.
  unfold _expand_defaults_list in Hrun.
  destruct (seed_tables node_is_interpolation resolve_choice h (reverse (front ++ d :: back)) ∅ []) as [choices dg] eqn:Hseed.
  simpl.
  apply finish_Ok in Hrun as (ret0 & Hrun & _).
  unfold _expand_defaults_list_impl, expand_with in Hrun.
  apply bind_Ok in Hrun as ([acc3 dfr3] & s3 & Hloop & Hafter).
  rewrite reverse_app, reverse_cons, <-(assoc_L (++)) in Hloop. simpl in Hloop.
  rewrite expand_loop_app in Hloop.
  apply bind_Ok in Hloop as ([acc1 dfr1] & s1 & Hloop1 & Hloop).
  simpl in Hloop.
  apply bind_Ok in Hloop as ([added dfr] & s2 & Hentry & Hloop3).
  pose proof (framed_compute_impl node_is_interpolation resolve_node resolve_choice repo fuel) as Hrec.
  (* the entries behind [d] *)
  edestruct (framed_expand_loop node_is_interpolation resolve_choice (List.length h)
               (reverse back) (compute fuel) self_name (reverse back) [] []
               (λ _, True))
    as [[Hlen1 Hread1] _];
    [done|done|apply Forall_writable_owned|done|done| |exact Hloop1|]; [done|].
  simpl in Hlen1, Hread1.
  (* the entry itself *)
  edestruct (framed_expand_entry node_is_interpolation resolve_choice 0 [] (compute fuel) self_name d)
    as [[Hlen2 _] _]; [done|apply writable_zero| |exact Hentry|]; [lia|].
  exists s1, added, dfr, s2.
  destruct (after_loop_keeps _ _ _ _ _ _ _ d (List.length h) Hafter) as [Hm3 Hname3].
  split_and!.
  - apply Hread1; [done|]. by rewrite elem_of_reverse.
  - done.
  - done.
  - intros R HR.
    pose proof (λ r, preserves_compute_impl R node_is_interpolation
                       resolve_node resolve_choice repo fuel r) as Hmrec.
    split_and!.
    + by eapply (preserves_expand_loop R node_is_interpolation resolve_choice).
    + by eapply (preserves_expand_entry R node_is_interpolation resolve_choice).
    + etrans; [|by apply Hm3].
      by eapply (preserves_expand_loop R node_is_interpolation resolve_choice).
  - intros Hfront ->.
    edestruct (framed_expand_loop node_is_interpolation resolve_choice (List.length h)
                 (reverse front) (compute fuel) self_name (reverse front)
                 (acc1 ++ [added]) (dfr1 ++ []) (λ _, True))
      as [[Hlen3 Hread3] _];
      [done|done|apply Forall_writable_owned| | | |exact Hloop3|].
    { apply Forall_forall. intros l _. by apply Forall_forall. }
    { by apply Forall_forall. }
    { lia. }
    rewrite Hname3.
    + f_equal. apply Hread3; [done|]. by rewrite elem_of_reverse.
    + done.
    + lia.
    + apply expand_loop_deferred in Hloop1 as (extra1 & -> & Hextra1); [|done].
      apply expand_loop_deferred in Hloop3 as (extra3 & -> & Hextra3); [|done].
      rewrite Forall_forall in Hextra1, Hextra3.
      rewrite !elem_of_app. intros [[[?%not_elem_of_nil|Hx]|?%not_elem_of_nil]|Hx]; try done.
      * apply Hextra1 in Hx. by rewrite elem_of_reverse in Hx.
      * apply Hextra3 in Hx. by rewrite elem_of_reverse in Hx.
Qed.

End Around.


Section Caller.

Variable node_is_interpolation : string → bool.
Variable resolve_node :
  gmap string (option string) → list (option string * option string) →
  string → string → option (option string).
Variable resolve_choice : gmap string (option string) → string → string → reading.
Variable repo : ConfigRepository.

#[local] Abbreviation compute := (_compute_element_defaults_list_impl
                                    node_is_interpolation resolve_node resolve_choice repo).

(** A plain entry that no delete key selects: the choice of its group, if
    the dictionary has one, is written into the entry, and the entry goes
    to the loader. *)
Lemma expand_entry_plain_run rec self_name d s c :
  let e := deref (st_heap s) d in
  plain_entry node_is_interpolation e →
  Forall (λ kc, delete_key_hits kc.1 e = false) (delete_groups s) →
  dict_read node_is_interpolation resolve_choice (group_to_choice s)
    (fully_qualified_group_name e) = read_as c →
  expand_entry node_is_interpolation resolve_choice rec self_name d s =
  (added ← rec d;
   register_choices node_is_interpolation resolve_choice d (reverse added);;
   mret (added, []))
    (with_heap (alter (with_choice c) d (st_heap s)) s).
Proof.
  intros e Hplain Hno Hc.
  rewrite expand_entry_plain by done. fold e. rewrite Hc.
  destruct c as [v|]; simpl; [done|].
  replace (with_heap (alter (with_choice None) d (st_heap s)) s) with s; [done|].
  destruct s as [hp ch dg]. unfold with_heap. simpl. f_equal.
  symmetry. by apply list_alter_id.
Qed.

(** A plain entry that a delete key selects is marked and not expanded. *)
Lemma expand_entry_plain_deleted rec self_name d s :
  let e := deref (st_heap s) d in
  plain_entry node_is_interpolation e →
  Exists (λ kc, delete_key_hits kc.1 e = true) (delete_groups s) →
  d < List.length (st_heap s) →
  ∃ s', expand_entry node_is_interpolation resolve_choice rec self_name d s = Ok (([d], []), s') ∧
        deref (st_heap s') d = mark_deleted e.
Proof.
  intros e (Hself & Hren & Hdel & Hov & Hint) Hhit Hvalid. unfold expand_entry.
  rewrite (bind_run (get_obj d) _ s _ s eq_refl). fold e.
  rewrite bool_decide_eq_false_2 by done. rewrite Hren, Hdel, Hov, Hint.
  destruct (delete_if_matching (delete_groups s) d (st_heap s))
    as [[m dg] h1] eqn:Hdm.
  pose proof (delete_if_matching_spec _ _ _ _ _ _ Hdm) as [_ Hm].
  rewrite bool_decide_eq_true_2 in Hm by done. subst m.
  pose proof (delete_if_matching_marks _ _ _ _ _ _ Hdm Hvalid) as Hread.
  set (s1 := {| st_heap := h1; group_to_choice := group_to_choice s;
                delete_groups := dg |}).
  assert (delete_matching d s = Ok (true, s1)) as Hrun.
  { unfold delete_matching. by rewrite Hdm. }
  destruct (register_choices_run node_is_interpolation resolve_choice d (reverse [d]) s1)
    as [choices Hreg].
  eexists. split.
  - erewrite bind_run; last first.
    { erewrite bind_run; [|exact Hrun]. reflexivity. }
    cbv beta iota. erewrite bind_run; [|exact Hreg]. reflexivity.
  - done.
Qed.

Lemma no_hit_earlier s1 s e :
  keys_kept s1 s →
  Forall (λ kc, delete_key_hits kc.1 e = false) (delete_groups s) →
  Forall (λ kc, delete_key_hits kc.1 e = false) (delete_groups s1).
Proof.
  intros Hkeys Hno. apply Forall_forall. intros kc Hin.
  assert (kc.1 ∈ (delete_groups s).*1) as Hk.
  { apply Hkeys. apply list_elem_of_fmap. by exists kc. }
  apply list_elem_of_fmap in Hk as (kc' & Heq & Hin').
  rewrite Forall_forall in Hno. rewrite Heq. by apply Hno.
Qed.

(** What the dictionary has for a group when a seed entry is reached: an
    ordinary value of the seed list is still there, and a key that is not
    there at the end is not there yet. *)
Lemma choice_when_reached s0 s1 s f c :
  choices_preserved node_is_interpolation s0 s1 →
  choices_preserved node_is_interpolation s1 s →
  settled_choice node_is_interpolation (group_to_choice s0) (group_to_choice s) f c →
  dict_read node_is_interpolation resolve_choice (group_to_choice s1) f = read_as c.
Proof.
  intros [Hv01 _] [_ Hk1s] Hc. destruct c as [v|]; simpl in *.
  - destruct Hc as [Hseed Hord]. apply dict_read_ordinary; [|done]. by apply Hv01.
  - apply dict_read_unset. left. by apply Hk1s.
Qed.

(** The run of a plain seed entry that no delete key selects, up to the
    call of the loader. *)
Lemma seed_entry_reaches_loader fuel self_name front d back h ret s c :
  _expand_defaults_list node_is_interpolation resolve_node resolve_choice repo fuel self_name
    (front ++ d :: back) h = Ok (ret, s) →
  d ∉ back →
  d < List.length h →
  plain_entry node_is_interpolation (deref h d) →
  settled_choice node_is_interpolation (seed_tables node_is_interpolation resolve_choice h (reverse (front ++ d :: back)) ∅ []).1
    (group_to_choice s) (fully_qualified_group_name (deref h d)) c →
  Forall (λ kc, delete_key_hits kc.1 (deref h d) = false) (delete_groups s) →
  ∃ s1 added s2,
    d < List.length (st_heap s1) ∧
    deref (st_heap s1) d = with_choice c (deref h d) ∧
    keys_kept s1 s ∧
    compute fuel d s1 = Ok (added, s2) ∧
    marks_kept s2 s ∧
    (d ∉ front →
     config_name (deref (st_heap s) d) = config_name (deref (st_heap s2) d)).
Proof.
  intros Hrun Hback Hvalid Hplain Hc Hno.
  destruct (expand_run_around node_is_interpolation resolve_node resolve_choice repo
              _ _ _ _ _ _ _ _ Hrun Hback Hvalid)
    as (s1 & added & dfr & s2 & Hread & Hlen & Hentry & Hrel & Hname).
  destruct (Hrel (choices_preserved node_is_interpolation) _) as (Hch01 & Hch12 & Hch2).
  destruct (Hrel marks_kept _) as (Hm01 & [_ Hk12] & [Hf2 Hk2]).
  assert (dict_read node_is_interpolation resolve_choice (group_to_choice s1)
            (fully_qualified_group_name (deref h d)) = read_as c) as Hcs1.
  { eapply choice_when_reached; [exact Hch01|by etrans|exact Hc]. }
  rewrite (expand_entry_plain_run _ _ _ _ c) in Hentry; rewrite ?Hread;
    [|done| |done]; last first.
  { eapply no_hit_earlier; [|exact Hno]. intros k Hk. auto. }
  apply bind_Ok in Hentry as (added' & s2' & Hcompute & Hentry).
  apply bind_Ok in Hentry as ([] & s2'' & Hreg & [[= <- <-] <-]%ret_Ok).
  destruct (register_choices_run node_is_interpolation resolve_choice d (reverse added') s2')
    as [choices Hreg'].
  rewrite Hreg' in Hreg. injection Hreg as <-.
  eexists _, added', s2'. split_and!; [| | |exact Hcompute| |].
  - simpl. rewrite length_alter. lia.
  - simpl. unfold deref. rewrite list_lookup_total_alt, list_lookup_alter_eq.
    destruct (lookup_lt_is_Some_2 (st_heap s1) d) as [x Hx]; [lia|].
    rewrite Hx. simpl. f_equal.
    unfold deref in Hread. by rewrite list_lookup_total_alt, Hx in Hread.
  - intros k Hk. simpl in Hk. auto.
  - split; [done|]. done.
  - intros Hfront. by rewrite Hname.
Qed.

(** A plain seed entry that no delete key selects ends up named after the
    choice of its group. *)
Lemma seed_entry_renamed fuel self_name front d back h ret s c :
  _expand_defaults_list node_is_interpolation resolve_node resolve_choice repo fuel self_name
    (front ++ d :: back) h = Ok (ret, s) →
  d ∉ front → d ∉ back →
  d < List.length h →
  plain_entry node_is_interpolation (deref h d) →
  settled_choice node_is_interpolation (seed_tables node_is_interpolation resolve_choice h (reverse (front ++ d :: back)) ∅ []).1
    (group_to_choice s) (fully_qualified_group_name (deref h d)) c →
  Forall (λ kc, delete_key_hits kc.1 (deref h d) = false) (delete_groups s) →
  config_name (deref (st_heap s) d) = config_name (with_choice c (deref h d)).
Proof.
  intros Hrun Hfront Hback Hvalid Hplain Hc Hno.
  destruct (seed_entry_reaches_loader _ _ _ _ _ _ _ _ _ Hrun Hback Hvalid Hplain Hc Hno)
    as (s1 & added & s2 & Hv1 & Hread & _ & Hcompute & _ & Hname).
  rewrite Hname by done.
  rewrite (compute_impl_keeps_name _ _ _ _ _ _ _ _ _ Hcompute Hv1). by rewrite Hread.
Qed.

(** A plain seed entry selected by a delete key of the seed list ends up
    marked deleted and skip-load. *)
Lemma seed_entry_deleted fuel self_name front d back h ret s k :
  _expand_defaults_list node_is_interpolation resolve_node resolve_choice repo fuel self_name
    (front ++ d :: back) h = Ok (ret, s) →
  d ∉ back →
  d < List.length h →
  plain_entry node_is_interpolation (deref h d) →
  k ∈ (seed_tables node_is_interpolation resolve_choice h (reverse (front ++ d :: back)) ∅ []).2.*1 →
  delete_key_hits k (deref h d) = true →
  is_deleted (deref (st_heap s) d) = true ∧ skip_load (deref (st_heap s) d) = true.
Proof.
  intros Hrun Hback Hvalid Hplain Hk Hhit.
  destruct (expand_run_around node_is_interpolation resolve_node resolve_choice repo
              _ _ _ _ _ _ _ _ Hrun Hback Hvalid)
    as (s1 & added & dfr & s2 & Hread & Hlen & Hentry & Hrel & _).
  destruct (Hrel marks_kept _) as ([_ Hk01] & _ & [Hf2 _]).
  destruct (expand_entry_plain_deleted (compute fuel) self_name d s1)
    as (s2' & Hentry' & Hmarked).
  - by rewrite Hread.
  - rewrite Hread. apply Hk01 in Hk. simpl in Hk.
    apply list_elem_of_fmap in Hk as (kc & -> & Hin).
    apply Exists_exists. by exists kc.
  - lia.
  - rewrite Hentry' in Hentry. injection Hentry as _ _ <-.
    destruct (Hf2 d) as [Hd Hs]. rewrite Hmarked in Hd, Hs. auto.
Qed.

(** A plain optional seed entry whose fragment is missing ends up marked
    skip-load. *)
Lemma seed_entry_skipped fuel self_name front d back h ret s c path :
  _expand_defaults_list node_is_interpolation resolve_node resolve_choice repo fuel self_name
    (front ++ d :: back) h = Ok (ret, s) →
  d ∉ back →
  d < List.length h →
  plain_entry node_is_interpolation (deref h d) →
  settled_choice node_is_interpolation (seed_tables node_is_interpolation resolve_choice h (reverse (front ++ d :: back)) ∅ []).1
    (group_to_choice s) (fully_qualified_group_name (deref h d)) c →
  Forall (λ kc, delete_key_hits kc.1 (deref h d) = false) (delete_groups s) →
  Forall (λ kc, delete_key_hits kc.1 (with_choice c (deref h d)) = false)
    (delete_groups s) →
  config_path (with_choice c (deref h d)) = Some path →
  load_config repo path (primary (deref h d)) = None →
  optional (deref h d) = true →
  skip_load (deref (st_heap s) d) = true.
Proof.
  intros Hrun Hback Hvalid Hplain Hc Hno Hno' Hpath Hload Hopt.
  destruct (seed_entry_reaches_loader _ _ _ _ _ _ _ _ _ Hrun Hback Hvalid Hplain Hc Hno)
    as (s1 & added & s2 & Hv1 & Hread & Hk1 & Hcompute & [Hf2 _] & _).
  assert (primary (with_choice c (deref h d)) = primary (deref h d) ∧
          optional (with_choice c (deref h d)) = optional (deref h d)) as [Hprim Hoptc].
  { by destruct c. }
  destruct fuel as [|fuel]; [done|].
  rewrite (compute_impl_not_found _ _ _ _ _ _ _ path) in Hcompute.
  - rewrite Hread, Hoptc, Hopt in Hcompute. injection Hcompute as _ <-.
    apply (Hf2 d). simpl. by rewrite deref_mutate_eq.
  - by rewrite Hread.
  - by rewrite Hread, Hprim.
  - apply delete_matching_no_hit. rewrite Hread. by eapply no_hit_earlier.
Qed.

End Caller.


(** C10. [expand_defaults_list] works on the caller's objects: the entries
    of the caller's list are the working list [effective] itself, and only
    their values at the time of the call are kept, as [original].  When the
    call returns, a plain entry of the caller's list that no delete key
    selects carries the name the seed list recorded as the choice of its
    group, when that is an ordinary name, and its own name when the
    dictionary has no key for its group to the end; a plain entry that a
    delete key of the list selects is flagged deleted and skip-load; a
    plain optional entry whose fragment is missing is flagged skip-load.
    There is a call that returns and leaves the caller's objects different
    from what they were. *)
Theorem expansion_mutates_caller_objects :
  (∀ nii rn rc repo fuel defaults h,
     expand_defaults_list nii rn rc repo fuel defaults h =
     let tables := seed_tables nii rc h (reverse defaults) ∅ [] in
     finish (_expand_defaults_list_impl nii rn rc repo fuel None
               (map (deref h) defaults) defaults
               {| st_heap := h; group_to_choice := tables.1;
                  delete_groups := tables.2 |})) ∧
  (∀ nii rn rc repo fuel front d back h ret s c,
     expand_defaults_list nii rn rc repo fuel (front ++ d :: back) h = Ok (ret, s) →
     d ∉ front → d ∉ back →
     d < List.length h →
     plain_entry nii (deref h d) →
     settled_choice nii (seed_tables nii rc h (reverse (front ++ d :: back)) ∅ []).1
       (group_to_choice s) (fully_qualified_group_name (deref h d)) c →
     Forall (λ kc, delete_key_hits kc.1 (deref h d) = false) (delete_groups s) →
     config_name (deref (st_heap s) d) = config_name (with_choice c (deref h d))) ∧
  (∀ nii rn rc repo fuel front d back h ret s k,
     expand_defaults_list nii rn rc repo fuel (front ++ d :: back) h = Ok (ret, s) →
     d ∉ back →
     d < List.length h →
     plain_entry nii (deref h d) →
     k ∈ (seed_tables nii rc h (reverse (front ++ d :: back)) ∅ []).2.*1 →
     delete_key_hits k (deref h d) = true →
     is_deleted (deref (st_heap s) d) = true ∧
     skip_load (deref (st_heap s) d) = true) ∧
  (∀ nii rn rc repo fuel front d back h ret s c path,
     expand_defaults_list nii rn rc repo fuel (front ++ d :: back) h = Ok (ret, s) →
     d ∉ back →
     d < List.length h →
     plain_entry nii (deref h d) →
     settled_choice nii (seed_tables nii rc h (reverse (front ++ d :: back)) ∅ []).1
       (group_to_choice s) (fully_qualified_group_name (deref h d)) c →
     Forall (λ kc, delete_key_hits kc.1 (deref h d) = false) (delete_groups s) →
     Forall (λ kc, delete_key_hits kc.1 (with_choice c (deref h d)) = false)
       (delete_groups s) →
     config_path (with_choice c (deref h d)) = Some path →
     load_config repo path (primary (deref h d)) = None →
     optional (deref h d) = true →
     skip_load (deref (st_heap s) d) = true) ∧
  (∃ defaults h ret s,
     expand_defaults_list no_interpolation no_resolution no_choice_resolution demo_repo 3 defaults h =
       Ok (ret, s) ∧
     map (deref (st_heap s)) defaults ≠ map (deref h) defaults).
Proof.
  split_and!.
  - intros nii rn rc repo fuel defaults h.
    unfold expand_defaults_list, _expand_defaults_list.
    by destruct (seed_tables nii rc h (reverse defaults) ∅ []).
  - intros nii rn rc repo fuel front d back h ret s c.
    apply (seed_entry_renamed nii rn rc repo fuel None).
  - intros nii rn rc repo fuel front d back h ret s k.
    apply (seed_entry_deleted nii rn rc repo fuel None).
  - intros nii rn rc repo fuel front d back h ret s c path.
    apply (seed_entry_skipped nii rn rc repo fuel None).
  - exists [0; 1], [in_group "a" "a1"; in_group "a" "a6"].
    eexists _, _. split; [vm_compute; reflexivity|]. vm_compute. discriminate.
Qed.

(** The seed list [a=a1, a=a6, optional b=bx, c=c1] with the override [~c]:
    the caller's first entry is renamed to [a6], the third is flagged
    skip-load, the fourth is flagged deleted and skip-load.  The seed list
    [a=a1, a=???]: the name [???] counts as no choice, the seed list records
    [a1], and the caller's second entry is renamed to [a1]. *)
Lemma expansion_mutates_caller_objects_witness :
  (∃ ret s,
     expand_defaults_list no_interpolation no_resolution no_choice_resolution demo_repo 3 [0; 1; 2; 3; 4]
       [in_group "a" "a1"; in_group "a" "a6"; set_optional true (in_group "b" "bx");
        in_group "c" "c1"; delete_override_of "c"] = Ok (ret, s) ∧
     config_name (deref (st_heap s) 0) = Some "a6" ∧
     (is_deleted (deref (st_heap s) 3) = true ∧
      skip_load (deref (st_heap s) 3) = true) ∧
     skip_load (deref (st_heap s) 2) = true) ∧
  (∃ ret s,
     expand_defaults_list no_interpolation no_resolution no_choice_resolution demo_repo 3 [0; 1]
       [in_group "a" "a1"; in_group "a" "???"] = Ok (ret, s) ∧
     config_name (deref (st_heap s) 1) = Some "a1").
Proof.
  split.
  - eexists _, _. split; [vm_compute; reflexivity|]. split; [|split].
    + eapply (proj1 (proj2 expansion_mutates_caller_objects)
                no_interpolation no_resolution no_choice_resolution demo_repo 3 [] 0 [1; 2; 3; 4]
                [in_group "a" "a1"; in_group "a" "a6";
                 set_optional true (in_group "b" "bx");
                 in_group "c" "c1"; delete_override_of "c"] _ _
                (Some (Some "a6"))).
      * vm_compute. reflexivity.
      * apply not_elem_of_nil.
      * vm_compute. set_solver.
      * simpl. lia.
      * split_and!; [discriminate|reflexivity..].
      * split; [vm_compute; reflexivity|]. split; [discriminate|reflexivity].
      * repeat constructor.
    + eapply (proj1 (proj2 (proj2 expansion_mutates_caller_objects))
                no_interpolation no_resolution no_choice_resolution demo_repo 3 [0; 1; 2] 3 [4]
                [in_group "a" "a1"; in_group "a" "a6";
                 set_optional true (in_group "b" "bx");
                 in_group "c" "c1"; delete_override_of "c"] _ _
                {| fqgn := "c"; dk_config_name := None; must_delete := true |}).
      * vm_compute. reflexivity.
      * set_solver.
      * simpl. lia.
      * split_and!; [discriminate|reflexivity..].
      * vm_compute. apply list_elem_of_here.
      * vm_compute. reflexivity.
    + eapply (proj1 (proj2 (proj2 (proj2 expansion_mutates_caller_objects)))
                no_interpolation no_resolution no_choice_resolution demo_repo 3 [0; 1] 2 [3; 4]
                [in_group "a" "a1"; in_group "a" "a6";
                 set_optional true (in_group "b" "bx");
                 in_group "c" "c1"; delete_override_of "c"] _ _
                (Some (Some "bx")) "b/bx").
      * vm_compute. reflexivity.
      * set_solver.
      * simpl. lia.
      * split_and!; [discriminate|reflexivity..].
      * split; [vm_compute; reflexivity|]. split; [discriminate|reflexivity].
      * repeat constructor.
      * repeat constructor.
      * reflexivity.
      * vm_compute. reflexivity.
      * reflexivity.
  - eexists _, _. split; [vm_compute; reflexivity|].
    eapply (proj1 (proj2 expansion_mutates_caller_objects)
              no_interpolation no_resolution no_choice_resolution demo_repo 3 [0] 1 []
              [in_group "a" "a1"; in_group "a" "???"] _ _
              (Some (Some "a1"))).
    + vm_compute. reflexivity.
    + vm_compute. set_solver.
    + apply not_elem_of_nil.
    + simpl. lia.
    + split_and!; [discriminate|reflexivity..].
    + split; [vm_compute; reflexivity|]. split; [discriminate|reflexivity].
    + repeat constructor.
Defined.

(** * Further properties *)

(** ** Overrides turned into entries *)

Lemma convert_override_Ok o :
  convertible o → ∃ d, convert_override o = Ok d.
Proof.
  intros [Hadd Hval]. unfold convert_override. rewrite Hadd.
  destruct (Override.value o); [eauto| |done].
  rewrite Hval. eauto.
Qed.

Lemma convert_override_Raise o :
  ¬ convertible o → convert_override o = Raise (conversion_error o).
Proof.
  intros Hno. unfold convert_override, conversion_error, convertible in *.
  destruct (Override.is_add o && Override.is_package_rename o); [done|].
  destruct (Override.value o); [naive_solver| |done].
  destruct (Override.is_delete o); [naive_solver|done].
Qed.

Lemma convert_overrides_Ok parsed :
  Forall convertible parsed → ∃ ret, convert_overrides_to_defaults parsed = Ok ret.
Proof.
  induction 1 as [|o rest Ho _ [ret IH]]; simpl; [eauto|].
  destruct (convert_override_Ok o Ho) as [d ->]. rewrite IH. eauto.
Qed.

Lemma convert_overrides_Raise front o back :
  Forall convertible front → ¬ convertible o →
  convert_overrides_to_defaults (front ++ o :: back) = Raise (conversion_error o).
Proof.
  induction 1 as [|x rest Hx _ IH]; intros Ho; simpl.
  - by rewrite (convert_override_Raise o Ho).
  - destruct (convert_override_Ok x Hx) as [d ->]. by rewrite IH.
Qed.

(** A list of overrides is accepted as a whole or splits at the first
    override that is not. *)
Lemma first_not_convertible parsed :
  Forall convertible parsed ∨
  ∃ front o back, parsed = front ++ o :: back ∧ Forall convertible front ∧ ¬ convertible o.
Proof.
  induction parsed as [|x rest IH]; [by left|].
  destruct (decide (convertible x)) as [Hx|Hx].
  - destruct IH as [IH|(front & o & back & -> & Hfront & Ho)].
    + left. by constructor.
    + right. exists (x :: front), o, back. split_and!; [done| |done]. by constructor.
  - right. by exists [], x, rest.
Qed.

(** X1. [convert_overrides_to_defaults] returns a list exactly when every
    override is convertible: none is an addition and a package rename at
    once, and each has a string for a value, or no value while being a
    deletion.  Otherwise the first override that is not convertible decides
    the error: "Add syntax does not support package rename, remove + prefix"
    when it is an addition and a rename, and the message on the delete
    syntax otherwise. *)
Theorem convert_overrides_outcome parsed :
  (Forall convertible parsed ∧
   ∃ ret, convert_overrides_to_defaults parsed = Ok ret) ∨
  (∃ front o back,
     parsed = front ++ o :: back ∧ Forall convertible front ∧ ¬ convertible o ∧
     convert_overrides_to_defaults parsed =
     Raise (ConfigCompositionException
              (if Override.is_add o && Override.is_package_rename o
               then "Add syntax does not support package rename, remove + prefix"
               else "Defaults list supported delete syntax is in the form ~group and ~group=value, where value is a group name (string)"))).
Proof.
  destruct (first_not_convertible parsed) as [Hall|(front & o & back & -> & Hfront & Ho)].
  - left. split; [done|]. by apply convert_overrides_Ok.
  - right. exists front, o, back. split_and!; [done..|].
    by apply convert_overrides_Raise.
Qed.

Lemma convert_override_fields o d :
  convert_override o = Ok d →
  config_group d = Some (Override.key_or_group o) ∧
  config_name d = Some (converted_name o) ∧
  from_override d = true ∧
  is_delete d = Override.is_delete o ∧
  is_add_only d = Override.is_add o ∧
  package d = (if Override.is_package_rename o then Override.pkg1 o
               else Override.get_subject_package o) ∧
  package2 d = (if Override.is_package_rename o then Override.pkg2 o else None) ∧
  optional d = false ∧ is_deleted d = false ∧ skip_load d = false ∧ primary d = false.
Proof.
  unfold convert_override, converted_name.
  destruct (Override.is_add o) eqn:Hadd, (Override.is_package_rename o) eqn:Hren;
    simpl; try done;
    destruct (Override.value o) eqn:Hv; simpl; try done;
    destruct (Override.is_delete o) eqn:Hdel; simpl; try done;
    intros [= <-]; done.
Qed.

Lemma convert_overrides_Forall2 parsed ret :
  convert_overrides_to_defaults parsed = Ok ret →
  Forall2 (λ o d, convert_override o = Ok d) parsed ret.
Proof.
  revert ret. induction parsed as [|o rest IH]; intros ret; simpl.
  - intros [= <-]. constructor.
  - destruct (convert_override o) as [d| |] eqn:Ho; [|done..].
    destruct (convert_overrides_to_defaults rest) as [ds| |]; [|done..].
    intros [= <-]. constructor; [done|]. by apply IH.
Qed.

(** X2. The list [convert_overrides_to_defaults] returns has one entry per
    override, in the order of the overrides.  Each entry has the override's
    key as its group, is flagged [from_override], is a delete directive
    exactly when the override is a deletion and add-only exactly when it is
    an addition; its name is the override's value, and [_delete_] for a
    deletion without a value; it is never both a package rename and
    add-only, and never marked deleted or skip-load. *)
Theorem convert_overrides_entries parsed ret :
  convert_overrides_to_defaults parsed = Ok ret →
  List.length ret = List.length parsed ∧
  Forall2 (λ o d,
             config_group d = Some (Override.key_or_group o) ∧
             from_override d = true ∧
             is_delete d = Override.is_delete o ∧
             is_add_only d = Override.is_add o ∧
             (Override.value o = PyNone → config_name d = Some "_delete_") ∧
             (∀ v, Override.value o = PyStr v → config_name d = Some v) ∧
             (is_package_rename d = true → is_add_only d = false) ∧
             is_deleted d = false ∧ skip_load d = false) parsed ret.
Proof.
  intros Hrun. apply convert_overrides_Forall2 in Hrun.
  split; [symmetry; by eapply Forall2_length|].
  eapply Forall2_impl; [exact Hrun|]. intros o d Hod. simpl in Hod.
  pose proof Hod as Hconv.
  apply convert_override_fields in Hod
    as (Hg & Hn & Hov & Hdel & Hadd & Hp & Hp2 & Hopt & Hdd & Hskip & Hprim).
  split_and!; try done.
  - intros Hv. rewrite Hn. unfold converted_name. by rewrite Hv.
  - intros v Hv. rewrite Hn. unfold converted_name. by rewrite Hv.
  - unfold is_package_rename. rewrite Hp2, Hadd. intros Hren.
    unfold convert_override in Hconv.
    destruct (Override.is_add o), (Override.is_package_rename o); try done.
Qed.

Lemma convert_overrides_entries_witness :
  ∃ ret,
    convert_overrides_to_defaults
      [parsed_override "a" "a6"; parsed_add "b" "b2"; parsed_delete "c"] = Ok ret ∧
    List.length ret = 3.
Proof.
  eexists. split; [vm_compute; reflexivity|].
  apply (convert_overrides_entries
           [parsed_override "a" "a6"; parsed_add "b" "b2"; parsed_delete "c"] _).
  vm_compute. reflexivity.
Defined.

(** X3. The entry a deletion override is converted to is a delete directive
    whose key must match something.  For a deletion without a value, [~g],
    the key selects every entry with the directive's fully-qualified group
    name, whatever its name; for [~g=v] it selects the entries of that
    group that are named [v]. *)
Theorem converted_delete_key o d :
  convert_override o = Ok d →
  Override.is_delete o = true →
  is_delete d = true ∧
  must_delete (make_delete_key d) = true ∧
  (Override.value o = PyNone →
   ∀ x, delete_key_hits (make_delete_key d) x = true ↔
        fully_qualified_group_name x = fully_qualified_group_name d) ∧
  (∀ v, Override.value o = PyStr v → v ≠ "_delete_" →
   ∀ x, delete_key_hits (make_delete_key d) x = true ↔
        fully_qualified_group_name x = fully_qualified_group_name d ∧
        config_name x = Some v).
Proof.
  intros Hconv Hdel.
  apply convert_override_fields in Hconv
    as (Hg & Hn & Hov & Hd & Hadd & Hp & Hp2 & Hopt & Hdd & Hskip & Hprim).
  unfold converted_name in Hn.
  split_and!.
  - by rewrite Hd.
  - done.
  - intros Hv x. rewrite Hv in Hn. unfold delete_key_hits, make_delete_key. simpl.
    rewrite Hn.
    rewrite (bool_decide_eq_false_2 (Some "_delete_" ≠ Some "_delete_"))
      by (intros Hne; by apply Hne).
    rewrite andb_true_r, bool_decide_eq_true. split; congruence.
  - intros v Hv Hne x. rewrite Hv in Hn. unfold delete_key_hits, make_delete_key. simpl.
    rewrite Hn. rewrite (bool_decide_eq_true_2 (Some v ≠ Some "_delete_")) by congruence.
    rewrite andb_true_iff, !bool_decide_eq_true. split; intros [? ?]; split; congruence.
Qed.

Lemma converted_delete_key_witness :
  must_delete (make_delete_key (delete_override_of "c")) = true ∧
  delete_key_hits (make_delete_key (delete_override_of "c")) (in_group "c" "c1") = true.
Proof.
  destruct (converted_delete_key (parsed_delete "c") (delete_override_of "c"))
    as (_ & Hmust & Hany & _); [reflexivity..|].
  split; [exact Hmust|]. apply Hany; reflexivity.
Defined.

(** ** Deleting one element *)

Lemma delete_if_matching_keys dg d h matched dg' h' :
  delete_if_matching dg d h = (matched, dg', h') → dg'.*1 = dg.*1.
Proof.
  intros Hrun. apply delete_if_matching_spec in Hrun as [-> _].
  rewrite <-list_fmap_compose. by apply list_fmap_ext.
Qed.

(** X4. [delete_if_matching] answers [True] exactly when some key of the
    table selects the element.  The element is then marked deleted and
    skip-load with the reason "deleted_from_list", its other fields staying
    as they were; when no key selects it, neither the table nor the store
    changes.  No other object is written, and the keys of the table and
    their order stay the same. *)
Theorem delete_if_matching_marks_element dg d h matched dg' h' :
  delete_if_matching dg d h = (matched, dg', h') →
  d < List.length h →
  (matched = true ↔ ∃ k, k ∈ dg.*1 ∧ delete_key_hits k (deref h d) = true) ∧
  deref h' d =
    (if matched
     then set_skip_load "deleted_from_list" (set_is_deleted true (deref h d))
     else deref h d) ∧
  (matched = false → dg' = dg ∧ h' = h) ∧
  (∀ r, r ≠ d → deref h' r = deref h r) ∧
  List.length h' = List.length h ∧
  dg'.*1 = dg.*1.
Proof.
  intros Hrun Hvalid.
  pose proof (delete_if_matching_spec _ _ _ _ _ _ Hrun) as [Hdg Hm].
  pose proof (delete_if_matching_untouched _ _ _ _ _ _ Hrun) as [Hlen Hother].
  split_and!.
  - rewrite Hm, bool_decide_eq_true, Exists_exists. split.
    + intros (kc & Hin & Hhit). exists kc.1. split; [|done].
      apply list_elem_of_fmap. by exists kc.
    + intros (k & Hin & Hhit). apply list_elem_of_fmap in Hin as (kc & -> & Hin).
      by exists kc.
  - by eapply delete_if_matching_marks.
  - intros ->. symmetry in Hm. apply bool_decide_eq_false in Hm.
    apply not_Exists_Forall in Hm; [|intros x; apply _].
    rewrite delete_if_matching_no_hit in Hrun.
    + by injection Hrun as <- <-.
    + eapply Forall_impl; [exact Hm|]. intros kc Hkc. simpl in Hkc.
      by destruct (delete_key_hits kc.1 (deref h d)).
  - done.
  - done.
  - by eapply delete_if_matching_keys.
Qed.

Lemma delete_if_matching_marks_element_witness :
  ∃ dg' h',
    delete_if_matching [(make_delete_key (delete_override_of "c"), 0)] 1
      [in_group "a" "a1"; in_group "c" "c1"] = (true, dg', h') ∧
    deref h' 1 = mark_deleted (in_group "c" "c1") ∧
    deref h' 0 = in_group "a" "a1".
Proof.
  eexists _, _. split; [vm_compute; reflexivity|].
  edestruct (delete_if_matching_marks_element
               [(make_delete_key (delete_override_of "c"), 0)] 1
               [in_group "a" "a1"; in_group "c" "c1"])
    as (_ & Hmarked & _ & Hother & _); [vm_compute; reflexivity|simpl; lia|].
  split; [exact Hmarked|]. apply Hother. lia.
Defined.

(** X5. An element that a key of the delete table selects is not loaded:
    [_compute_element_defaults_list_impl] returns the empty list whatever
    the repository holds, having marked the element deleted; nothing else
    in the store changes, no choice is recorded and no key is added. *)
Theorem deleted_element_is_not_loaded nii rn rc repo fuel element s :
  element < List.length (st_heap s) →
  Exists (λ kc, delete_key_hits kc.1 (deref (st_heap s) element) = true)
    (delete_groups s) →
  ∃ s', _compute_element_defaults_list_impl nii rn rc repo (S fuel) element s =
          Ok ([], s') ∧
        deref (st_heap s') element = mark_deleted (deref (st_heap s) element) ∧
        (∀ r, r ≠ element → deref (st_heap s') r = deref (st_heap s) r) ∧
        List.length (st_heap s') = List.length (st_heap s) ∧
        group_to_choice s' = group_to_choice s ∧
        (delete_groups s').*1 = (delete_groups s).*1.
Proof.
  intros Hvalid Hhit. simpl.
  destruct (delete_if_matching (delete_groups s) element (st_heap s))
    as [[m dg] h1] eqn:Hdm.
  pose proof (delete_if_matching_spec _ _ _ _ _ _ Hdm) as [_ Hm].
  rewrite bool_decide_eq_true_2 in Hm by done. subst m.
  pose proof (delete_if_matching_marks _ _ _ _ _ _ Hdm Hvalid) as Hread.
  pose proof (delete_if_matching_untouched _ _ _ _ _ _ Hdm) as [Hlen Hother].
  assert (delete_matching element s =
          Ok (true, {| st_heap := h1; group_to_choice := group_to_choice s;
                       delete_groups := dg |})) as Hrun.
  { unfold delete_matching. by rewrite Hdm. }
  eexists. split.
  - rewrite (bind_run _ _ _ _ _ Hrun). reflexivity.
  - simpl. split_and!; try done. by eapply delete_if_matching_keys.
Qed.

Lemma deleted_element_is_not_loaded_witness :
  ∃ s', _compute_element_defaults_list_impl no_interpolation no_resolution no_choice_resolution
          demo_repo 1 0
          {| st_heap := [in_group "c" "c1"]; group_to_choice := ∅;
             delete_groups := [(make_delete_key (delete_override_of "c"), 0)] |} =
        Ok ([], s') ∧
        is_deleted (deref (st_heap s') 0) = true.
Proof.
  edestruct (deleted_element_is_not_loaded no_interpolation no_resolution no_choice_resolution demo_repo
               0 0 {| st_heap := [in_group "c" "c1"]; group_to_choice := ∅;
                      delete_groups := [(make_delete_key (delete_override_of "c"), 0)] |})
    as (s' & Hrun & Hmarked & _); [simpl; lia|by left|].
  exists s'. split; [exact Hrun|]. by rewrite Hmarked.
Defined.

(** ** A fragment without defaults *)

Lemma named_valid (h : list DefaultElement) r n :
  config_name (deref h r) = Some n → r < List.length h.
Proof.
  intros Hname. destruct (decide (r < List.length h)) as [|Hge]; [done|].
  unfold deref in Hname.
  rewrite list_lookup_total_alt, lookup_ge_None_2 in Hname by lia. done.
Qed.

(** X6. For an element whose fragment declares no defaults (and that is
    neither a rename nor a delete directive), [compute_element_defaults_list]
    returns exactly one entry: a new object that is a copy of the element
    with [from_override] off.  The element itself is not in the result and
    is left as it was; the only other new object is the implicit [_self_]
    entry the copy was made from. *)
Theorem leaf_fragment_expansion nii rn rc repo fuel element h path :
  let e := deref h element in
  config_path e = Some path →
  load_config repo path (primary e) = Some [] →
  is_package_rename e = false →
  is_delete e = false →
  ∃ choices,
    compute_element_defaults_list nii rn rc repo (S fuel) element h =
    Ok ([S (List.length h)],
        {| st_heap := h ++ [implicit_self e; set_from_override false e];
           group_to_choice := choices; delete_groups := [] |}).
Proof.
  intros e Hpath Hload Hren Hdel.
  destruct (config_name e) as [n|] eqn:Hname;
    [|by unfold config_path in Hpath; rewrite Hname in Hpath].
  assert (element < List.length h) as Hvalid by by eapply named_valid.
  unfold compute_element_defaults_list.
  rewrite (compute_impl_found nii rn rc repo fuel element (empty_state h) path []);
    [|done|done|by apply delete_matching_no_hit].
  simpl. rewrite app_nil_r.
  set (s0 := with_heap h (empty_state h)).
  set (s1 := with_heap (h ++ [implicit_self e]) (empty_state h)).
  assert (on_heap (_validate_self element []) s0 = Ok ([List.length h], s1)) as Hv.
  { unfold on_heap, s0. simpl st_heap.
    by rewrite validate_self_no_self by constructor. }
  rewrite (bind_run _ _ _ _ _ Hv).
  rewrite (bind_run (get_obj element) _ s1 _ s1 eq_refl).
  simpl st_heap. rewrite deref_app_l by done. fold e. rewrite Hname.
  assert (deref (h ++ [implicit_self e]) (List.length h) = implicit_self e) as Hself.
  { pose proof (deref_app_r h [implicit_self e] 0) as Hlast.
    by rewrite Nat.add_0_r in Hlast. }
  pose proof (expand_entry_self_named nii rc
                (_compute_element_defaults_list_impl nii rn rc repo fuel) n
                (List.length h) s1) as Hentry.
  cbv zeta in Hentry. unfold dict_read in Hentry.
  simpl st_heap in Hentry. simpl group_to_choice in Hentry.
  simpl delete_groups in Hentry.
  rewrite lookup_empty in Hentry.
  assert (is_self (h ++ [implicit_self e]) (List.length h)) as Hisself.
  { unfold is_self. by rewrite Hself. }
  specialize (Hentry Hisself). clear Hisself.
  match type of Hentry with
  | _ = Ok (_, {| st_heap := _; group_to_choice := ?c; delete_groups := _ |}) =>
      exists c; generalize dependent c; intros choices Hentry
  end.
  rewrite Hself in Hentry.
  unfold expand_with. simpl reverse. simpl expand_loop.
  set (copy := set_config_name (Some n) (implicit_self e)) in *.
  set (r := List.length (h ++ [implicit_self e])) in *.
  set (h2 := (h ++ [implicit_self e]) ++ [copy]) in *.
  assert (deref h2 r = copy) as Hcopy.
  { pose proof (deref_app_r (h ++ [implicit_self e]) [copy] 0) as Hlast.
    by rewrite Nat.add_0_r in Hlast. }
  erewrite bind_run; last first.
  { erewrite bind_run; [|exact Hentry]. reflexivity. }
  cbv beta iota. simpl concat.
  assert (_process_renames [r] h2 = Ok ([r], h2)) as Hrenames.
  { unfold _process_renames. simpl. unfold is_package_rename in *.
    rewrite Hcopy. simpl. by rewrite Hren. }
  erewrite bind_run; last first.
  { unfold on_heap. simpl st_heap. rewrite Hrenames. reflexivity. }
  erewrite bind_run; last first.
  { unfold check_heap, on_heap. simpl st_heap.
    unfold _verify_no_add_conflicts. simpl. unfold verify_entry.
    rewrite Hcopy. simpl. reflexivity. }
  simpl.
  assert (dedup h2 [r] = [r]) as ->.
  { unfold dedup. simpl. destruct (config_group (deref h2 r)); [|done].
    by rewrite decide_False by set_solver. }
  rewrite filter_cons_True by (rewrite Hcopy; exact Hdel).
  rewrite filter_nil. unfold with_heap. simpl. f_equal. f_equal.
  - unfold r. rewrite length_app. simpl. f_equal. lia.
  - f_equal. unfold h2. rewrite <-app_assoc. simpl. do 3 f_equal.
    unfold copy, implicit_self. destruct e. simpl in *. by subst.
Qed.

Lemma leaf_fragment_expansion_witness :
  ∃ choices,
    compute_element_defaults_list no_interpolation no_resolution no_choice_resolution demo_repo 1 0
      [in_group "a" "a1"] =
    Ok ([2], {| st_heap := [in_group "a" "a1";
                            implicit_self (in_group "a" "a1");
                            in_group "a" "a1"];
                group_to_choice := choices; delete_groups := [] |}).
Proof.
  apply (leaf_fragment_expansion no_interpolation no_resolution no_choice_resolution demo_repo 0 0
           [in_group "a" "a1"] "a/a1"); reflexivity.
Defined.

(** ** Renames, once resolved *)

Lemma process_renames_plain defaults h :
  Forall (plain_package h) defaults → _process_renames defaults h = Ok (defaults, h).
Proof.
  intros Hplain. apply last_rename_index_None in Hplain.
  unfold _process_renames. simpl. by rewrite Hplain.
Qed.

(** X7. When [_process_renames] returns, running it again on what it
    returned changes nothing.  The pass leaves the size of the store as it
    was, changes no field of any object other than [package], and does not
    touch an object outside the list it was given. *)
Theorem process_renames_settles defaults h defaults' h' :
  _process_renames defaults h = Ok (defaults', h') →
  _process_renames defaults' h' = Ok (defaults', h') ∧
  List.length h' = List.length h ∧
  (∀ r, set_package None (deref h' r) = set_package None (deref h r)) ∧
  (∀ r, r ∉ defaults → deref h' r = deref h r).
Proof.
  intros Hrun.
  pose proof (process_renames_loop_result (S (List.length defaults)) defaults h) as Hres.
  unfold _process_renames in Hrun. rewrite Hrun in Hres.
  destruct Hres as (Hlist & Hplain & Hlen); [lia|].
  split_and!.
  - by apply process_renames_plain.
  - done.
  - intros r.
    by apply (process_renames_loop_field (set_package None) _ _ _ _ _
                (λ _ _, eq_refl) Hrun).
  - intros r Hr. by eapply process_renames_loop_untouched.
Qed.

Lemma process_renames_settles_witness :
  ∃ h', _process_renames [0; 1]
          [in_group "b" "b1"; set_package2 (Some "pkg") (override_of "b" "b1")] =
        Ok ([0], h') ∧
        _process_renames [0] h' = Ok ([0], h').
Proof.
  eexists. split; [vm_compute; reflexivity|].
  eapply (process_renames_settles [0; 1]
            [in_group "b" "b1"; set_package2 (Some "pkg") (override_of "b" "b1")]).
  vm_compute. reflexivity.
Defined.

(** ** Deduplication, once done *)

Lemma dedup_loop_twice h result seen :
  dedup_loop h (dedup_loop h result seen) seen = dedup_loop h result seen.
Proof.
  revert seen. induction result as [|d rest IH]; intros seen; simpl; [done|].
  destruct (config_group (deref h d)) as [g|] eqn:Hg.
  - destruct (decide (_ ∈ seen)) as [Hin|Hout]; [apply IH|].
    simpl. rewrite Hg. rewrite decide_False by done. by rewrite IH.
  - simpl. rewrite Hg. by rewrite IH.
Qed.

Lemma dedup_loop_sublist h result seen :
  sublist (dedup_loop h result seen) result.
Proof.
  revert seen. induction result as [|d rest IH]; intros seen; simpl; [done|].
  destruct (config_group (deref h d)).
  - destruct (decide (_ ∈ seen)); [apply sublist_cons|apply sublist_skip]; apply IH.
  - apply sublist_skip, IH.
Qed.

(** X8. The deduplication pass only drops entries, keeping the others in
    their order, and deduplicating a deduplicated list changes nothing. *)
Theorem dedup_is_idempotent h result :
  sublist (dedup h result) result ∧
  dedup h (dedup h result) = dedup h result.
Proof. split; [apply dedup_loop_sublist|apply dedup_loop_twice]. Qed.

(** ** The tables a seed list starts with *)

Lemma dt_set_zero_keys k dg :
  (dt_set_zero k dg).*1 = if decide (k ∈ dg.*1) then dg.*1 else dg.*1 ++ [k].
Proof.
  induction dg as [|[k' c] dg IH]; [done|].
  cbn [dt_set_zero]. destruct (decide (k' = k)) as [->|Hne].
  - rewrite !fmap_cons. cbn [fst]. by rewrite decide_True by set_solver.
  - rewrite !fmap_cons, IH. cbn [fst]. destruct (decide (k ∈ dg.*1)).
    + by rewrite decide_True by set_solver.
    + by rewrite decide_False by set_solver.
Qed.

Lemma dt_set_zero_counts k dg :
  Forall (λ kc, kc.2 = 0) dg → Forall (λ kc, kc.2 = 0) (dt_set_zero k dg).
Proof.
  induction 1 as [|[k' c] dg Hc Hrest IH]; simpl.
  - by constructor.
  - destruct (decide (k' = k)); constructor; done.
Qed.

Lemma dt_set_zero_NoDup k dg : NoDup dg.*1 → NoDup (dt_set_zero k dg).*1.
Proof.
  intros Hnd. rewrite dt_set_zero_keys. case_decide; [done|].
  apply NoDup_app. split_and!; [done|set_solver|apply NoDup_singleton].
Qed.

Lemma seed_tables_delete_table nii rc h todo choices dg :
  let dg' := (seed_tables nii rc h todo choices dg).2 in
  (∀ k, k ∈ dg'.*1 ↔ k ∈ dg.*1 ∨ ∃ d, d ∈ todo ∧ delete_directive h k d) ∧
  (Forall (λ kc, kc.2 = 0) dg → Forall (λ kc, kc.2 = 0) dg') ∧
  (NoDup dg.*1 → NoDup dg'.*1).
Proof.
  revert choices dg. induction todo as [|d rest IH]; intros choices dg; simpl.
  { split_and!; [|done|done]. intros k. set_solver. }
  destruct (is_delete (deref h d)) eqn:Hdel.
  - destruct (IH choices (dt_set_zero (make_delete_key (deref h d)) dg))
      as (Hkeys & Hzero & Hnd).
    split_and!.
    + intros k. rewrite Hkeys, dt_set_zero_keys. unfold delete_directive.
      case_decide; set_solver.
    + intros Hc. by apply Hzero, dt_set_zero_counts.
    + intros Hn. by apply Hnd, dt_set_zero_NoDup.
  - assert (∀ k, ¬ delete_directive h k d) as Hno.
    { intros k [Hd _]. congruence. }
    destruct (config_group (deref h d)); [destruct (dict_contains _ _ _ _)|];
      (edestruct IH as (Hkeys & Hzero & Hnd); split_and!;
       [intros k; rewrite Hkeys; set_solver|done|done]).
Qed.

Lemma seed_tables_no_choice nii rc h todo choices dg f :
  (seed_tables nii rc h todo choices dg).1 !! f = None →
  choices !! f = None ∧ Forall (λ x, ¬ seeds_choice h f x) todo.
Proof.
  revert choices dg. induction todo as [|d rest IH]; intros choices dg; simpl.
  { by split. }
  unfold seeds_choice.
  destruct (is_delete (deref h d)) eqn:Hdel.
  { intros Hnone. apply IH in Hnone as [? ?]. split; [done|].
    constructor; [|done]. intros (? & _). congruence. }
  destruct (config_group (deref h d)) as [g|] eqn:Hg.
  - destruct (dict_contains _ _ _ _) eqn:Hc.
    + intros Hnone. apply IH in Hnone as [? ?]. split; [done|].
      constructor; [|done]. intros (_ & _ & <-).
      by apply dict_contains_key in Hc.
    + intros Hnone. apply IH in Hnone as [Hins ?].
      apply lookup_insert_None in Hins as [? ?]. split; [done|].
      constructor; [|done]. intros (_ & _ & ?). done.
  - intros Hnone. apply IH in Hnone as [? ?]. split; [done|].
    constructor; [|done]. intros (_ & ? & _). done.
Qed.

(** X9. The two tables [_expand_defaults_list] builds from the seed list
    before it expands anything.  The dictionary of choices has a key for a
    fully-qualified group exactly when some entry of the list that is no
    delete directive and has a group carries that name.  It does not
    contain the group (there is a key at most for the value [???]) when
    every such entry is named [???]; it reads as the name of the last such
    entry that is not named [???], when that name is ordinary.  The keys of
    the delete table are exactly the keys of the delete directives of the
    list, each registered once and with a count of zero. *)
Theorem seed_tables_spec nii rc h defaults :
  let tables := seed_tables nii rc h (reverse defaults) ∅ [] in
  (∀ f, tables.1 !! f = None ↔ Forall (λ x, ¬ seeds_choice h f x) defaults) ∧
  (∀ f, Forall (λ x, seeds_choice h f x → config_name (deref h x) = Some "???")
          defaults →
        dict_contains nii rc tables.1 f = false) ∧
  (∀ f front d back,
     defaults = front ++ d :: back →
     seeds_choice h f d →
     ordinary nii (config_name (deref h d)) →
     Forall (λ x, seeds_choice h f x → config_name (deref h x) = Some "???") back →
     dict_read nii rc tables.1 f = Value (config_name (deref h d))) ∧
  (∀ k, k ∈ tables.2.*1 ↔
        ∃ d, d ∈ defaults ∧ is_delete (deref h d) = true ∧
             k = make_delete_key (deref h d)) ∧
  Forall (λ kc, kc.2 = 0) tables.2 ∧
  NoDup tables.2.*1.
Proof.
  intros tables.
  destruct (seed_tables_delete_table nii rc h (reverse defaults) ∅ [])
    as (Hkeys & Hzero & Hnd).
  fold tables in Hkeys, Hzero, Hnd. split_and!.
  - intros f. split.
    + intros Hnone. apply seed_tables_no_choice in Hnone as [_ Hall].
      by rewrite Forall_reverse in Hall.
    + intros Hall. apply seed_tables_skip; [|done]. by rewrite Forall_reverse.
  - intros f Hall. apply dict_contains_unset.
    apply seed_tables_unset; [by rewrite Forall_reverse|by left].
  - intros f front d back -> Hd Hord Hback.
    apply dict_read_ordinary; [|done]. by apply seed_tables_last.
  - intros k. rewrite Hkeys. split.
    + intros [Hin|(d & Hd & Hdir)]; [set_solver|].
      exists d. split; [|done]. by rewrite elem_of_reverse in Hd.
    + intros (d & Hd & Hdir). right. exists d. split; [|done]. by rewrite elem_of_reverse.
  - apply Hzero. constructor.
  - apply Hnd. constructor.
Qed.

Lemma seed_tables_spec_witness :
  dict_read no_interpolation no_choice_resolution
    (seed_tables no_interpolation no_choice_resolution
       [in_group "a" "a1"; in_group "a" "???"; in_group "b" "???"]
       (reverse [0; 1; 2]) ∅ []).1 "a" = Value (Some "a1") ∧
  dict_contains no_interpolation no_choice_resolution
    (seed_tables no_interpolation no_choice_resolution
       [in_group "a" "a1"; in_group "a" "???"; in_group "b" "???"]
       (reverse [0; 1; 2]) ∅ []).1 "b" = false.
Proof.
  pose proof (seed_tables_spec no_interpolation no_choice_resolution
                [in_group "a" "a1"; in_group "a" "???"; in_group "b" "???"]
                [0; 1; 2]) as (_ & Hnot & Hread & _).
  split.
  - apply (Hread "a" [] 0 [1; 2]).
    + reflexivity.
    + split_and!; [reflexivity|discriminate|reflexivity].
    + split; [discriminate|reflexivity].
    + repeat constructor.
  - apply Hnot.
    repeat (apply Forall_cons_2 || apply Forall_nil_2);
      intros (_ & _ & Hf); first [reflexivity|discriminate Hf].
Defined.

(** ** What the top-level functions leave alone *)

Lemma compute_element_frame nii rn rc repo fuel element h ret s :
  compute_element_defaults_list nii rn rc repo fuel element h = Ok (ret, s) →
  frame (List.length h) [element] (empty_state h) s ∧
  Forall (writable (List.length h) [element]) ret.
Proof.
  intros Hrun. apply finish_Ok in Hrun as (ret0 & Hrun & _ & ->).
  destruct (framed_compute_impl nii rn rc repo fuel (List.length h) [element] element)
    with (s := empty_state h) (a := ret0) (s' := s) as [Hframe Hret]; [|done|done|].
  { left. set_solver. }
  split; [done|].
  rewrite Forall_forall in *. intros r Hr. apply Hret.
  by apply list_elem_of_filter in Hr as [_ ?].
Qed.

Lemma expand_frame nii rn rc repo fuel self_name defaults h ret s :
  _expand_defaults_list nii rn rc repo fuel self_name defaults h = Ok (ret, s) →
  frame (List.length h) defaults
    {| st_heap := h;
       group_to_choice := (seed_tables nii rc h (reverse defaults) ∅ []).1;
       delete_groups := (seed_tables nii rc h (reverse defaults) ∅ []).2 |} s ∧
  Forall (writable (List.length h) defaults) ret.
Proof.
  unfold _expand_defaults_list.
  destruct (seed_tables nii rc h (reverse defaults) ∅ []) as [choices dg] eqn:Hseed.
  intros Hrun. apply finish_Ok in Hrun as (ret0 & Hrun & _ & ->).
  destruct (framed_expand_with nii rn rc (List.length h) defaults
              (_compute_element_defaults_list_impl nii rn rc repo fuel) self_name
              (map (deref h) defaults) defaults)
    with (s := {| st_heap := h; group_to_choice := choices; delete_groups := dg |})
         (a := ret0) (s' := s) as [Hframe Hret]; [| |done|done|].
  { apply framed_compute_impl. }
  { apply Forall_writable_owned. }
  split; [done|].
  rewrite Forall_forall in *. intros r Hr. apply Hret.
  by apply list_elem_of_filter in Hr as [_ ?].
Qed.

(** X10. The top-level functions write only to what they were given.  When
    [compute_element_defaults_list] returns, every object the store held
    before, other than the element, is as it was, and the returned list
    refers to the element or to objects made during the call; when
    [_expand_defaults_list] (and with it [expand_defaults_list]) returns,
    the same holds with the entries of the seed list in the place of the
    element.  The store never shrinks. *)
Theorem expansion_writes_only_what_it_was_given :
  (∀ nii rn rc repo fuel element h ret s,
     compute_element_defaults_list nii rn rc repo fuel element h = Ok (ret, s) →
     List.length h ≤ List.length (st_heap s) ∧
     (∀ r, r < List.length h → r ≠ element → deref (st_heap s) r = deref h r) ∧
     Forall (λ r, r = element ∨ List.length h ≤ r) ret) ∧
  (∀ nii rn rc repo fuel self_name defaults h ret s,
     _expand_defaults_list nii rn rc repo fuel self_name defaults h = Ok (ret, s) →
     List.length h ≤ List.length (st_heap s) ∧
     (∀ r, r < List.length h → r ∉ defaults → deref (st_heap s) r = deref h r) ∧
     Forall (λ r, r ∈ defaults ∨ List.length h ≤ r) ret).
Proof.
  split.
  - intros nii rn rc repo fuel element h ret s Hrun.
    apply compute_element_frame in Hrun as [[Hlen Hsame] Hret].
    split_and!; [done| |].
    + intros r Hr Hne. apply Hsame; [done|set_solver].
    + eapply Forall_impl; [exact Hret|]. intros r [Hr|Hr]; [left; set_solver|by right].
  - intros nii rn rc repo fuel self_name defaults h ret s Hrun.
    apply expand_frame in Hrun as [[Hlen Hsame] Hret].
    split_and!; [done| |done].
    intros r Hr Hne. by apply Hsame.
Qed.

Lemma expansion_writes_only_what_it_was_given_witness :
  ∃ ret s,
    expand_defaults_list no_interpolation no_resolution no_choice_resolution demo_repo 3 [0; 1]
      [in_group "a" "a1"; in_group "a" "a6"; in_group "z" "untouched"] = Ok (ret, s) ∧
    deref (st_heap s) 2 = in_group "z" "untouched".
Proof.
  eexists _, _. split; [vm_compute; reflexivity|].
  eapply (proj2 expansion_writes_only_what_it_was_given
            no_interpolation no_resolution no_choice_resolution demo_repo 3 None [0; 1]
            [in_group "a" "a1"; in_group "a" "a6"; in_group "z" "untouched"]).
  - vm_compute. reflexivity.
  - simpl. lia.
  - set_solver.
Defined.

(** X11. Marks are never taken back by a top-level call: an object that is
    marked deleted or skip-load when the call starts is still marked when
    it returns, and the key of every delete directive of a seed list is
    still in the delete table at the end. *)
Theorem marks_are_never_taken_back :
  (∀ nii rn rc repo fuel element h ret s,
     compute_element_defaults_list nii rn rc repo fuel element h = Ok (ret, s) →
     ∀ r, (is_deleted (deref h r) = true → is_deleted (deref (st_heap s) r) = true) ∧
          (skip_load (deref h r) = true → skip_load (deref (st_heap s) r) = true)) ∧
  (∀ nii rn rc repo fuel self_name defaults h ret s,
     _expand_defaults_list nii rn rc repo fuel self_name defaults h = Ok (ret, s) →
     (∀ r, (is_deleted (deref h r) = true → is_deleted (deref (st_heap s) r) = true) ∧
           (skip_load (deref h r) = true → skip_load (deref (st_heap s) r) = true)) ∧
     (∀ d, d ∈ defaults → is_delete (deref h d) = true →
           make_delete_key (deref h d) ∈ (delete_groups s).*1)).
Proof.
  split.
  - intros nii rn rc repo fuel element h ret s Hrun.
    apply finish_Ok in Hrun as (ret0 & Hrun & _ & ->).
    apply (preserves_compute_impl marks_kept) in Hrun as [Hflags _]; [|apply _].
    exact Hflags.
  - intros nii rn rc repo fuel self_name defaults h ret s. unfold _expand_defaults_list.
    destruct (seed_tables nii rc h (reverse defaults) ∅ []) as [choices dg] eqn:Hseed.
    intros Hrun. apply finish_Ok in Hrun as (ret0 & Hrun & _ & ->).
    apply (preserves_expand_impl marks_kept) in Hrun as [Hflags Hkeys]; [|apply _].
    split; [exact Hflags|].
    intros d Hd Hdel. apply Hkeys. simpl.
    pose proof (seed_tables_delete_table nii rc h (reverse defaults) ∅ []) as (Hk & _ & _).
    rewrite Hseed in Hk. simpl in Hk. apply Hk. right. exists d.
    split; [by rewrite elem_of_reverse|by split].
Qed.

Lemma marks_are_never_taken_back_witness :
  ∃ ret s,
    expand_defaults_list no_interpolation no_resolution no_choice_resolution demo_repo 3 [0; 1]
      [in_group "a" "a1"; mark_deleted (in_group "c" "c1")] = Ok (ret, s) ∧
    is_deleted (deref (st_heap s) 1) = true.
Proof.
  eexists _, _. split; [vm_compute; reflexivity|].
  eapply (proj2 marks_are_never_taken_back
            no_interpolation no_resolution no_choice_resolution demo_repo 3 None [0; 1]
            [in_group "a" "a1"; mark_deleted (in_group "c" "c1")]).
  - vm_compute. reflexivity.
  - reflexivity.
Defined.

(** ** What an entry was declared as is never changed *)

Lemma declared_kept_fields s h' :
  List.length h' = List.length (st_heap s) →
  (∀ x, declared (deref h' x) = declared (deref (st_heap s) x)) →
  declared_kept s (with_heap h' s).
Proof. intros Hlen Hsame. split; simpl; [lia|]. intros r _. apply Hsame. Qed.

Lemma declared_kept_grow s es :
  declared_kept s (with_heap (st_heap s ++ es) s).
Proof.
  split; simpl.
  - rewrite length_app. lia.
  - intros r Hr. by rewrite deref_app_l.
Qed.

Lemma declared_kept_same_heap s s' :
  st_heap s' = st_heap s → declared_kept s s'.
Proof. intros Heq. split; rewrite Heq; [lia|done]. Qed.

#[global] Instance declared_kept_refl : Reflexive declared_kept.
Proof. intros s. by apply declared_kept_same_heap. Qed.

#[global] Instance declared_kept_trans : Transitive declared_kept.
Proof.
  intros s1 s2 s3 [Hl1 Hd1] [Hl2 Hd2]. split; [lia|].
  intros r Hr. rewrite Hd2 by lia. by apply Hd1.
Qed.

Lemma declared_mutate f r s :
  (∀ e, declared (f e) = declared e) →
  declared_kept s (with_heap (mutate f r (st_heap s)) s).
Proof.
  intros Hf. apply declared_kept_fields; [apply length_mutate|].
  intros x. by apply (deref_mutate_field declared).
Qed.

#[global] Instance declared_maintained nii rc : Maintained nii rc declared_kept.
Proof.
  split; try apply _.
  - intros v r s a s' [= _ <-]. by apply declared_mutate.
  - intros reason r s a s' [= _ <-]. by apply declared_mutate.
  - intros e s a s' [= _ <-]. apply declared_kept_grow.
  - intros es s a s' [= _ <-]. apply declared_kept_grow.
  - intros d dd s a s' Hrun.
    destruct (register_choice_run nii rc d dd s) as [choices Heq].
    rewrite Heq in Hrun. injection Hrun as _ <-. by apply declared_kept_same_heap.
  - intros k s a s' [= _ <-]. by apply declared_kept_same_heap.
  - intros d s a s'. unfold delete_matching.
    destruct (delete_if_matching _ _ _) as [[m dg] h] eqn:Hdel.
    intros [= _ <-].
    pose proof (delete_if_matching_untouched _ _ _ _ _ _ Hdel) as [Hlen _].
    split; simpl; [lia|]. intros r _.
    by apply (delete_if_matching_field declared _ _ _ _ _ _ (λ _, eq_refl) Hdel).
  - intros l s a s'. unfold on_heap.
    destruct (_process_renames l (st_heap s)) as [[l' h']| |] eqn:Hrun; [|done|done].
    intros [= _ <-]. apply declared_kept_fields.
    + by eapply process_renames_length.
    + intros x.
      by apply (process_renames_loop_field declared _ _ _ _ _ (λ _ _, eq_refl) Hrun).
  - intros e l s a s'. unfold on_heap.
    destruct (_validate_self e l (st_heap s)) as [[l' h']| |] eqn:Hrun; [|done|done].
    intros [= _ <-]. unfold _validate_self in Hrun.
    destruct (validate_self_loop e l false (st_heap s))
      as [[has_self h1]| |] eqn:Hloop; [|done|done].
    pose proof (validate_self_loop_names _ _ _ _ _ _ Hloop) as [Hlen _].
    pose proof (validate_self_loop_field declared _ _ _ _ _ _
                  (λ _ _, eq_refl) (λ _ _, eq_refl) Hloop) as Hsame.
    destruct has_self.
    + injection Hrun as <- <-. by apply declared_kept_fields.
    + simpl in Hrun. injection Hrun as <- <-. split; simpl.
      * rewrite !length_mutate, length_app. lia.
      * intros r Hr.
        rewrite !(deref_mutate_ne _ (List.length h1)) by lia.
        rewrite deref_app_l by lia. apply Hsame.
Qed.

(** X12. A top-level call never changes what an object was declared as:
    for every object the store held when the call started, the fields
    [optional], [package2], [from_override], [is_add_only], [is_delete] and
    [primary] are the same when the call returns.  The expansion only ever
    writes names, groups, packages and the two marks. *)
Theorem declared_fields_are_read_only :
  (∀ nii rn rc repo fuel element h ret s,
     compute_element_defaults_list nii rn rc repo fuel element h = Ok (ret, s) →
     ∀ r, r < List.length h →
          (optional (deref (st_heap s) r), package2 (deref (st_heap s) r),
           from_override (deref (st_heap s) r), is_add_only (deref (st_heap s) r),
           is_delete (deref (st_heap s) r), primary (deref (st_heap s) r)) =
          (optional (deref h r), package2 (deref h r), from_override (deref h r),
           is_add_only (deref h r), is_delete (deref h r), primary (deref h r))) ∧
  (∀ nii rn rc repo fuel self_name defaults h ret s,
     _expand_defaults_list nii rn rc repo fuel self_name defaults h = Ok (ret, s) →
     ∀ r, r < List.length h →
          (optional (deref (st_heap s) r), package2 (deref (st_heap s) r),
           from_override (deref (st_heap s) r), is_add_only (deref (st_heap s) r),
           is_delete (deref (st_heap s) r), primary (deref (st_heap s) r)) =
          (optional (deref h r), package2 (deref h r), from_override (deref h r),
           is_add_only (deref h r), is_delete (deref h r), primary (deref h r))).
Proof.
  split.
  - intros nii rn rc repo fuel element h ret s Hrun.
    apply finish_Ok in Hrun as (ret0 & Hrun & _ & ->).
    apply (preserves_compute_impl declared_kept) in Hrun as [_ Hsame]; [|apply _].
    exact Hsame.
  - intros nii rn rc repo fuel self_name defaults h ret s. unfold _expand_defaults_list.
    destruct (seed_tables nii rc h (reverse defaults) ∅ []) as [choices dg] eqn:Hseed.
    intros Hrun. apply finish_Ok in Hrun as (ret0 & Hrun & _ & ->).
    apply (preserves_expand_impl declared_kept) in Hrun as [_ Hsame]; [|apply _].
    exact Hsame.
Qed.

Lemma declared_fields_are_read_only_witness :
  ∃ ret s,
    expand_defaults_list no_interpolation no_resolution no_choice_resolution demo_repo 3 [0; 1]
      [in_group "a" "a1"; override_of "a" "a6"] = Ok (ret, s) ∧
    config_name (deref (st_heap s) 0) = Some "a6" ∧
    declared (deref (st_heap s) 0) = declared (in_group "a" "a1").
Proof.
  eexists _, _. split; [vm_compute; reflexivity|]. split; [vm_compute; reflexivity|].
  eapply (proj2 declared_fields_are_read_only
            no_interpolation no_resolution no_choice_resolution demo_repo 3 None [0; 1]
            [in_group "a" "a1"; override_of "a" "a6"]).
  - vm_compute. reflexivity.
  - simpl. lia.
Defined.

(** ** Validating a list a second time *)

Lemma mutate_id f r (h : list DefaultElement) :
  f (deref h r) = deref h r → mutate f r h = h.
Proof.
  intros Hf. apply list_eq. intros i. unfold mutate.
  rewrite list_lookup_alter. case_decide; [subst|done].
  unfold deref in Hf. rewrite list_lookup_total_alt in Hf.
  destruct (h !! i); simpl in *; [by rewrite Hf|done].
Qed.

(** Once a [_self_] entry has been seen, the loop returns only if no other
    follows, and then it has written nothing. *)
Lemma validate_self_loop_seen element effective h has_self h' :
  validate_self_loop element effective true h = Ok (has_self, h') →
  has_self = true ∧ h' = h ∧ Forall (λ r, ¬ is_self h r) effective.
Proof.
  induction effective as [|d rest IH]; simpl.
  { intros [= <- <-]. by split. }
  case_bool_decide as Hd.
  - by destruct (config_path (deref h element)).
  - intros Hrun. apply IH in Hrun as (-> & -> & Hrest). split_and!; [done..|].
    by constructor.
Qed.

Lemma adopt_twice element d h :
  d < List.length h →
  adopt element d (adopt element d h) = adopt element d h.
Proof.
  intros Hd. unfold adopt at 1. rewrite adopt_element.
  rewrite (mutate_id (set_config_group _)).
  - apply mutate_id. by rewrite adopt_entry.
  - by rewrite adopt_entry.
Qed.

(** X13. [_validate_self] can be repeated only for an element without a
    group.  On a list it has already validated, a second call for the same
    element returns the list and the store as they are when the element
    has no group; when the element has a group, the [_self_] entry now
    carries that group and the second call stops with an
    [AssertionError].  A fragment's list therefore has to be a new one at
    every load. *)
Theorem validate_self_again element effective h effective' h' :
  _validate_self element effective h = Ok (effective', h') →
  element < List.length h →
  Forall (λ r, r < List.length h) effective →
  _validate_self element effective' h' =
  match config_group (deref h element) with
  | Some _ => Raise AssertionError
  | None => Ok (effective', h')
  end.
Proof.
  intros Hrun Helement Hvalid.
  destruct (first_self_split h effective) as [Hno|(front & d & back & -> & Hfront & Hd)].
  - rewrite validate_self_no_self in Hrun by done. injection Hrun as <- <-.
    set (e := deref h element).
    assert (deref (h ++ [implicit_self e]) (List.length h) = implicit_self e) as Hme.
    { pose proof (deref_app_r h [implicit_self e] 0) as Hlast.
      by rewrite Nat.add_0_r in Hlast. }
    assert (is_self (h ++ [implicit_self e]) (List.length h)) as Hself.
    { unfold is_self. by rewrite Hme. }
    destruct (config_group e) as [g|] eqn:Hg.
    + apply (validate_self_grouped element [] (List.length h) effective _ g);
        [constructor|done|]. by rewrite Hme.
    + rewrite (validate_self_single element [] (List.length h) effective);
        [|constructor|done|by rewrite Hme|].
      * simpl. do 2 f_equal. unfold adopt.
        rewrite !deref_app_l by done. fold e.
        rewrite (mutate_id (set_config_group _)).
        -- apply mutate_id. rewrite Hme. unfold implicit_self. by destruct e.
        -- rewrite Hme. unfold implicit_self. destruct e. simpl in *. by subst.
      * rewrite Forall_forall in *. intros r Hr. unfold is_self.
        rewrite deref_app_l by auto. by apply Hno.
  - pose proof (is_self_valid _ _ Hd) as Hdvalid.
    destruct (config_group (deref h d)) as [gd|] eqn:Hgd.
    { by rewrite (validate_self_grouped element front d back h gd) in Hrun. }
    unfold _validate_self in Hrun.
    rewrite validate_self_loop_first, Hgd in Hrun by done.
    destruct (validate_self_loop element back true (adopt element d h))
      as [[has_self h1]| |] eqn:Hloop; [|done|done].
    apply validate_self_loop_seen in Hloop as (-> & -> & Hback).
    assert (∀ l, Forall (λ r, ¬ is_self h r) l →
                 Forall (λ r, ¬ is_self (adopt element d h) r) l) as Hnames.
    { intros l Hl. eapply Forall_impl; [exact Hl|]. intros r Hr.
      unfold is_self. by rewrite adopt_names. }
    assert (is_self (adopt element d h) d) as Hd'.
    { unfold is_self. by rewrite adopt_names. }
    assert (config_group (deref (adopt element d h) d) = config_group (deref h element))
      as Hgroup.
    { by rewrite adopt_entry. }
    injection Hrun as <- <-.
    destruct (config_group (deref h element)) as [g|] eqn:Hg.
    + apply (validate_self_grouped element front d back _ g); [by apply Hnames|done..].
    + rewrite validate_self_single; [|by apply Hnames|done|done|done].
      by rewrite adopt_twice.
Qed.

Lemma validate_self_again_witness :
  ∃ effective' h',
    _validate_self 0 [1] [in_group "a" "a2"; in_group "b" "b1"] = Ok (effective', h') ∧
    _validate_self 0 effective' h' = Raise AssertionError.
Proof.
  eexists _, _. split; [vm_compute; reflexivity|].
  apply (validate_self_again 0 [1] [in_group "a" "a2"; in_group "b" "b1"]).
  - vm_compute. reflexivity.
  - simpl. lia.
  - repeat constructor.
Defined.

(** ** What a result holds, and the search that never fails

    The flattened list is searched by [result.index(d)] for every deferred
    entry; the search raises [ValueError] when it finds nothing. *)

Lemma sound_bind {A B} (Q : A → state → Prop) (R : B → state → Prop)
    (m : M A) (k : A → M B) s :
  sound Q m s →
  (∀ a s', m s = Ok (a, s') → Q a s' → sound R (k a) s') →
  sound R (m ≫= k) s.
Proof.
  unfold sound, mbind, M_bind. intros Hm Hk.
  destruct (m s) as [[a s']| |]; [|done|done]. by apply Hk.
Qed.

Lemma sound_step {A B} (R : B → state → Prop) (m : M A) (k : A → M B) s a s' :
  m s = Ok (a, s') → sound R (k a) s' → sound R (m ≫= k) s.
Proof. intros Hm Hk. unfold sound. by rewrite (bind_run _ _ _ _ _ Hm). Qed.

Lemma sound_ret {A} (Q : A → state → Prop) (a : A) s :
  Q a s → sound Q (mret a : M A) s.
Proof. done. Qed.

Lemma sound_weaken {A} (Q Q' : A → state → Prop) (m : M A) s :
  sound Q m s → (∀ a s', m s = Ok (a, s') → Q a s' → Q' a s') → sound Q' m s.
Proof.
  unfold sound. intros Hm HQ. destruct (m s) as [[a s']| |]; [|done|done]. by apply HQ.
Qed.

Lemma settled_kept s s' r : declared_kept s s' → settled s r → settled s' r.
Proof.
  intros [Hlen Hsame] [Hr Hplain]. split; [lia|].
  unfold plain_package, is_package_rename in *.
  specialize (Hsame r Hr). unfold declared in Hsame. by injection Hsame as _ -> _ _ _ _.
Qed.

Lemma valid_kept s s' r :
  declared_kept s s' → r < List.length (st_heap s) → r < List.length (st_heap s').
Proof. intros [Hlen _] Hr. lia. Qed.

Lemma settled_same_heap s s' r :
  st_heap s' = st_heap s → settled s r → settled s' r.
Proof. unfold settled. by intros ->. Qed.

Section Sound.

Variable node_is_interpolation : string → bool.
Variable resolve_node :
  gmap string (option string) → list (option string * option string) →
  string → string → option (option string).
Variable resolve_choice : gmap string (option string) → string → string → reading.
Variable repo : ConfigRepository.

Lemma sound_expand_entry rec self_name d s :
  rec_sound rec →
  d < List.length (st_heap s) →
  sound (λ p s', Forall (λ r, r < List.length (st_heap s')) p.1 ∧
                 Forall (λ r, settled s' r ∧ r ∈ p.1) p.2)
    (expand_entry node_is_interpolation resolve_choice rec self_name d) s.
Proof.
  intros [Hkeep Hrec] Hd. unfold expand_entry.
  eapply (sound_step _ (get_obj d)); [reflexivity|].
  set (e := deref (st_heap s) d).
  eapply (sound_bind
            (λ t s', Forall (λ r, r < List.length (st_heap s')) t.1.2 ∧
                     Forall (λ r, settled s' r ∧ r ∈ t.1.2) t.2)).
  - case_bool_decide as Hself.
    { destruct self_name as [sn|]; [|done].
      eapply (sound_step _ (new_obj e)); [reflexivity|].
      eapply (sound_step _ get_choices); [reflexivity|]. simpl.
      destruct (dict_read _ _ _ _) as [|v|]; [| |done].
      - eapply (sound_step _ (update_obj _ _)); [reflexivity|].
        apply sound_ret. simpl. split; [|done].
        apply Forall_cons_2; [|done]. rewrite length_mutate, length_app. simpl. lia.
      - eapply (sound_step _ (update_obj _ _)); [reflexivity|].
        apply sound_ret. simpl. split; [|done].
        apply Forall_cons_2; [|done]. rewrite length_mutate, length_app. simpl. lia. }
    destruct (is_package_rename e) eqn:Hren.
    { apply sound_ret. simpl. split; [|done]. by apply Forall_cons_2. }
    destruct (is_delete e).
    { eapply (sound_step _ (register_delete _)); [reflexivity|].
      apply sound_ret. simpl. split; [|done]. by apply Forall_cons_2. }
    assert (settled s d) as Hsettled by done.
    destruct (from_override e).
    { apply sound_ret. simpl. split; [by apply Forall_cons_2|].
      apply Forall_cons_2; [|done]. split; [done|set_solver]. }
    destruct (is_interpolation _ e).
    { apply sound_ret. simpl. split; [by apply Forall_cons_2|].
      apply Forall_cons_2; [|done]. split; [done|set_solver]. }
    assert (∃ m s1, delete_matching d s = Ok (m, s1)) as (m & s1 & Hdm).
    { unfold delete_matching. destruct (delete_if_matching _ _ _) as [[m dg] h1]. eauto. }
    assert (settled s1 d) as Hs1.
    { eapply settled_kept; [|exact Hsettled].
      by eapply (maintained_delete_matching (nii := node_is_interpolation) (rc := resolve_choice) (R := declared_kept)). }
    eapply sound_step; [exact Hdm|]. destruct m.
    { apply sound_ret. simpl. split; [|done]. apply Forall_cons_2; [|done]. apply Hs1. }
    eapply (sound_step _ get_choices); [reflexivity|].
    eapply (sound_bind (λ _ s', settled s' d)).
    { destruct (dict_read _ _ _ _) as [|v|]; [by apply sound_ret| |done].
      unfold sound. simpl. eapply settled_kept; [|exact Hs1].
      by eapply (maintained_update_name (nii := node_is_interpolation) (rc := resolve_choice) (R := declared_kept)). }
    intros _ s2 _ Hs2.
    eapply sound_bind; [by apply Hrec|]. intros added s3 _ Hadded.
    apply sound_ret. simpl. split; [|done].
    eapply Forall_impl; [exact Hadded|]. by intros r [? _].
  - intros [[d' added] deferred] s1 _ [Hadded Hdeferred]. simpl in *.
    destruct (register_choices_run node_is_interpolation resolve_choice d'
                (reverse added) s1) as [choices Hreg].
    eapply sound_step; [exact Hreg|]. apply sound_ret. simpl. split; [done|].
    eapply Forall_impl; [exact Hdeferred|]. intros r [Hr ?]. split; [|done].
    by eapply settled_same_heap; [|exact Hr].
Qed.

Lemma sound_expand_loop rec self_name todo acc deferred s :
  rec_sound rec →
  Forall (λ r, r < List.length (st_heap s)) todo →
  Forall (Forall (λ r, r < List.length (st_heap s))) acc →
  Forall (λ r, settled s r ∧ r ∈ concat acc) deferred →
  sound (λ p s', Forall (Forall (λ r, r < List.length (st_heap s'))) p.1 ∧
                 Forall (λ r, settled s' r ∧ r ∈ concat p.1) p.2)
    (expand_loop node_is_interpolation resolve_choice rec self_name todo acc deferred) s.
Proof.
  intros Hrec. revert acc deferred s.
  induction todo as [|d rest IH]; intros acc deferred s Htodo Hacc Hdfr; simpl.
  { by apply sound_ret. }
  apply Forall_cons in Htodo as [Hd Hrest].
  eapply sound_bind; [by apply sound_expand_entry|].
  intros [added dfr] s1 Hrun [Hadded Hdfr']. simpl in *.
  assert (declared_kept s s1) as Hkept.
  { eapply (preserves_expand_entry declared_kept node_is_interpolation resolve_choice);
      [|exact Hrun]. apply Hrec. }
  apply IH.
  - eapply Forall_impl; [exact Hrest|]. intros r. by apply valid_kept.
  - apply Forall_app. split; [|by apply Forall_cons_2].
    eapply Forall_impl; [exact Hacc|]. intros l Hl.
    eapply Forall_impl; [exact Hl|]. intros r. by apply valid_kept.
  - rewrite concat_app. simpl. rewrite app_nil_r. apply Forall_app. split.
    + eapply Forall_impl; [exact Hdfr|]. intros r [Hr Hin].
      split; [by eapply settled_kept|set_solver].
    + eapply Forall_impl; [exact Hdfr'|]. intros r [Hr Hin]. split; [done|set_solver].
Qed.

Lemma elem_of_concat {A} (x : A) (ls : list (list A)) :
  x ∈ concat ls ↔ ∃ l, x ∈ l ∧ l ∈ ls.
Proof.
  induction ls as [|l0 ls IH]; simpl.
  - split; [by intros ?%elem_of_nil|]. by intros (l & _ & ?%elem_of_nil).
  - rewrite elem_of_app, IH. split.
    + intros [?|(l & ? & ?)]; [exists l0|exists l]; set_solver.
    + intros (l & Hx & [->|?]%elem_of_cons); [by left|right; by exists l].
Qed.

Lemma list_index_elem h (result : list nat) d :
  d ∈ result → ∃ index, list_index h result d = Some index.
Proof.
  induction result as [|x rest IH]; [by intros ?%elem_of_nil|].
  intros Hin. simpl. case_bool_decide as Heq; [eauto|].
  apply elem_of_cons in Hin as [->|Hin]; [done|].
  destruct (IH Hin) as [i ->]. eauto.
Qed.

Lemma elem_of_splice (result items : list nat) index r :
  r ∈ take index result ++ items ++ drop index result ↔ r ∈ result ∨ r ∈ items.
Proof.
  rewrite <-(take_drop index result) at 3. rewrite !elem_of_app. tauto.
Qed.

Lemma sound_expand_deferred rec choices legacy deferred result s :
  rec_sound rec →
  Forall (λ r, settled s r ∧ r ∈ result) deferred →
  Forall (settled s) result →
  sound (λ result' s', Forall (settled s') result')
    (expand_deferred node_is_interpolation resolve_node rec choices legacy
       deferred result) s.
Proof.
  intros Hrec. revert result s.
  induction deferred as [|d rest IH]; intros result s Hdfr Hresult; simpl.
  { by apply sound_ret. }
  apply Forall_cons in Hdfr as [[Hd Hin] Hrest].
  eapply (sound_step _ (get_obj d)); [reflexivity|].
  eapply (sound_bind (λ _ s', declared_kept s s')).
  { destruct (is_interpolation _ _); [|by apply sound_ret].
    unfold sound.
    destruct (resolve_interpolation resolve_node choices legacy d s)
      as [[[] s1]|e|] eqn:Hres; [|..|done].
    - by eapply (preserves_resolve_interpolation declared_kept
                   node_is_interpolation resolve_node resolve_choice).
    - unfold resolve_interpolation in Hres.
      rewrite (bind_run (get_obj d) _ s _ s eq_refl) in Hres.
      unfold update_obj, raise in Hres.
      destruct (config_group _); [destruct (resolve_node _ _ _ _)|];
        first [done|by injection Hres as <-]. }
  intros _ s1 _ Hk1.
  eapply sound_bind; [apply Hrec; by eapply settled_kept|].
  intros items s2 Hrun Hitems.
  assert (declared_kept s1 s2) as Hk2 by (eapply (proj1 Hrec); exact Hrun).
  eapply (sound_step _ get_heap); [reflexivity|].
  destruct (list_index_elem (st_heap s2) result d Hin) as [index ->].
  apply IH.
  - eapply Forall_impl; [exact Hrest|]. intros r [Hr Hr'].
    split; [eapply settled_kept; [exact Hk2|]; by eapply settled_kept|].
    apply elem_of_splice. by left.
  - rewrite <-(take_drop index result) in Hresult.
    apply Forall_app in Hresult as [Htake Hdrop].
    rewrite !Forall_app. split_and!; [|done|].
    + eapply Forall_impl; [exact Htake|]. intros r Hr.
      eapply settled_kept; [exact Hk2|]. by eapply settled_kept.
    + eapply Forall_impl; [exact Hdrop|]. intros r Hr.
      eapply settled_kept; [exact Hk2|]. by eapply settled_kept.
Qed.

Lemma process_renames_loop_raises fuel defaults h e :
  process_renames_loop fuel defaults h = Raise e → e ≠ ValueError.
Proof.
  revert defaults h. induction fuel as [|fuel IH]; intros defaults h; simpl; [done|].
  destruct (last_rename_index h defaults); [|done].
  destruct (apply_rename _ _ _ _) as [[|] h']; [apply IH|]. by intros [= <-].
Qed.

Lemma verify_entries_raises h defaults todo e :
  verify_entries h defaults todo = Raise e → e ≠ ValueError.
Proof.
  induction todo as [|d rest IH]; simpl; [done|].
  destruct (verify_entry h defaults d) as [[]|e'|] eqn:Hentry; [done| |done].
  intros [= ->]. unfold verify_entry in Hentry.
  destruct (_ && _); [|done].
  destruct (_ && _); [by injection Hentry as <-|].
  destruct (_ && _); [by injection Hentry as <-|done].
Qed.

Lemma validate_self_raises element effective h e :
  _validate_self element effective h = Raise e → e ≠ ValueError.
Proof.
  unfold _validate_self.
  destruct (validate_self_loop element effective false h)
    as [[[|] h1]|e'|] eqn:Hloop; [done|done| |done].
  intros [= ->]. revert Hloop. generalize false. revert h.
  induction effective as [|d rest IH]; intros h has_self; simpl; [done|].
  case_bool_decide; [|apply IH].
  destruct has_self.
  - destruct (config_path _); by intros [= <-].
  - destruct (config_group _); [by intros [= <-]|apply IH].
Qed.

Lemma sound_expand_with rec self_name original effective s :
  rec_sound rec →
  Forall (λ r, r < List.length (st_heap s)) effective →
  sound (λ ret s', Forall (settled s') ret)
    (expand_with node_is_interpolation resolve_node resolve_choice rec self_name original effective) s.
Proof.
  intros Hrec Heff. unfold expand_with.
  eapply sound_bind.
  { apply sound_expand_loop; [done|by apply Forall_reverse|done|done]. }
  intros [acc deferred] s1 _ [Hacc Hdfr]. simpl in *.
  set (result0 := concat (reverse acc)).
  eapply (sound_bind (λ result s', Forall (settled s') result ∧
                                   Forall (λ r, settled s' r ∧ r ∈ result) deferred)).
  { unfold sound.
    destruct (on_heap (_process_renames result0) s1) as [[result s2]|e|] eqn:Hrun.
    - assert (declared_kept s1 s2) as Hk
        by (by eapply (maintained_process_renames (nii := node_is_interpolation) (rc := resolve_choice) (R := declared_kept))).
      unfold on_heap in Hrun.
      destruct (_process_renames result0 (st_heap s1)) as [[result' h']| |] eqn:Hren;
        [|done|done].
      injection Hrun as <- <-.
      pose proof (process_renames_loop_result (S (List.length result0)) result0
                    (st_heap s1)) as Hres.
      unfold _process_renames in Hren. rewrite Hren in Hres.
      destruct Hres as (-> & Hplain & Hlen); [lia|]. split.
      + apply Forall_forall. intros r Hr. split.
        * simpl. rewrite Hlen. apply list_elem_of_filter in Hr as [_ Hr].
          unfold result0 in Hr. apply elem_of_concat in Hr as (l & Hr & Hl).
          rewrite elem_of_reverse in Hl. rewrite Forall_forall in Hacc.
          specialize (Hacc l Hl). rewrite Forall_forall in Hacc. by apply Hacc.
        * simpl. rewrite Forall_forall in Hplain. by apply Hplain.
      + eapply Forall_impl; [exact Hdfr|]. intros r [Hr Hin].
        split; [by eapply settled_kept|].
        apply list_elem_of_filter. split; [apply Hr|].
        unfold result0. apply elem_of_concat in Hin as (l & Hin & Hl).
        apply elem_of_concat. exists l. split; [done|]. by rewrite elem_of_reverse.
    - unfold on_heap in Hrun.
      destruct (_process_renames result0 (st_heap s1)) as [[result' h']|e'|] eqn:Hren;
        [done| |done].
      injection Hrun as <-. by eapply process_renames_loop_raises.
    - done. }
  intros result s2 _ [Hresult Hdfr2].
  eapply (sound_bind (λ _ s', st_heap s' = st_heap s2)).
  { unfold sound, check_heap, on_heap.
    destruct (_verify_no_add_conflicts (st_heap s2) result) as [[]|e|] eqn:Hver;
      [done| |done].
    by eapply verify_entries_raises. }
  intros _ s3 _ Hs3.
  eapply (sound_step _ get_choices); [reflexivity|].
  eapply sound_bind.
  { apply sound_expand_deferred; [done| |].
    - eapply Forall_impl; [exact Hdfr2|]. intros r [Hr ?]. split; [|done].
      by eapply settled_same_heap.
    - eapply Forall_impl; [exact Hresult|]. intros r Hr. by eapply settled_same_heap. }
  intros result' s4 _ Hresult'.
  eapply (sound_step _ get_heap); [reflexivity|].
  apply sound_ret. by apply Forall_dedup.
Qed.

Lemma sound_compute_impl fuel :
  rec_sound (_compute_element_defaults_list_impl node_is_interpolation
               resolve_node resolve_choice repo fuel).
Proof.
  split; [intros d; apply (preserves_compute_impl declared_kept); apply _|].
  induction fuel as [|fuel IH]; intros element s Hel; simpl; [done|].
  assert (∃ m s1, delete_matching element s = Ok (m, s1)) as (m & s1 & Hdm).
  { unfold delete_matching. destruct (delete_if_matching _ _ _) as [[m dg] h1]. eauto. }
  assert (settled s1 element) as Hs1.
  { eapply settled_kept; [|exact Hel].
    by eapply (maintained_delete_matching (nii := node_is_interpolation) (rc := resolve_choice) (R := declared_kept)). }
  eapply sound_step; [exact Hdm|]. destruct m; [by apply sound_ret|].
  eapply (sound_step _ (get_obj element)); [reflexivity|].
  destruct (config_path _) as [path|]; [|done].
  destruct (load_config repo path _) as [loaded|].
  - eapply (sound_step _ (new_objs loaded)); [reflexivity|].
    set (s2 := with_heap (st_heap s1 ++ loaded) s1).
    eapply (sound_bind (λ eff s', Forall (λ r, r < List.length (st_heap s')) eff)).
    { unfold sound, on_heap.
      destruct (_validate_self element _ (st_heap s2)) as [[eff h3]|e|] eqn:Hval;
        [| |done].
      - simpl. unfold _validate_self in Hval.
        destruct (validate_self_loop _ _ _ _) as [[has_self h']| |] eqn:Hloop;
          [|done|done].
        pose proof (validate_self_loop_names _ _ _ _ _ _ Hloop) as [Hlen _].
        assert (Forall (λ r, r < List.length h')
                  (seq (List.length (st_heap s1)) (List.length loaded))) as Hfresh.
        { apply Forall_seq. intros j Hj. rewrite Hlen. unfold s2. simpl.
          rewrite length_app. lia. }
        destruct has_self.
        + by injection Hval as <- <-.
        + simpl in Hval. injection Hval as <- <-.
          rewrite !length_mutate, length_app. simpl. apply Forall_cons_2; [lia|].
          eapply Forall_impl; [exact Hfresh|]. intros r Hr. simpl in Hr. lia.
      - by eapply validate_self_raises. }
    intros eff s3 _ Heff.
    eapply (sound_step _ (get_obj element)); [reflexivity|].
    apply sound_expand_with; [|done].
    split; [intros d; apply (preserves_compute_impl declared_kept); apply _|exact IH].
  - destruct (optional _); [|done].
    eapply sound_step; [reflexivity|]. apply sound_ret.
    apply Forall_cons_2; [|done]. eapply settled_kept; [|exact Hs1].
    by eapply (maintained_update_skip (nii := node_is_interpolation) (rc := resolve_choice) (R := declared_kept)).
Qed.

End Sound.

Lemma verify_deletions_raises dg e :
  verify_deletions dg = Raise e → e ≠ ValueError.
Proof.
  induction dg as [|[k c] dg IH]; simpl; [done|].
  destruct (_ && _); [by intros [= <-]|done].
Qed.

Lemma sound_finish (Q : list nat → state → Prop) (m : M (list nat)) s0 :
  sound Q m s0 →
  match finish (m s0) with
  | Ok (ret, s) =>
      ∃ ret0, Q ret0 s ∧
              ret = filter (λ x, is_delete (deref (st_heap s) x) = false) ret0
  | Raise e => e ≠ ValueError
  | OutOfFuel => True
  end.
Proof.
  unfold sound, finish, _post_process_deletes.
  destruct (m s0) as [[ret0 s]|e|]; [|done|done]. intros HQ.
  destruct (verify_deletions (delete_groups s)) as [[]|e|] eqn:Hver; [|..|done].
  - by exists ret0.
  - by eapply verify_deletions_raises.
Qed.

Lemma loadable_filter s ret0 :
  Forall (settled s) ret0 →
  Forall (λ r, r < List.length (st_heap s) ∧
               is_package_rename (deref (st_heap s) r) = false ∧
               is_delete (deref (st_heap s) r) = false)
    (filter (λ x, is_delete (deref (st_heap s) x) = false) ret0).
Proof.
  intros Hall. apply Forall_forall. intros r Hr.
  apply list_elem_of_filter in Hr as [Hdel Hr].
  rewrite Forall_forall in Hall. destruct (Hall r Hr) as [? ?]. by split_and!.
Qed.

Lemma compute_element_sound nii rn rc repo fuel element h :
  element < List.length h →
  is_package_rename (deref h element) = false →
  sound (λ ret s', Forall (settled s') ret)
    (_compute_element_defaults_list_impl nii rn rc repo fuel element) (empty_state h).
Proof. intros Hvalid Hplain. by apply sound_compute_impl. Qed.

Lemma expand_sound nii rn rc repo fuel self_name defaults h s0 :
  st_heap s0 = h →
  Forall (λ d, d < List.length h) defaults →
  sound (λ ret s', Forall (settled s') ret)
    (_expand_defaults_list_impl nii rn rc repo fuel self_name
       (map (deref h) defaults) defaults) s0.
Proof.
  intros <- Hvalid. apply sound_expand_with; [apply sound_compute_impl|done].
Qed.

(** X14. What the top-level functions return can be loaded as it stands:
    every returned reference is an object of the final store that is
    neither a rename directive nor a delete directive.  This holds for
    [_expand_defaults_list] (and with it [expand_defaults_list]) on a seed
    list of objects of the store, and for [compute_element_defaults_list]
    on an element that is not itself a rename directive. *)
Theorem results_hold_no_directives :
  (∀ nii rn rc repo fuel element h ret s,
     compute_element_defaults_list nii rn rc repo fuel element h = Ok (ret, s) →
     element < List.length h →
     is_package_rename (deref h element) = false →
     Forall (λ r, r < List.length (st_heap s) ∧
                  is_package_rename (deref (st_heap s) r) = false ∧
                  is_delete (deref (st_heap s) r) = false) ret) ∧
  (∀ nii rn rc repo fuel self_name defaults h ret s,
     _expand_defaults_list nii rn rc repo fuel self_name defaults h = Ok (ret, s) →
     Forall (λ d, d < List.length h) defaults →
     Forall (λ r, r < List.length (st_heap s) ∧
                  is_package_rename (deref (st_heap s) r) = false ∧
                  is_delete (deref (st_heap s) r) = false) ret).
Proof.
  split.
  - intros nii rn rc repo fuel element h ret s Hrun Hvalid Hplain.
    pose proof (sound_finish _ _ _
                  (compute_element_sound nii rn rc repo fuel element h Hvalid Hplain))
      as Hfinish.
    unfold compute_element_defaults_list in Hrun. rewrite Hrun in Hfinish.
    destruct Hfinish as (ret0 & Hret0 & ->). by apply loadable_filter.
  - intros nii rn rc repo fuel self_name defaults h ret s Hrun Hvalid.
    unfold _expand_defaults_list in Hrun.
    destruct (seed_tables nii rc h (reverse defaults) ∅ []) as [choices dg].
    pose proof (sound_finish _ _ _
                  (expand_sound nii rn rc repo fuel self_name defaults h
                     {| st_heap := h; group_to_choice := choices;
                        delete_groups := dg |} eq_refl Hvalid))
      as Hfinish.
    rewrite Hrun in Hfinish.
    destruct Hfinish as (ret0 & Hret0 & ->). by apply loadable_filter.
Qed.

Lemma results_hold_no_directives_witness :
  ∃ ret s,
    expand_defaults_list no_interpolation no_resolution no_choice_resolution demo_repo 3 [0; 1; 2; 3]
      [in_group "b" "b1"; in_group "c" "c1";
       set_package2 (Some "pkg") (override_of "b" "b1");
       delete_override_of "c"] = Ok (ret, s) ∧
    Forall (λ r, is_package_rename (deref (st_heap s) r) = false ∧
                 is_delete (deref (st_heap s) r) = false) ret.
Proof.
  eexists _, _. split; [vm_compute; reflexivity|].
  eapply Forall_impl.
  - eapply (proj2 results_hold_no_directives
              no_interpolation no_resolution no_choice_resolution demo_repo 3 None [0; 1; 2; 3]
              [in_group "b" "b1"; in_group "c" "c1";
               set_package2 (Some "pkg") (override_of "b" "b1");
               delete_override_of "c"]).
    + vm_compute. reflexivity.
    + repeat constructor.
  - intros r (_ & Hren & Hdel). by split.
Defined.

(** X15. The search [result.index(d)] for a deferred entry always finds
    it: no top-level call stops with a [ValueError], whatever the
    repository holds and whatever the seed list is, as long as the seed
    list and the element are objects of the store (and the element is not
    a rename directive). *)
Theorem deferred_entries_are_always_found :
  (∀ nii rn rc repo fuel element h,
     element < List.length h →
     is_package_rename (deref h element) = false →
     compute_element_defaults_list nii rn rc repo fuel element h ≠ Raise ValueError) ∧
  (∀ nii rn rc repo fuel self_name defaults h,
     Forall (λ d, d < List.length h) defaults →
     _expand_defaults_list nii rn rc repo fuel self_name defaults h ≠ Raise ValueError).
Proof.
  split.
  - intros nii rn rc repo fuel element h Hvalid Hplain Hrun.
    pose proof (sound_finish _ _ _
                  (compute_element_sound nii rn rc repo fuel element h Hvalid Hplain))
      as Hfinish.
    unfold compute_element_defaults_list in Hrun. by rewrite Hrun in Hfinish.
  - intros nii rn rc repo fuel self_name defaults h Hvalid Hrun.
    unfold _expand_defaults_list in Hrun.
    destruct (seed_tables nii rc h (reverse defaults) ∅ []) as [choices dg].
    pose proof (sound_finish _ _ _
                  (expand_sound nii rn rc repo fuel self_name defaults h
                     {| st_heap := h; group_to_choice := choices;
                        delete_groups := dg |} eq_refl Hvalid))
      as Hfinish.
    by rewrite Hrun in Hfinish.
Qed.

Lemma deferred_entries_are_always_found_witness :
  expand_defaults_list no_interpolation no_resolution no_choice_resolution demo_repo 3 [0; 1; 2]
    [in_group "a" "a1"; override_of "a" "a6"; add_override_of "b" "b1"]
  ≠ Raise ValueError.
Proof.
  apply (proj2 deferred_entries_are_always_found
           no_interpolation no_resolution no_choice_resolution demo_repo 3 None [0; 1; 2]
           [in_group "a" "a1"; override_of "a" "a6"; add_override_of "b" "b1"]).
  repeat constructor.
Defined.
